(** * ThreatDragonEnhanced: the T2T import pipeline

    A shallow embedding of the test-plan-to-topology pipeline of
    td.vue/src/service/migration/t2t and of the validation service
    td.vue/src/service/validation:

    - [JS]: the fragment of JavaScript's values, strings and numbers the
      pipeline relies on;
    - [Dfdir]: models/dfdir.js (DFDElement, DFDFlow, DFDIR);
    - [ValidationResult], [CellValidator], [ValidationService]:
      service/validation;
    - [Converter]: converter/t2tConverter.js;
    - [Layout]: layout/t2tLayout.js, and [Doubles]: its [snapToGrid]
      on binary64 numbers;
    - [Regex]: the regular expressions of the patterns, with the
      [lastIndex] of a global expression;
    - [Patterns], [PatternHelpers]: parser/t2tPatterns.js;
    - [Runtime], [Extractor]: parser/entityExtractor.js, as computations
      on the state of the module and of the extractor.

    The lemmas follow the definitions, module by module, and [Claims]
    holds the properties of the pipeline's specification.

    A number is a finite value, NaN or an infinity ([JS.Number]); a
    finite value is the exact rational ([Q]) or integer ([Z]) it denotes,
    so the rounding of floating-point arithmetic is not represented. The
    statements about the grid of the layout are made for integers, on
    which the arithmetic of the code is exact (below 2^53); what
    [snapToGrid] computes with a grid unit that is a fraction is seen in
    [Doubles], on binary64 numbers.
    A string is the sequence of its code units, and the model has the
    strings whose code units are below 256 (U+0000 to U+00FF). *)

From Stdlib Require Import ZArith QArith Qround Lqa Ascii String List Bool Lia.
From Stdlib Require Import Floats.
From stdpp Require Import base option list strings gmap pretty.

Set Warnings "-clear-no-such-hyp".

(* ===================================================================== *)
(** * JavaScript values and helpers *)
(* ===================================================================== *)

Module JS.

(** A value of the type number: a finite value, NaN, or one of the
    infinities. The zero of the model has no sign: [-0] and [0] are
    equal for every comparison the pipeline makes. *)
Inductive Number : Type :=
| Finite (q : Q)
| NaN
| Infinity (negative : bool).

(** The defined primitive values a field of the model can hold.
    [undefined] is the [None] of an [option]. *)
Inductive JSValue : Type :=
| JSNull
| JSBool (b : bool)
| JSNumber (n : Number)
| JSString (s : string).

(** [typeof v === 'number'], which NaN and the infinities satisfy. *)
Definition is_number (v : JSValue) : bool :=
  match v with JSNumber _ => true | _ => false end.

(** ToBoolean on the modelled values. *)
Definition truthy (v : JSValue) : bool :=
  match v with
  | JSNull => false
  | JSBool b => b
  | JSNumber (Finite q) => negb (Qeq_bool q 0)
  | JSNumber NaN => false
  | JSNumber (Infinity _) => true
  | JSString s => negb (String.eqb s "")
  end.

(** ToBoolean of a string-or-undefined field: [!!s]. *)
Definition truthy_str (s : option string) : bool :=
  match s with
  | Some s => negb (String.eqb s "")
  | None => false
  end.

(** Template-literal conversion [`${s}`] of a string-or-undefined field. *)
Definition show_str (s : option string) : string :=
  match s with Some s => s | None => "undefined" end.

(** [x < y] and [x > y] on finite numbers. *)
Definition Qltb (x y : Q) : bool := negb (Qle_bool y x).

(** [Math.round]: the nearest integer, halves rounded towards +infinity. *)
Definition Math_round (q : Q) : Z := Qfloor (q + (1 # 2)).

Definition Math_min (x y : Q) : Q := if Qle_bool x y then x else y.
Definition Math_max (x y : Q) : Q := if Qle_bool x y then y else x.

(** [x < y] on numbers: false as soon as an operand is NaN. *)
Definition Number_ltb (x y : Number) : bool :=
  match x, y with
  | NaN, _ | _, NaN => false
  | Finite a, Finite b => Qltb a b
  | Finite _, Infinity negative => negb negative
  | Infinity negative, Finite _ => negative
  | Infinity a, Infinity b => a && negb b
  end.

(** [x <= y] on numbers, and [y >= x]. *)
Definition Number_leb (x y : Number) : bool :=
  match x, y with
  | NaN, _ | _, NaN => false
  | Finite a, Finite b => Qle_bool a b
  | Finite _, Infinity negative => negb negative
  | Infinity negative, Finite _ => negative
  | Infinity a, Infinity b => a || negb b
  end.

(** [x + y] *)
Definition Number_add (x y : Number) : Number :=
  match x, y with
  | NaN, _ | _, NaN => NaN
  | Finite a, Finite b => Finite (a + b)
  | Finite _, Infinity negative | Infinity negative, Finite _ => Infinity negative
  | Infinity a, Infinity b => if Bool.eqb a b then Infinity a else NaN
  end.

(** [x - y] *)
Definition Number_sub (x y : Number) : Number :=
  match x, y with
  | NaN, _ | _, NaN => NaN
  | Finite a, Finite b => Finite (a - b)
  | Finite _, Infinity negative => Infinity (negb negative)
  | Infinity negative, Finite _ => Infinity negative
  | Infinity a, Infinity b => if Bool.eqb a b then NaN else Infinity a
  end.

(** [x * y] *)
Definition Number_mul (x y : Number) : Number :=
  match x, y with
  | NaN, _ | _, NaN => NaN
  | Finite a, Finite b => Finite (a * b)
  | Finite a, Infinity negative | Infinity negative, Finite a =>
      if Qeq_bool a 0 then NaN else Infinity (xorb negative (Qltb a 0))
  | Infinity a, Infinity b => Infinity (xorb a b)
  end.

(** [x / y]; the zero divided by is [+0]. *)
Definition Number_div (x y : Number) : Number :=
  match x, y with
  | NaN, _ | _, NaN => NaN
  | Finite a, Finite b =>
      if Qeq_bool b 0
      then if Qeq_bool a 0 then NaN else Infinity (Qltb a 0)
      else Finite (a / b)
  | Finite _, Infinity _ => Finite 0
  | Infinity negative, Finite b => Infinity (xorb negative (Qltb b 0))
  | Infinity _, Infinity _ => NaN
  end.

(** [Math.round(x)] *)
Definition Number_round (x : Number) : Number :=
  match x with
  | Finite q => Finite (inject_Z (Math_round q))
  | _ => x
  end.

(** [Math.max(x, y)] and [Math.min(x, y)]: NaN as soon as an argument is
    NaN. *)
Definition Number_max (x y : Number) : Number :=
  match x, y with
  | NaN, _ | _, NaN => NaN
  | _, _ => if Number_leb x y then y else x
  end.

Definition Number_min (x y : Number) : Number :=
  match x, y with
  | NaN, _ | _, NaN => NaN
  | _, _ => if Number_leb x y then x else y
  end.

(** [x % y] on the values of the operands: the remainder of the division
    that truncates, with the sign of [x]; NaN for an infinite [x] and for
    [y] zero. No rounding takes place: the remainder of two doubles is a
    double. *)
Definition Number_rem (x y : Number) : Number :=
  match x, y with
  | Finite a, Finite b =>
      if Qeq_bool b 0 then NaN
      else Finite (a - b * inject_Z (Z.quot (Qnum (a / b)) (Z.pos (Qden (a / b)))))
  | Finite a, Infinity _ => Finite a
  | _, _ => NaN
  end.

(** White space as [String.prototype.trim] and the regular expression
    class [\s] see it, among the code units below 256: the tab, the
    line feed, the vertical tab, the form feed, the carriage return, the
    space and the no-break space U+00A0. *)
Definition is_space (c : ascii) : bool :=
  let n := nat_of_ascii c in
  (n =? 32)%nat || (n =? 9)%nat || (n =? 10)%nat || (n =? 11)%nat
  || (n =? 12)%nat || (n =? 13)%nat || (n =? 160)%nat.

Fixpoint trimStart (s : string) : string :=
  match s with
  | String c s' => if is_space c then trimStart s' else s
  | EmptyString => EmptyString
  end.

(** [trimEnd] keeps a character when it is no space or when something
    that is kept follows it. *)
Fixpoint trimEnd (s : string) : string :=
  match s with
  | String c s' =>
      match trimEnd s' with
      | EmptyString => if is_space c then EmptyString else String c EmptyString
      | t => String c t
      end
  | EmptyString => EmptyString
  end.

Definition trim (s : string) : string := trimEnd (trimStart s).

(** The lower case of an ASCII letter, which is all that the regular
    expressions of the patterns fold. *)
Definition lower_ascii (c : ascii) : ascii :=
  let n := nat_of_ascii c in
  if (65 <=? n)%nat && (n <=? 90)%nat then ascii_of_nat (n + 32) else c.

Definition upper_ascii (c : ascii) : ascii :=
  let n := nat_of_ascii c in
  if (97 <=? n)%nat && (n <=? 122)%nat then ascii_of_nat (n - 32) else c.

(** The lower case of a code unit below 256: of the letters A to Z, and
    of the letters U+00C0 to U+00DE but the sign U+00D7. It is one code
    unit below 256 again. *)
Definition lower_unit (c : ascii) : ascii :=
  let n := nat_of_ascii c in
  if ((65 <=? n)%nat && (n <=? 90)%nat)
     || ((192 <=? n)%nat && (n <=? 222)%nat && negb (n =? 215)%nat)
  then ascii_of_nat (n + 32) else c.

Fixpoint toLowerCase (s : string) : string :=
  match s with
  | String c s' => String (lower_unit c) (toLowerCase s')
  | EmptyString => EmptyString
  end.

(** [toUpperCase], which the pipeline applies to the keys of its pattern
    tables only: ASCII text. *)
Fixpoint toUpperCase (s : string) : string :=
  match s with
  | String c s' => String (upper_ascii c) (toUpperCase s')
  | EmptyString => EmptyString
  end.

(** [Array.prototype.join] on an array of strings. *)
Fixpoint join (sep : string) (l : list string) : string :=
  match l with
  | [] => ""
  | [x] => x
  | x :: l' => x +:+ sep +:+ join sep l'
  end.

(** [s.startsWith(p)] *)
Fixpoint startsWith (p s : string) : bool :=
  match p, s with
  | EmptyString, _ => true
  | String a p', String b s' => Ascii.eqb a b && startsWith p' s'
  | String _ _, EmptyString => false
  end.

(** [s.indexOf(p)]: the first position at which [p] occurs, [None] for -1. *)
Fixpoint indexOf_from (p s : string) (i : nat) : option nat :=
  if startsWith p s then Some i
  else match s with
       | String _ s' => indexOf_from p s' (S i)
       | EmptyString => None
       end.

Definition indexOf (s p : string) : option nat := indexOf_from p s 0.

(** [s.includes(p)] *)
Definition includes (s p : string) : bool :=
  match indexOf s p with Some _ => true | None => false end.

Fixpoint drop_str (n : nat) (s : string) : string :=
  match n, s with
  | S n', String _ s' => drop_str n' s'
  | _, _ => s
  end.

Fixpoint take_str (n : nat) (s : string) : string :=
  match n, s with
  | S n', String c s' => String c (take_str n' s')
  | _, _ => EmptyString
  end.

(** [s.substring(a, b)] for [0 <= a]; JavaScript swaps the arguments when
    [a > b], the callers in this code base never do that. *)
Definition substring (s : string) (a b : nat) : string :=
  take_str (b - a) (drop_str a s).

(** [arr.includes(x)] for an array of strings. *)
Definition arr_includes (l : list string) (x : string) : bool :=
  existsb (String.eqb x) l.

(** The outcome of a call that may throw: [Throw msg] stands for
    [throw new Error(msg)]. *)
Inductive Completion (A : Type) : Type :=
| Normal (a : A)
| Throw (msg : string).
Arguments Normal {A} a.
Arguments Throw {A} msg.

Definition bindC {A B} (c : Completion A) (k : A -> Completion B) : Completion B :=
  match c with
  | Normal a => k a
  | Throw m => Throw m
  end.

End JS.

(* ===================================================================== *)
(** * models/dfdir.js *)
(* ===================================================================== *)

Module Dfdir.
Import JS.

(** A [metadata] object: property name to value. *)
Abbreviation Metadata := (gmap string JSValue).

(** ** DFDElement *)

(** The object literal passed to [new DFDElement({...})]: a property that
    is absent or [undefined] is [None]. *)
Record ElementArgs : Type := mkElementArgs {
  ea_id : option string;
  ea_name : option string;
  ea_type : option string;
  ea_x : option JSValue;
  ea_y : option JSValue;
  ea_ipAddress : option (option string);
  ea_services : option (list string);
  ea_metadata : option Metadata;
  ea_confidence : option JSValue;
  ea_source : option string
}.

(** An instance of the class. [id], [name] and [type] have no default and
    may be [undefined]; [ipAddress] is a string or [null]. *)
Record DFDElement : Type := mkElement {
  el_id : option string;
  el_name : option string;
  el_type : option string;
  el_x : JSValue;
  el_y : JSValue;
  el_ipAddress : option string;
  el_services : list string;
  el_metadata : Metadata;
  el_confidence : JSValue;
  el_source : string
}.

(** The constructor, with the defaults of its destructuring pattern. *)
Definition DFDElement_new (a : ElementArgs) : DFDElement :=
  {| el_id := ea_id a;
     el_name := ea_name a;
     el_type := ea_type a;
     el_x := default (JSNumber (Finite 100)) (ea_x a);
     el_y := default (JSNumber (Finite 100)) (ea_y a);
     el_ipAddress := default None (ea_ipAddress a);
     el_services := default [] (ea_services a);
     el_metadata := default ∅ (ea_metadata a);
     el_confidence := default (JSNumber (Finite 100)) (ea_confidence a);
     el_source := default "manual" (ea_source a) |}.

(** [typeof c !== 'number' || c < 0 || c > 100]: NaN is a number that is
    neither below 0 nor above 100. *)
Definition confidence_out_of_range (c : JSValue) : bool :=
  match c with
  | JSNumber n => Number_ltb n (Finite 0) || Number_ltb (Finite 100) n
  | _ => true
  end.

Definition element_types : list string := ["actor"; "process"; "store"].

(** [DFDElement.validate]: the error messages, in the order pushed. *)
Definition DFDElement_validate (e : DFDElement) : list string :=
  (if negb (truthy_str (el_id e)) then ["Element missing ID"] else [])
  ++ (if negb (truthy_str (el_name e))
         || String.eqb (trim (show_str (el_name e))) ""
      then ["Element missing name"] else [])
  ++ (if negb (match el_type e with
               | Some t => arr_includes element_types t
               | None => false
               end)
      then ["Invalid element type: " +:+ show_str (el_type e)] else [])
  ++ (if negb (is_number (el_x e)) || negb (is_number (el_y e))
      then ["Element position must be numeric"] else [])
  ++ (if confidence_out_of_range (el_confidence e)
      then ["Confidence must be between 0 and 100"] else []).

(** [DFDElement.toJSON]: every property is written, [undefined] ones too. *)
Definition DFDElement_toJSON (e : DFDElement) : ElementArgs :=
  {| ea_id := el_id e;
     ea_name := el_name e;
     ea_type := el_type e;
     ea_x := Some (el_x e);
     ea_y := Some (el_y e);
     ea_ipAddress := Some (el_ipAddress e);
     ea_services := Some (el_services e);
     ea_metadata := Some (el_metadata e);
     ea_confidence := Some (el_confidence e);
     ea_source := Some (el_source e) |}.

(** ** DFDFlow *)

Record FlowArgs : Type := mkFlowArgs {
  fa_id : option string;
  fa_sourceId : option string;
  fa_targetId : option string;
  fa_protocol : option string;
  fa_isEncrypted : option bool;
  fa_isPublicNetwork : option bool;
  fa_metadata : option Metadata;
  fa_confidence : option JSValue;
  fa_source : option string
}.

Record DFDFlow : Type := mkFlow {
  fl_id : option string;
  fl_sourceId : option string;
  fl_targetId : option string;
  fl_protocol : string;
  fl_isEncrypted : bool;
  fl_isPublicNetwork : bool;
  fl_metadata : Metadata;
  fl_confidence : JSValue;
  fl_source : string
}.

Definition DFDFlow_new (a : FlowArgs) : DFDFlow :=
  {| fl_id := fa_id a;
     fl_sourceId := fa_sourceId a;
     fl_targetId := fa_targetId a;
     fl_protocol := default "HTTPS" (fa_protocol a);
     fl_isEncrypted := default true (fa_isEncrypted a);
     fl_isPublicNetwork := default false (fa_isPublicNetwork a);
     fl_metadata := default ∅ (fa_metadata a);
     fl_confidence := default (JSNumber (Finite 100)) (fa_confidence a);
     fl_source := default "manual" (fa_source a) |}.

(** [a === b] on string-or-undefined fields. *)
Definition str_opt_eqb (a b : option string) : bool :=
  bool_decide (a = b).

(** [DFDFlow.validate] *)
Definition DFDFlow_validate (f : DFDFlow) : list string :=
  (if negb (truthy_str (fl_id f)) then ["Flow missing ID"] else [])
  ++ (if negb (truthy_str (fl_sourceId f)) then ["Flow missing source ID"] else [])
  ++ (if negb (truthy_str (fl_targetId f)) then ["Flow missing target ID"] else [])
  ++ (if str_opt_eqb (fl_sourceId f) (fl_targetId f)
      then ["Flow source and target cannot be the same"] else [])
  ++ (if confidence_out_of_range (fl_confidence f)
      then ["Confidence must be between 0 and 100"] else []).

Definition DFDFlow_toJSON (f : DFDFlow) : FlowArgs :=
  {| fa_id := fl_id f;
     fa_sourceId := fl_sourceId f;
     fa_targetId := fl_targetId f;
     fa_protocol := Some (fl_protocol f);
     fa_isEncrypted := Some (fl_isEncrypted f);
     fa_isPublicNetwork := Some (fl_isPublicNetwork f);
     fa_metadata := Some (fl_metadata f);
     fa_confidence := Some (fl_confidence f);
     fa_source := Some (fl_source f) |}.

(** ** DFDIR *)

Record DFDIR : Type := mkDFDIR {
  d_name : string;
  d_elements : list DFDElement;
  d_flows : list DFDFlow;
  d_metadata : Metadata
}.

(** [new DFDIR(name)]; [now] is the value of [new Date().toISOString()]. *)
Definition DFDIR_new (now : string) (name : option string) : DFDIR :=
  {| d_name := default "Untitled" name;
     d_elements := [];
     d_flows := [];
     d_metadata :=
       <["created" := JSString now]>
         (<["source" := JSNull]> (<["extractionMethod" := JSNull]> ∅)) |}.

(** [this.elements.find(el => el.id === id) || null] *)
Definition getElementById (d : DFDIR) (id : option string) : option DFDElement :=
  List.find (fun el => str_opt_eqb (el_id el) id) (d_elements d).

Definition getFlowById (d : DFDIR) (id : option string) : option DFDFlow :=
  List.find (fun f => str_opt_eqb (fl_id f) id) (d_flows d).

(** [addElement]: the argument is an instance by its type; a duplicate id
    throws and leaves the DFDIR as it was. *)
Definition addElement (d : DFDIR) (e : DFDElement) : Completion DFDIR :=
  match getElementById d (el_id e) with
  | Some _ => Throw ("Element with ID " +:+ show_str (el_id e) +:+ " already exists")
  | None =>
      Normal {| d_name := d_name d;
                d_elements := d_elements d ++ [e];
                d_flows := d_flows d;
                d_metadata := d_metadata d |}
  end.

Definition addFlow (d : DFDIR) (f : DFDFlow) : Completion DFDIR :=
  match getFlowById d (fl_id f) with
  | Some _ => Throw ("Flow with ID " +:+ show_str (fl_id f) +:+ " already exists")
  | None =>
      Normal {| d_name := d_name d;
                d_elements := d_elements d;
                d_flows := d_flows d ++ [f];
                d_metadata := d_metadata d |}
  end.

(** [findIndex]: the position of the first element satisfying [p]. *)
Fixpoint findIndex {A} (p : A -> bool) (l : list A) : option nat :=
  match l with
  | [] => None
  | x :: l' => if p x then Some 0%nat else S <$> findIndex p l'
  end.

(** [removeElement]: the returned flag and the DFDIR afterwards; the flows
    that touch the element go with it. *)
Definition removeElement (d : DFDIR) (id : option string) : bool * DFDIR :=
  match findIndex (fun el => str_opt_eqb (el_id el) id) (d_elements d) with
  | None => (false, d)
  | Some index =>
      (true,
       {| d_name := d_name d;
          d_elements := delete index (d_elements d);
          d_flows :=
            List.filter
              (fun f => negb (str_opt_eqb (fl_sourceId f) id)
                        && negb (str_opt_eqb (fl_targetId f) id))
              (d_flows d);
          d_metadata := d_metadata d |})
  end.

Definition removeFlow (d : DFDIR) (id : option string) : bool * DFDIR :=
  match findIndex (fun f => str_opt_eqb (fl_id f) id) (d_flows d) with
  | None => (false, d)
  | Some index =>
      (true,
       {| d_name := d_name d;
          d_elements := d_elements d;
          d_flows := delete index (d_flows d);
          d_metadata := d_metadata d |})
  end.

(** ** DFDIR.validate *)

Record Validation : Type := mkValidation {
  v_valid : bool;
  v_errors : list string
}.

(** The body of the first [forEach]: what one element adds to [errors]. *)
Definition element_report (index : nat) (element : DFDElement) : list string :=
  match DFDElement_validate element with
  | [] => []
  | elementErrors =>
      ["Element " +:+ pretty index +:+ " (" +:+ show_str (el_name element) +:+ "): "
       +:+ join ", " elementErrors]
  end.

(** The body of the second [forEach]. *)
Definition flow_report (d : DFDIR) (index : nat) (flow : DFDFlow) : list string :=
  (match DFDFlow_validate flow with
   | [] => []
   | flowErrors => ["Flow " +:+ pretty index +:+ ": " +:+ join ", " flowErrors]
   end)
  ++ (match getElementById d (fl_sourceId flow) with
      | Some _ => []
      | None =>
          ["Flow " +:+ pretty index +:+ ": Source element "
           +:+ show_str (fl_sourceId flow) +:+ " not found"]
      end)
  ++ (match getElementById d (fl_targetId flow) with
      | Some _ => []
      | None =>
          ["Flow " +:+ pretty index +:+ ": Target element "
           +:+ show_str (fl_targetId flow) +:+ " not found"]
      end).

Definition validate_errors (d : DFDIR) : list string :=
  concat (imap element_report (d_elements d))
  ++ concat (imap (flow_report d) (d_flows d))
  ++ (if (length (d_elements d) =? 0)%nat then ["DFDIR contains no elements"] else []).

Definition validate (d : DFDIR) : Validation :=
  let errors := validate_errors d in
  {| v_valid := (length errors =? 0)%nat; v_errors := errors |}.

(** ** Serialisation *)

Record DFDIRJson : Type := mkDFDIRJson {
  j_name : option string;
  j_elements : list ElementArgs;
  j_flows : list FlowArgs;
  j_metadata : option Metadata
}.


(** A [forEach] whose body may throw. *)
Fixpoint forEachC {A S} (body : S -> A -> Completion S) (l : list A) (s : S)
  : Completion S :=
  match l with
  | [] => Normal s
  | x :: l' => bindC (body s x) (forEachC body l')
  end.

(** [DFDIR.fromJSON]. [json.metadata || dfdir.metadata]: an object is
    truthy, so a present metadata object is taken as it is. *)
Definition fromJSON (now : string) (json : DFDIRJson) : Completion DFDIR :=
  let dfdir := DFDIR_new now (j_name json) in
  let dfdir :=
    {| d_name := d_name dfdir;
       d_elements := d_elements dfdir;
       d_flows := d_flows dfdir;
       d_metadata := default (d_metadata dfdir) (j_metadata json) |} in
  bindC (forEachC (fun d elData => addElement d (DFDElement_new elData))
                  (j_elements json) dfdir)
        (forEachC (fun d flowData => addFlow d (DFDFlow_new flowData))
                  (j_flows json)).

(** ** Instances built through the public interface *)

Inductive Op : Type :=
| OpAddElement (a : ElementArgs)
| OpAddFlow (a : FlowArgs)
| OpRemoveElement (id : option string)
| OpRemoveFlow (id : option string).

(** One call on the instance; a call that throws leaves it unchanged. *)
Definition step (d : DFDIR) (o : Op) : DFDIR :=
  match o with
  | OpAddElement a =>
      match addElement d (DFDElement_new a) with Normal d' => d' | Throw _ => d end
  | OpAddFlow a =>
      match addFlow d (DFDFlow_new a) with Normal d' => d' | Throw _ => d end
  | OpRemoveElement id => snd (removeElement d id)
  | OpRemoveFlow id => snd (removeFlow d id)
  end.

(** The instance reached from [new DFDIR(name)] by a sequence of calls. *)
Definition build (now : string) (name : option string) (ops : list Op) : DFDIR :=
  fold_left step ops (DFDIR_new now name).

End Dfdir.

(* ===================================================================== *)
(** * service/validation/validationResult.js *)
(* ===================================================================== *)

Module ValidationResult.

Module Severity.
Definition ERROR := "error".
Definition WARNING := "warning".
Definition INFO := "info".
End Severity.

Module ErrorCodes.
Definition SCHEMA_INVALID := "SCHEMA_INVALID".
Definition MISSING_REQUIRED := "MISSING_REQUIRED".
Definition INVALID_TYPE := "INVALID_TYPE".
Definition INVALID_FORMAT := "INVALID_FORMAT".
Definition MISSING_SHAPE := "MISSING_SHAPE".
Definition INVALID_SHAPE := "INVALID_SHAPE".
Definition MISSING_ID := "MISSING_ID".
Definition MISSING_POSITION := "MISSING_POSITION".
Definition MISSING_SIZE := "MISSING_SIZE".
Definition INVALID_SOURCE := "INVALID_SOURCE".
Definition INVALID_TARGET := "INVALID_TARGET".
Definition ORPHAN_FLOW := "ORPHAN_FLOW".
Definition EMPTY_MODEL := "EMPTY_MODEL".
Definition INVALID_ELEMENT := "INVALID_ELEMENT".
Definition INVALID_FLOW := "INVALID_FLOW".
Definition REFERENCE_ERROR := "REFERENCE_ERROR".
Definition UNKNOWN_ERROR := "UNKNOWN_ERROR".
End ErrorCodes.

(** A validation issue. The [timestamp] property (the wall clock) and the
    free-form [context] object are left out. *)
Record Issue : Type := mkIssue {
  code : string;
  message : string;
  path : string;
  severity : string;
  suggestion : string
}.

(** [createError({code, message, path, severity, suggestion})]: an absent
    property is [None] and takes the default. *)
Definition createError (c m p sev sug : option string) : Issue :=
  {| code := default ErrorCodes.UNKNOWN_ERROR c;
     message := default "Unknown validation error" m;
     path := default "" p;
     severity := default Severity.ERROR sev;
     suggestion := default "" sug |}.

(** The result object; [validatedAt] (the wall clock) is left out. *)
Record Result : Type := mkResult {
  valid : bool;
  errors : list Issue;
  warnings : list Issue;
  info : list Issue;
  source : string
}.

(** [createResult({source, valid})] *)
Definition createResult (src : option string) (v : option bool) : Result :=
  {| valid := default true v;
     errors := [];
     warnings := [];
     info := [];
     source := default "unknown" src |}.

Definition addError (r : Result) (e : Issue) : Result :=
  {| valid := false;
     errors := errors r ++ [e];
     warnings := warnings r;
     info := info r;
     source := source r |}.

Definition addWarning (r : Result) (w : Issue) : Result :=
  {| valid := valid r;
     errors := errors r;
     warnings := warnings r ++ [w];
     info := info r;
     source := source r |}.

Definition addInfo (r : Result) (i : Issue) : Result :=
  {| valid := valid r;
     errors := errors r;
     warnings := warnings r;
     info := info r ++ [i];
     source := source r |}.

Definition merge (r other : Result) : Result :=
  {| valid := if (0 <? length (errors other))%nat then false else valid r;
     errors := errors r ++ errors other;
     warnings := warnings r ++ warnings other;
     info := info r ++ info other;
     source := source r |}.

(** [fromStringErrors(errorStrings, source)] *)
Definition fromStringErrors (errorStrings : list string) (src : option string) : Result :=
  fold_left
    (fun result msg =>
       addError result
         (createError (Some ErrorCodes.UNKNOWN_ERROR) (Some msg) None
                      (Some Severity.ERROR) None))
    errorStrings
    (createResult (Some (default "unknown" src))
                  (Some (length errorStrings =? 0)%nat)).

End ValidationResult.

(* ===================================================================== *)
(** * service/validation/cellValidator.js *)
(* ===================================================================== *)

Module CellValidator.
Import JS ValidationResult.

Module ValidShapes.
Definition ACTOR := "actor".
Definition PROCESS := "process".
Definition STORE := "store".
Definition FLOW := "flow".
Definition TRUST_BOUNDARY_BOX := "trust-boundary-box".
Definition TRUST_BOUNDARY_CURVE := "trust-broundary-curve".
Definition TEXT := "td-text-block".
End ValidShapes.

(** [Object.values(ValidShapes)] *)
Definition ValidShapes_values : list string :=
  [ValidShapes.ACTOR; ValidShapes.PROCESS; ValidShapes.STORE; ValidShapes.FLOW;
   ValidShapes.TRUST_BOUNDARY_BOX; ValidShapes.TRUST_BOUNDARY_CURVE;
   ValidShapes.TEXT].

(** The [ShapeAliases] object, as its entries in order. *)
Definition ShapeAliases : list (string * string) :=
  [("tm.Actor", "actor"); ("tm.Process", "process"); ("tm.Store", "store");
   ("tm.Flow", "flow"); ("tm.Boundary", "trust-boundary-box");
   ("tm.BoundaryBox", "trust-boundary-box")].

(** [ShapeAliases[shape]] *)
Definition alias_of (shape : string) : option string :=
  snd <$> List.find (fun kv => String.eqb (fst kv) shape) ShapeAliases.

(** [isValidShape(shape)]; the argument is a string or [undefined]. *)
Definition isValidShape (shape : option string) : bool :=
  match shape with
  | None => false
  | Some s =>
      if String.eqb s "" then false
      else arr_includes ValidShapes_values s
           || arr_includes (map fst ShapeAliases) s
  end.

Definition resolveShape (shape : string) : string :=
  default shape (alias_of shape).

(** A [position] or [size] object: two properties that may be missing. *)
Record Pair : Type := mkPair {
  p_fst : option JSValue;
  p_snd : option JSValue
}.

(** A [source] or [target] object: the referenced cell is its [cell]
    property; the converter writes an [id] property instead. *)
Record Terminal : Type := mkTerminal {
  t_cell : option string;
  t_id : option string
}.

(** The [data] object of a cell, as far as the pipeline writes it. *)
Record CellData : Type := mkCellData {
  cd_type : string;
  cd_name : option string;
  cd_isEncrypted : bool;
  cd_isPublicNetwork : bool;
  cd_protocol : string
}.

(** An X6 cell, with the properties the validator and the converter
    touch. [zIndex] is [None] when undefined, [Some JSNull] when null. *)
Record Cell : Type := mkCell {
  c_id : option string;
  c_shape : option string;
  c_zIndex : option JSValue;
  c_position : option Pair;
  c_size : option Pair;
  c_source : option Terminal;
  c_target : option Terminal;
  c_data : option CellData;
  c_stroke : option string
}.

(** [isEdgeCell(cell)], as a boolean. *)
Definition isEdgeCell (cell : Cell) : bool :=
  bool_decide (c_shape cell = Some ValidShapes.FLOW)
  || bool_decide (c_shape cell = Some ValidShapes.TRUST_BOUNDARY_CURVE)
  || bool_decide (is_Some (c_source cell))
  || bool_decide (is_Some (c_target cell)).

Definition is_number_opt (v : option JSValue) : bool :=
  match v with Some v => is_number v | None => false end.

Definition cells_path (index : nat) (prop : string) : string :=
  "cells[" +:+ pretty index +:+ "]." +:+ prop.

(** [validateNodeCell(cell, index, result)] *)
Definition validateNodeCell (cell : Cell) (index : nat) (result : Result) : Result :=
  let result :=
    if match c_position cell with
       | None => true
       | Some p => negb (is_number_opt (p_fst p)) || negb (is_number_opt (p_snd p))
       end
    then addError result
           (createError (Some ErrorCodes.MISSING_POSITION)
              (Some ("Node cell " +:+ pretty index +:+ " is missing valid position {x, y}"))
              (Some (cells_path index "position")) None
              (Some "Add position object with numeric x and y values"))
    else result in
  let result :=
    if match c_size cell with
       | None => true
       | Some p => negb (is_number_opt (p_fst p)) || negb (is_number_opt (p_snd p))
       end
    then addError result
           (createError (Some ErrorCodes.MISSING_SIZE)
              (Some ("Node cell " +:+ pretty index +:+ " is missing valid size {width, height}"))
              (Some (cells_path index "size")) None
              (Some "Add size object with numeric width and height values"))
    else result in
  if negb (bool_decide (is_Some (c_data cell)))
  then addWarning result
         (createError (Some ErrorCodes.MISSING_REQUIRED)
            (Some ("Node cell " +:+ pretty index +:+ " is missing 'data' object"))
            (Some (cells_path index "data")) (Some Severity.WARNING)
            (Some "Add data object with name, type, and other properties"))
  else result.

(** The warning pushed for a reference to a cell that does not exist;
    [which] is ["source"] or ["target"]. *)
Definition orphan_warning (index : nat) (which ref : string) : Issue :=
  createError (Some ErrorCodes.ORPHAN_FLOW)
    (Some ("Edge cell " +:+ pretty index +:+ " references non-existent "
           +:+ which +:+ " cell '" +:+ ref +:+ "'"))
    (Some (cells_path index (which +:+ ".cell"))) (Some Severity.WARNING)
    (Some ("Ensure " +:+ which +:+ " cell ID exists in the diagram")).

(** One end of an edge: the two branches of [validateEdgeCell] differ in
    the error code and in the word source/target only. *)
Definition validateTerminal (which errcode : string) (t : option Terminal)
    (index : nat) (cellMap : gmap string Cell) (result : Result) : Result :=
  match t with
  | None =>
      addError result
        (createError (Some errcode)
           (Some ("Edge cell " +:+ pretty index +:+ " is missing '" +:+ which +:+ "' property"))
           (Some (cells_path index which)) None
           (Some ("Add " +:+ which +:+ " object with cell ID reference")))
  | Some t =>
      match t_cell t with
      | Some ref =>
          if negb (String.eqb ref "") && (0 <? size cellMap)%nat
             && negb (bool_decide (is_Some (cellMap !! ref)))
          then addWarning result (orphan_warning index which ref)
          else result
      | None => result
      end
  end.

(** [validateEdgeCell(cell, index, cellMap, result)] *)
Definition validateEdgeCell (cell : Cell) (index : nat)
    (cellMap : gmap string Cell) (result : Result) : Result :=
  let result :=
    validateTerminal "source" ErrorCodes.INVALID_SOURCE (c_source cell)
                     index cellMap result in
  validateTerminal "target" ErrorCodes.INVALID_TARGET (c_target cell)
                   index cellMap result.

(** [validateCell(cell, index, cellMap)] *)
Definition validateCell (cell : Cell) (index : nat) (cellMap : gmap string Cell)
  : Result :=
  let result := createResult (Some ("cell[" +:+ pretty index +:+ "]")) None in
  let result :=
    if negb (truthy_str (c_id cell))
    then addError result
           (createError (Some ErrorCodes.MISSING_ID)
              (Some ("Cell " +:+ pretty index +:+ " is missing required 'id' property"))
              (Some (cells_path index "id")) None
              (Some "Add a unique UUID as the cell id"))
    else result in
  let result :=
    if negb (truthy_str (c_shape cell))
    then addError result
           (createError (Some ErrorCodes.MISSING_SHAPE)
              (Some ("Cell " +:+ pretty index +:+ " is missing required 'shape' property"))
              (Some (cells_path index "shape")) None
              (Some "Add shape property with value like 'actor', 'process', 'store', or 'flow'"))
    else if negb (isValidShape (c_shape cell))
    then addError result
           (createError (Some ErrorCodes.INVALID_SHAPE)
              (Some ("Cell " +:+ pretty index +:+ " has invalid shape '"
                     +:+ show_str (c_shape cell) +:+ "'"))
              (Some (cells_path index "shape")) None
              (Some ("Use one of: " +:+ join ", " ValidShapes_values)))
    else result in
  let result :=
    if match c_zIndex cell with None | Some JSNull => true | _ => false end
    then addWarning result
           (createError (Some ErrorCodes.MISSING_REQUIRED)
              (Some ("Cell " +:+ pretty index +:+ " is missing 'zIndex' property"))
              (Some (cells_path index "zIndex")) (Some Severity.WARNING)
              (Some "Add zIndex for proper layering (0 for edges, 1 for nodes)"))
    else result in
  let result :=
    if truthy_str (c_shape cell) && negb (isEdgeCell cell)
    then validateNodeCell cell index result
    else result in
  if isEdgeCell cell
  then validateEdgeCell cell index cellMap result
  else result.

(** [if (cell.id) cellMap.set(cell.id, cell)] *)
Definition cellMap_step (m : gmap string Cell) (cell : Cell) : gmap string Cell :=
  match c_id cell with
  | Some id => if String.eqb id "" then m else <[id := cell]> m
  | None => m
  end.

(** The map from cell id to cell that [validateCells] builds first. *)
Definition build_cellMap (cells : list Cell) : gmap string Cell :=
  fold_left cellMap_step cells ∅.

(** [cells.forEach((cell, index) => result.merge(validateCell(...)))],
    from index [index] on. *)
Fixpoint validate_each (cells : list Cell) (index : nat)
    (cellMap : gmap string Cell) (result : Result) : Result :=
  match cells with
  | [] => result
  | cell :: rest =>
      validate_each rest (S index) cellMap
        (merge result (validateCell cell index cellMap))
  end.

(** [validateCells(cells)]; the argument is an array by its type. *)
Definition validateCells (cells : list Cell) : Result :=
  let result := createResult (Some "cellValidator") None in
  match cells with
  | [] =>
      addWarning result
        (createError (Some ErrorCodes.EMPTY_MODEL)
           (Some "Diagram contains no cells") (Some "cells")
           (Some Severity.WARNING) (Some "Add nodes and flows to the diagram"))
  | _ => validate_each cells 0 (build_cellMap cells) result
  end.

End CellValidator.

(* ===================================================================== *)
(** * service/validation/validationService.js *)
(* ===================================================================== *)

Module ValidationService.
Import JS ValidationResult.

(** [validateDFDIR(dfdir)]; [dfdir] is [None] for a null or undefined
    argument. An instance always has the [validate] method. *)
Definition validateDFDIR (dfdir : option Dfdir.DFDIR) : Result :=
  let result := createResult (Some "validationService.dfdir") None in
  match dfdir with
  | None =>
      addError result
        (createError (Some ErrorCodes.MISSING_REQUIRED)
           (Some "DFDIR is null or undefined") (Some "dfdir") None None)
  | Some d =>
      let dfdirValidation := Dfdir.validate d in
      if negb (Dfdir.v_valid dfdirValidation)
      then merge result (fromStringErrors (Dfdir.v_errors dfdirValidation) (Some "dfdir"))
      else result
  end.


End ValidationService.

(* ===================================================================== *)
(** * converter/t2tConverter.js *)
(* ===================================================================== *)

Module Converter.
Import JS Dfdir CellValidator.

(** The [options] argument of [convert]; an absent property is [None]. *)
Record Options : Type := mkOptions {
  o_diagramName : option string;
  o_diagramDescription : option string;
  o_projectName : option string;
  o_projectOwner : option string;
  o_includeMetadata : option bool
}.

Definition no_options : Options := mkOptions None None None None None.

(** The diagram and the threat model that [convert] returns. The
    description texts, the drawing attributes other than the stroke
    colour and the per-cell [metadata] copies are left out. *)
Record Diagram : Type := mkDiagram {
  dg_id : Z;
  dg_title : string;
  dg_diagramType : string;
  dg_placeholder : string;
  dg_version : string;
  dg_cells : list Cell
}.

Record ThreatModel : Type := mkThreatModel {
  tm_version : string;
  tm_title : string;
  tm_owner : string;
  tm_diagrams : list Diagram
}.

(** [getStrokeColor(element)]. [convert] reaches it with a confidence
    that is a number; [null] and the booleans compare as 0 and 1, and a
    string, which the comparison would read as a number, is taken as one
    that reads as no number. *)
Definition getStrokeColor (element : DFDElement) : string :=
  match el_confidence element with
  | JSNumber n =>
      if Number_leb (Finite 85) n then "#333333"
      else if Number_leb (Finite 70) n then "#FFA726"
      else "#E53935"
  | _ => "#E53935"
  end.

(** [typeMap[element.type] || 'tm.Process'] and the like for the shape. *)
Definition tdType_of (t : option string) : string :=
  match t with
  | Some "actor" => "tm.Actor"
  | Some "process" => "tm.Process"
  | Some "store" => "tm.Store"
  | _ => "tm.Process"
  end.

Definition shapeName_of (t : option string) : string :=
  match t with
  | Some "actor" => "actor"
  | Some "process" => "process"
  | Some "store" => "store"
  | _ => "process"
  end.

Definition convertElementToCell (element : DFDElement) : Cell :=
  {| c_id := el_id element;
     c_shape := Some (shapeName_of (el_type element));
     c_zIndex := Some (JSNumber (Finite 1));
     c_position := Some (mkPair (Some (el_x element)) (Some (el_y element)));
     c_size := Some (mkPair (Some (JSNumber (Finite 160))) (Some (JSNumber (Finite 80))));
     c_source := None;
     c_target := None;
     c_data :=
       Some {| cd_type := tdType_of (el_type element);
               cd_name := el_name element;
               cd_isEncrypted := false;
               cd_isPublicNetwork := false;
               cd_protocol := "" |};
     c_stroke := Some (getStrokeColor element) |}.

Definition convertFlowToCell (flow : DFDFlow) : Cell :=
  {| c_id := fl_id flow;
     c_shape := Some "flow";
     c_zIndex := Some (JSNumber (Finite 10));
     c_position := None;
     c_size := None;
     c_source := Some (mkTerminal None (fl_sourceId flow));
     c_target := Some (mkTerminal None (fl_targetId flow));
     c_data :=
       Some {| cd_type := "tm.Flow";
               cd_name :=
                 Some (if String.eqb (fl_protocol flow) "" then "Data Flow"
                       else fl_protocol flow);
               cd_isEncrypted := fl_isEncrypted flow;
               cd_isPublicNetwork := fl_isPublicNetwork flow;
               cd_protocol := fl_protocol flow |};
     c_stroke := Some (if fl_isEncrypted flow then "#2E7D32" else "#333333") |}.

Definition buildDiagram (dfdir : DFDIR) (name description : string) : Diagram :=
  {| dg_id := 0;
     dg_title := name;
     dg_diagramType := "STRIDE";
     dg_placeholder := description;
     dg_version := "2.5.0";
     dg_cells := map convertElementToCell (d_elements dfdir)
                 ++ map convertFlowToCell (d_flows dfdir) |}.

Definition buildThreatModel (diagram : Diagram) (projectName projectOwner : string)
  : ThreatModel :=
  {| tm_version := "2.5.0";
     tm_title := projectName;
     tm_owner := projectOwner;
     tm_diagrams := [diagram] |}.

(** [convert(dfdir, options)] *)
Definition convert (dfdir : DFDIR) (options : Options) : Completion ThreatModel :=
  let diagramName := default "Imported Topology" (o_diagramName options) in
  let diagramDescription :=
    default "Auto-generated from OTP document" (o_diagramDescription options) in
  let projectName := default "T2T Import" (o_projectName options) in
  let projectOwner := default "Unknown" (o_projectOwner options) in
  let dfdirResult := ValidationService.validateDFDIR (Some dfdir) in
  if negb (ValidationResult.valid dfdirResult)
  then
    let errorMsgs :=
      join ", " (map ValidationResult.message (ValidationResult.errors dfdirResult)) in
    Throw ("DFDIR validation failed: " +:+ errorMsgs)
  else
    let diagram := buildDiagram dfdir diagramName diagramDescription in
    Normal (buildThreatModel diagram projectName projectOwner).

End Converter.

(* ===================================================================== *)
(** * layout/t2tLayout.js *)
(* ===================================================================== *)

Module Layout.
Import JS.

(** A node object as the layout engine reads and writes it. [x] and [y]
    are [None] while they hold no number: [undefined] (the extractor
    sets neither) or NaN. The coordinates that are numbers are
    integers. *)
Record Node : Type := mkNode {
  n_id : option string;
  n_name : string;
  n_type : option string;
  n_x : option Z;
  n_y : option Z
}.

Record Connection : Type := mkConnection {
  k_sourceId : option string;
  k_targetId : option string
}.

(** The node array. The layout mutates the node objects in place and
    passes references to them around in tiers and levels: a reference is
    the index of the object in the array. *)
Abbreviation Store := (list Node).

(** [node.x = x; node.y = y] *)
Definition set_position (x y : option Z) (n : Node) : Node :=
  {| n_id := n_id n; n_name := n_name n; n_type := n_type n;
     n_x := x; n_y := y |}.

(** The properties every object inherits from [Object.prototype]:
    [tiers[node.type]] is truthy for them and has no [push]. *)
Definition inherited_properties : list string :=
  ["constructor"; "__defineGetter__"; "__defineSetter__"; "hasOwnProperty";
   "__lookupGetter__"; "__lookupSetter__"; "isPrototypeOf";
   "propertyIsEnumerable"; "toString"; "valueOf"; "__proto__";
   "toLocaleString"].

Definition inherited_type (t : option string) : bool :=
  match t with Some t => arr_includes inherited_properties t | None => false end.

Inductive Tier : Type := TActor | TProcess | TStore.

(** The tier a node is pushed to: its own type, [process] by default. *)
Definition tier_of (t : option string) : Tier :=
  match t with
  | Some "actor" => TActor
  | Some "store" => TStore
  | _ => TProcess
  end.

Definition is_tier (t : Tier) (u : Tier) : bool :=
  match t, u with
  | TActor, TActor | TProcess, TProcess | TStore, TStore => true
  | _, _ => false
  end.

Section T2TLayout.

(** The instance: [new T2TLayout(gridSnap)] for a grid unit that is an
    integer. On integers the quotient, its rounding and the product of
    [snapToGrid] are exact in the code; with a grid unit that is a
    fraction they are not. *)
Variable gridSnap : Z.
Definition canvasWidth : Q := 2000.
Definition canvasHeight : Q := 1500.

(** [Math.cos], [Math.sin] and [Math.PI], only used by the radial layout. *)
Variable Math_cos Math_sin : Q -> Q.
Variable Math_PI : Q.

(** [snapToGrid(value)] for a finite value. With the grid unit 0 the
    quotient is an infinity or NaN, and the product with 0 is NaN
    ([None]). *)
Definition snapToGrid (value : Q) : option Z :=
  if (gridSnap =? 0)%Z then None
  else Some (Math_round (value / inject_Z gridSnap) * gridSnap)%Z.

(** The [forEach] of [positionTier]. *)
Fixpoint position_each (tierNodes : list nat) (currentX y spacing : Q)
    (store : Store) : Store :=
  match tierNodes with
  | [] => store
  | i :: rest =>
      position_each rest (currentX + spacing)%Q y spacing
        (alter (set_position (snapToGrid currentX) (snapToGrid y)) i store)
  end.

(** [positionTier(tierNodes, startX, y, spacing)] *)
Definition positionTier (tierNodes : list nat) (startX y spacing : Q)
    (store : Store) : Store :=
  match tierNodes with
  | [] => store
  | _ =>
      let totalWidth := ((inject_Z (Z.of_nat (length tierNodes)) - 1) * spacing)%Q in
      let centerOffset := ((canvasWidth - totalWidth) / 2)%Q in
      let currentX := Math_max startX centerOffset in
      position_each tierNodes currentX y spacing store
  end.

(** The references of the nodes an array holds, in order. *)
Definition refs (store : Store) : list nat := seq 0 (length store).

Definition refs_where (p : Node -> bool) (store : Store) : list nat :=
  List.filter (fun i => match store !! i with Some n => p n | None => false end)
              (refs store).

(** [calculateTieredLayout(nodes)] *)
Definition calculateTieredLayout (nodes : Store) : Completion Store :=
  if existsb (fun n => inherited_type (n_type n)) nodes
  then Throw "tiers[node.type].push is not a function"
  else
    let tier t := refs_where (fun n => is_tier t (tier_of (n_type n))) nodes in
    let tierSpacing := 400%Q in
    let nodeSpacing := 300%Q in
    let currentY := 100%Q in
    let nodes1 := positionTier (tier TActor) 100%Q currentY nodeSpacing nodes in
    let currentY := (currentY + tierSpacing)%Q in
    let nodes2 := positionTier (tier TProcess) 100%Q currentY nodeSpacing nodes1 in
    let currentY := (currentY + tierSpacing)%Q in
    Normal (positionTier (tier TStore) 100%Q currentY nodeSpacing nodes2).

(** The [forEach] of [calculateRadialLayout], from index [index] on. *)
Fixpoint radial_each (count : nat) (index : nat) (todo : nat) (store : Store) : Store :=
  match todo with
  | O => store
  | S todo' =>
      let centerX := (canvasWidth / 2)%Q in
      let centerY := (canvasHeight / 2)%Q in
      let radius := (Math_min centerX centerY - 200)%Q in
      let angle :=
        ((2 * Math_PI * inject_Z (Z.of_nat index)) / inject_Z (Z.of_nat count))%Q in
      let x := (centerX + radius * Math_cos angle)%Q in
      let y := (centerY + radius * Math_sin angle)%Q in
      radial_each count (S index) todo'
        (alter (set_position (snapToGrid x) (snapToGrid y)) index store)
  end.

(** [calculateRadialLayout(nodes)] *)
Definition calculateRadialLayout (nodes : Store) : Store :=
  radial_each (length nodes) 0 (length nodes) nodes.

(** [new Map(nodes.map(n => [n.id, n]))]: a later node replaces an earlier
    one with the same id. *)
Definition build_nodeMap (nodes : Store) : gmap (option string) nat :=
  fold_left (fun m i => match nodes !! i with
                        | Some n => <[n_id n := i]> m
                        | None => m
                        end)
            (refs nodes) ∅.

Definition id_at (nodes : Store) (i : nat) : option string :=
  match nodes !! i with Some n => n_id n | None => None end.

(** The targets pushed to [nextLevel] for one node of the current level. *)
Definition next_of (nodes : Store) (connections : list Connection)
    (nodeMap : gmap (option string) nat) (visited : gset (option string))
    (i : nat) : list nat :=
  let outgoing :=
    List.filter (fun conn => bool_decide (k_sourceId conn = id_at nodes i))
                connections in
  omap (fun conn =>
          match nodeMap !! k_targetId conn with
          | Some t =>
              if bool_decide (id_at nodes t ∈ visited) then None else Some t
          | None => None
          end)
       outgoing.

(** The [while] loop of [buildHierarchyLevels]; [None] when [fuel]
    iterations do not reach its end. *)
Fixpoint levels_loop (fuel : nat) (nodes : Store) (connections : list Connection)
    (nodeMap : gmap (option string) nat)
    (currentLevel : list nat) (levels : list (list nat))
    (visited : gset (option string))
  : option (list (list nat) * gset (option string)) :=
  match currentLevel with
  | [] => Some (levels, visited)
  | _ =>
      match fuel with
      | O => None
      | S fuel' =>
          let levelNodes :=
            List.filter (fun i => negb (bool_decide (id_at nodes i ∈ visited)))
                        currentLevel in
          let levels' :=
            match levelNodes with [] => levels | _ => (levels ++ [levelNodes])%list end in
          let visited' :=
            match levelNodes with
            | [] => visited
            | _ => visited ∪ list_to_set (map (id_at nodes) levelNodes)
            end in
          let nextLevel :=
            concat (map (next_of nodes connections nodeMap visited') currentLevel) in
          if (20 <? length levels')%nat then Some (levels', visited')
          else levels_loop fuel' nodes connections nodeMap nextLevel levels' visited'
      end
  end.

(** [buildHierarchyLevels(nodes, connections, rootNodes)]. Every turn of
    the loop adds a level, and the loop is left when there are more than
    20: 21 turns are enough ([levels_loop_terminates]). *)
Definition buildHierarchyLevels (nodes : Store) (connections : list Connection)
    (rootNodes : list nat) : option (list (list nat)) :=
  match levels_loop 21 nodes connections (build_nodeMap nodes) rootNodes [] ∅ with
  | None => None
  | Some (levels, visited) =>
      let unvisited :=
        refs_where (fun n => negb (bool_decide (n_id n ∈ visited))) nodes in
      Some (match unvisited with [] => levels | _ => (levels ++ [unvisited])%list end)
  end.

(** The [levels.forEach] of [calculateHierarchicalLayout]. *)
Fixpoint position_levels (levels : list (list nat)) (currentY : Q) (store : Store)
  : Store :=
  match levels with
  | [] => store
  | levelNodes :: rest =>
      position_levels rest (currentY + 400)%Q
        (positionTier levelNodes 100%Q currentY 300%Q store)
  end.

(** [calculateHierarchicalLayout(nodes, connections)] *)
Definition calculateHierarchicalLayout (nodes : Store) (connections : list Connection)
  : option (Completion Store) :=
  let hasIncoming : gset (option string) :=
    list_to_set (map k_targetId connections) in
  let rootNodes :=
    refs_where (fun n => negb (bool_decide (n_id n ∈ hasIncoming))) nodes in
  match rootNodes with
  | [] => Some (calculateTieredLayout nodes)
  | _ =>
      match buildHierarchyLevels nodes connections rootNodes with
      | None => None
      | Some levels => Some (Normal (position_levels levels 100%Q nodes))
      end
  end.

(** [calculateLayout(nodes, connections, layoutType)]. The outer [option]
    is [None] only if the hierarchy loop ran out of fuel. *)
Definition calculateLayout (nodes : Store) (connections : list Connection)
    (layoutType : string) : option (Completion Store) :=
  if String.eqb layoutType "tiered" then Some (calculateTieredLayout nodes)
  else if String.eqb layoutType "radial" then Some (Normal (calculateRadialLayout nodes))
  else if String.eqb layoutType "hierarchical"
  then calculateHierarchicalLayout nodes connections
  else Some (Throw ("Unknown layout type: " +:+ layoutType)).

End T2TLayout.

End Layout.

(* ===================================================================== *)
(** * snapToGrid on doubles *)
(* ===================================================================== *)

(** The constructor of [T2TLayout] takes any number for [gridSnap]. What
    [snapToGrid] computes with a unit that is no integer is seen on the
    doubles themselves: the binary64 numbers of the kernel, whose
    division and multiplication round to the nearest double as those of
    JavaScript do. *)
Module Doubles.
Import JS.

(** The value of a double. *)
Definition to_Number (x : float) : Number :=
  match Prim2SF x with
  | S754_zero _ => Finite 0
  | S754_finite negative m e =>
      Finite (inject_Z (if negative then Z.neg m else Z.pos m) * 2 ^ e)
  | S754_infinity negative => Infinity negative
  | S754_nan => NaN
  end.

(** The double of an integer below 2^53 in magnitude. *)
Definition of_Z (z : Z) : float :=
  if (z <? 0)%Z then (- of_uint63 (Uint63.of_Z (- z)))%float
  else of_uint63 (Uint63.of_Z z).

(** [Math.round(x)] is [x] when [x] is NaN, infinite or an integer (as
    every double from 2^52 on is), and else the integer
    floor(x + 1/2), taken without rounding; it is -0 for [x] from -0.5
    up to -0. *)
Definition Math_round (x : float) : float :=
  match to_Number x with
  | Finite q =>
      if Qeq_bool (inject_Z (Qfloor q)) q then x
      else if (JS.Math_round q =? 0)%Z && (Qnum q <? 0)%Z then neg_zero
      else of_Z (JS.Math_round q)
  | _ => x
  end.

(** [snapToGrid(value)], with the two roundings of the code: of the
    quotient and of the product. *)
Definition snapToGrid (gridSnap value : float) : float :=
  (Math_round (value / gridSnap) * gridSnap)%float.

End Doubles.

(* ===================================================================== *)
(** * Regular expressions *)
(* ===================================================================== *)

(** The part of JavaScript's regular expressions that the patterns of
    parser/t2tPatterns.js use: a backtracking matcher with the priorities
    of the language (greedy quantifiers, ordered alternatives, leftmost
    match), capture groups, the flags [g] and [i], and the [lastIndex]
    state of [test] on a global expression. *)

Module Regex.
Import JS.

Inductive ClassItem : Type :=
| CChar (c : ascii)
| CRange (lo hi : ascii)
| CDigit
| CSpace
| CWord.

Inductive Re : Type :=
| Eps
| Chr (c : ascii)
| Dot
| Cls (negated : bool) (items : list ClassItem)
| Seq (a b : Re)
| Alt (a b : Re)
| Star (a : Re)
| Grp (n : nat) (a : Re)
| WordB
| Bol
| Eol
| NotAhead (a : Re).

(** ** Characters *)

Definition code_in (lo hi : nat) (c : ascii) : bool :=
  let n := nat_of_ascii c in (lo <=? n)%nat && (n <=? hi)%nat.

Definition is_digit (c : ascii) : bool := code_in 48 57 c.

(** [\w] *)
Definition is_word (c : ascii) : bool :=
  code_in 48 57 c || code_in 65 90 c || code_in 97 122 c
  || (nat_of_ascii c =? 95)%nat.

(** What [.] excludes. *)
Definition is_line_terminator (c : ascii) : bool :=
  (nat_of_ascii c =? 10)%nat || (nat_of_ascii c =? 13)%nat.

(** Canonicalize, under the flag [i]. The letters of the patterns are
    ASCII letters, and a code unit from U+0080 on canonicalizes to no
    ASCII letter: folding the ASCII letters decides every comparison. *)
Definition canon (icase : bool) (c : ascii) : ascii :=
  if icase then upper_ascii c else c.

Definition in_range (lo hi c : ascii) : bool :=
  code_in (nat_of_ascii lo) (nat_of_ascii hi) c.

Definition item_matches (icase : bool) (item : ClassItem) (x : ascii) : bool :=
  match item with
  | CChar c => Ascii.eqb (canon icase c) (canon icase x)
  | CRange lo hi =>
      in_range lo hi x
      || (icase && (in_range lo hi (upper_ascii x) || in_range lo hi (lower_ascii x)))
  | CDigit => is_digit x
  | CSpace => is_space x
  | CWord => is_word x
  end.

(** ** The matcher *)

(** A position in the input: the character before it, the text from it
    on, and its index. *)
Record Cursor : Type := mkCursor {
  cur_prev : option ascii;
  cur_rest : string;
  cur_pos : nat
}.

(** The captures so far: group number to start and end index, the latest
    first. *)
Definition Captures : Type := list (nat * (nat * nat)).

Definition advance (c : Cursor) : option (ascii * Cursor) :=
  match cur_rest c with
  | String x rest => Some (x, mkCursor (Some x) rest (S (cur_pos c)))
  | EmptyString => None
  end.

Definition word_before (c : Cursor) : bool :=
  match cur_prev c with Some x => is_word x | None => false end.

Definition word_after (c : Cursor) : bool :=
  match cur_rest c with String x _ => is_word x | EmptyString => false end.

(** [matches icase r c caps k]: match [r] at [c], then continue with [k];
    the first success in priority order. An iteration of a star that
    consumes nothing is refused, as in the language. *)
Fixpoint matches (icase : bool) (r : Re) (c : Cursor) (caps : Captures)
    (k : Cursor -> Captures -> option (nat * Captures)) {struct r}
  : option (nat * Captures) :=
  match r with
  | Eps => k c caps
  | Chr a =>
      match advance c with
      | Some (x, c') =>
          if Ascii.eqb (canon icase a) (canon icase x) then k c' caps else None
      | None => None
      end
  | Dot =>
      match advance c with
      | Some (x, c') => if is_line_terminator x then None else k c' caps
      | None => None
      end
  | Cls negated items =>
      match advance c with
      | Some (x, c') =>
          if xorb negated (existsb (fun item => item_matches icase item x) items)
          then k c' caps else None
      | None => None
      end
  | Seq a b => matches icase a c caps (fun c' caps' => matches icase b c' caps' k)
  | Alt a b =>
      match matches icase a c caps k with
      | Some res => Some res
      | None => matches icase b c caps k
      end
  | Star a =>
      (fix loop (n : nat) (c : Cursor) (caps : Captures) {struct n}
         : option (nat * Captures) :=
         match n with
         | O => k c caps
         | S n' =>
             match matches icase a c caps
                     (fun c' caps' =>
                        if (cur_pos c' =? cur_pos c)%nat then None
                        else loop n' c' caps') with
             | Some res => Some res
             | None => k c caps
             end
         end) (S (String.length (cur_rest c))) c caps
  | Grp n a =>
      matches icase a c caps
        (fun c' caps' => k c' ((n, (cur_pos c, cur_pos c')) :: caps'))
  | WordB => if xorb (word_before c) (word_after c) then k c caps else None
  | Bol => match cur_prev c with None => k c caps | Some _ => None end
  | Eol => match cur_rest c with EmptyString => k c caps | _ => None end
  | NotAhead a =>
      match matches icase a c caps (fun c' caps' => Some (cur_pos c', caps')) with
      | Some _ => None
      | None => k c caps
      end
  end.

(** A match: where it starts, where it ends, and its captures. *)
Record Match : Type := mkMatch {
  m_index : nat;
  m_end : nat;
  m_caps : Captures
}.

(** The leftmost match at or after the cursor. *)
Fixpoint search (icase : bool) (r : Re) (prev : option ascii) (rest : string)
    (pos : nat) {struct rest} : option Match :=
  match matches icase r (mkCursor prev rest pos) []
          (fun c caps => Some (cur_pos c, caps)) with
  | Some (e, caps) => Some (mkMatch pos e caps)
  | None =>
      match rest with
      | String x rest' => search icase r (Some x) rest' (S pos)
      | EmptyString => None
      end
  end.

(** The cursor at index [i] of [s]; [None] when [i] is past the end. *)
Fixpoint cursor_at (prev : option ascii) (s : string) (pos i : nat)
  : option Cursor :=
  match i with
  | O => Some (mkCursor prev s pos)
  | S i' =>
      match s with
      | String x s' => cursor_at (Some x) s' (S pos) i'
      | EmptyString => None
      end
  end.

(** The leftmost match of [r] in [s] that starts at index [from] or
    later. *)
Definition exec_from (icase : bool) (r : Re) (s : string) (from : nat)
  : option Match :=
  match cursor_at None s 0 from with
  | Some c => search icase r (cur_prev c) (cur_rest c) (cur_pos c)
  | None => None
  end.

(** [match[n]] for a match in [s]: the text of group [n], [None] when the
    group took no part. *)
Definition group (s : string) (m : Match) (n : nat) : option string :=
  match n with
  | O => Some (substring s (m_index m) (m_end m))
  | _ =>
      match List.find (fun e => (fst e =? n)%nat) (m_caps m) with
      | Some (_, (a, b)) => Some (substring s a b)
      | None => None
      end
  end.

(** All matches, as the iterator of [matchAll] yields them: the search
    resumes at the end of the last match, one further after an empty
    match. [fuel] bounds the number of matches. *)
Fixpoint all_matches (fuel : nat) (icase : bool) (r : Re) (s : string)
    (from : nat) : list Match :=
  match fuel with
  | O => []
  | S fuel' =>
      match exec_from icase r s from with
      | Some m =>
          let next :=
            if (m_end m =? m_index m)%nat then S (m_end m) else m_end m in
          m :: all_matches fuel' icase r s next
      | None => []
      end
  end.

(** ** Reading a pattern *)

(** [a b], without a trailing empty expression. *)
Definition seq (a b : Re) : Re :=
  match b with Eps => a | _ => Seq a b end.

(** [a{n}] *)
Fixpoint times (n : nat) (a : Re) : Re :=
  match n with
  | O => Eps
  | S n' => seq a (times n' a)
  end.

(** [a{0,n}], greedy. *)
Fixpoint at_most (n : nat) (a : Re) : Re :=
  match n with
  | O => Eps
  | S n' => Alt (seq a (at_most n' a)) Eps
  end.

Definition digit_value (c : ascii) : nat := nat_of_ascii c - 48.

(** A decimal number at the head of [s]. *)
Fixpoint read_number (s : string) (acc : option nat) : option nat * string :=
  match s with
  | String c rest =>
      if is_digit c
      then read_number rest (Some (10 * default 0 acc + digit_value c))
      else (acc, s)
  | EmptyString => (acc, s)
  end.

(** The quantifier at the head of [s], applied to [a]. A lazy quantifier
    (a quantifier followed by [?]) is not read. *)
Definition read_quantifier (a : Re) (s : string) : option (Re * string) :=
  let not_lazy (res : Re * string) :=
    match snd res with
    | String "?" _ => None
    | _ => Some res
    end in
  match s with
  | String "*" rest => not_lazy (Star a, rest)
  | String "+" rest => not_lazy (Seq a (Star a), rest)
  | String "?" rest => not_lazy (Alt a Eps, rest)
  | String "{" rest =>
      match read_number rest None with
      | (Some n, String "}" rest') => not_lazy (times n a, rest')
      | (Some n, String "," rest') =>
          match read_number rest' None with
          | (Some m, String "}" rest'') =>
              not_lazy (seq (times n a) (at_most (m - n) a), rest'')
          | (None, String "}" rest'') =>
              not_lazy (seq (times n a) (Star a), rest'')
          | _ => None
          end
      | _ => None
      end
  | _ => Some (a, s)
  end.

(** An escape inside or outside a class: the class it stands for, or the
    character itself. *)
Definition escape_item (c : ascii) : ClassItem :=
  match c with
  | "d"%char => CDigit
  | "s"%char => CSpace
  | "w"%char => CWord
  | "n"%char => CChar "010"%char
  | "t"%char => CChar "009"%char
  | "r"%char => CChar "013"%char
  | _ => CChar c
  end.

(** The items of a class, up to its closing bracket. *)
Fixpoint read_class (fuel : nat) (s : string) : option (list ClassItem * string) :=
  match fuel with
  | O => None
  | S fuel' =>
      match s with
      | EmptyString => None
      | String "]" rest => Some ([], rest)
      | String "\" (String c rest) =>
          match read_class fuel' rest with
          | Some (items, rest') => Some (escape_item c :: items, rest')
          | None => None
          end
      | String lo (String "-" (String hi rest)) =>
          if Ascii.eqb hi "]" then
            match read_class fuel' (String "-" (String hi rest)) with
            | Some (items, rest') => Some (CChar lo :: items, rest')
            | None => None
            end
          else
            match read_class fuel' rest with
            | Some (items, rest') => Some (CRange lo hi :: items, rest')
            | None => None
            end
      | String c rest =>
          match read_class fuel' rest with
          | Some (items, rest') => Some (CChar c :: items, rest')
          | None => None
          end
      end
  end.

(** Disjunction, alternative and term of the pattern grammar; a parse
    yields the expression, the text left and the number of the next
    capture group. *)
Fixpoint read_disjunction (fuel : nat) (s : string) (g : nat)
  : option (Re * string * nat) :=
  match fuel with
  | O => None
  | S fuel' =>
      match read_alternative fuel' s g with
      | Some (a, String "|" rest, g') =>
          match read_disjunction fuel' rest g' with
          | Some (b, rest', g'') => Some (Alt a b, rest', g'')
          | None => None
          end
      | other => other
      end
  end
with read_alternative (fuel : nat) (s : string) (g : nat)
  : option (Re * string * nat) :=
  match fuel with
  | O => None
  | S fuel' =>
      match s with
      | EmptyString => Some (Eps, s, g)
      | String "|" _ => Some (Eps, s, g)
      | String ")" _ => Some (Eps, s, g)
      | _ =>
          match read_term fuel' s g with
          | Some (t, rest, g') =>
              match read_alternative fuel' rest g' with
              | Some (u, rest', g'') => Some (seq t u, rest', g'')
              | None => None
              end
          | None => None
          end
      end
  end
with read_term (fuel : nat) (s : string) (g : nat)
  : option (Re * string * nat) :=
  match fuel with
  | O => None
  | S fuel' =>
      let quantified (a : Re) (rest : string) (g' : nat) :=
        match read_quantifier a rest with
        | Some (q, rest') => Some (q, rest', g')
        | None => None
        end in
      match s with
      | EmptyString => None
      | String "^" rest => Some (Bol, rest, g)
      | String "$" rest => Some (Eol, rest, g)
      | String "\" (String "b" rest) => Some (WordB, rest, g)
      | String "\" (String c rest) =>
          match escape_item c with
          | CChar x => quantified (Chr x) rest g
          | item => quantified (Cls false [item]) rest g
          end
      | String "." rest => quantified Dot rest g
      | String "[" (String "^" rest) =>
          match read_class fuel' rest with
          | Some (items, rest') => quantified (Cls true items) rest' g
          | None => None
          end
      | String "[" rest =>
          match read_class fuel' rest with
          | Some (items, rest') => quantified (Cls false items) rest' g
          | None => None
          end
      | String "(" (String "?" (String ":" rest)) =>
          match read_disjunction fuel' rest g with
          | Some (a, String ")" rest', g') => quantified a rest' g'
          | _ => None
          end
      | String "(" (String "?" (String "!" rest)) =>
          match read_disjunction fuel' rest g with
          | Some (a, String ")" rest', g') => Some (NotAhead a, rest', g')
          | _ => None
          end
      | String "(" (String "?" _) => None
      | String "(" rest =>
          match read_disjunction fuel' rest (S g) with
          | Some (a, String ")" rest', g') => quantified (Grp g a) rest' g'
          | _ => None
          end
      | String "*" _ => None
      | String "+" _ => None
      | String "?" _ => None
      | String "{" _ => None
      | String ")" _ => None
      | String "|" _ => None
      | String c rest => quantified (Chr c) rest g
      end
  end.

(** The expression a pattern source stands for; [None] for a source
    outside the fragment. *)
Definition parse (src : string) : option Re :=
  match read_disjunction (3 * String.length src + 8) src 1 with
  | Some (r, EmptyString, _) => Some r
  | _ => None
  end.

(** ** RegExp objects *)

(** A regular expression object: [re_key] names the object, [lastIndex]
    is kept under that name. *)
Record RegExp : Type := mkRegExp {
  re_key : string;
  re_source : string;
  re_global : bool;
  re_ignoreCase : bool
}.

(** The compiled expression; a source that does not parse matches
    nothing (every pattern of the library parses, see
    [PatternFacts.patterns_parse]). *)
Definition compile (p : RegExp) : Re :=
  default (NotAhead Eps) (parse (re_source p)).

(** The [lastIndex] of the global expressions of the module, by object;
    an object that is not recorded has [lastIndex] 0. *)
Abbreviation LastIndex := (gmap string nat).

(** [p.exec(s)]: the match, and [lastIndex] afterwards. Only a global
    expression reads and writes [lastIndex]. *)
Definition RegExp_exec (p : RegExp) (s : string) (st : LastIndex)
  : option Match * LastIndex :=
  let lastIndex := if re_global p then default 0%nat (st !! re_key p) else 0%nat in
  let set (i : nat) := if re_global p then <[re_key p := i]> st else st in
  if (String.length s <? lastIndex)%nat then (None, set 0%nat)
  else
    match exec_from (re_ignoreCase p) (compile p) s lastIndex with
    | Some m => (Some m, set (m_end m))
    | None => (None, set 0%nat)
    end.

(** [p.test(s)] *)
Definition RegExp_test (p : RegExp) (s : string) (st : LastIndex)
  : bool * LastIndex :=
  match RegExp_exec p s st with
  | (Some _, st') => (true, st')
  | (None, st') => (false, st')
  end.

(** [s.matchAll(p)] for a global expression whose own [lastIndex] is 0
    (no expression of the library is used with both [test] and
    [matchAll]): the iterator works on a copy, [lastIndex] of [p] stays.
    There are at most [length s + 1] matches. *)
Definition matchAll (p : RegExp) (s : string) : list Match :=
  all_matches (String.length s + 2) (re_ignoreCase p) (compile p) s 0.

End Regex.

(* ===================================================================== *)
(** * parser/t2tPatterns.js *)
(* ===================================================================== *)

Module Patterns.
Import JS Regex.

(** The pattern sources are those of the file, character for character,
    but for the two characters above U+00FF, the arrow U+2192 and the
    dash U+2013 of connectionPatterns[0]: no string of the model holds
    them, an alternative that requires one of them matches nothing, and
    each is written [(?!)], the expression that matches nowhere.
    Each object is named after the place that holds it. The tables that
    the entity extractor does not read (SERVICE_PATTERNS,
    NETWORK_PATTERNS, ROLE_PATTERNS, ipPattern, enclavePatterns,
    osPatterns) are left out. *)

Record OsPattern : Type := mkOsPattern {
  os_pattern : RegExp;
  os_hint : string;
  os_role : string
}.

Record InstrumentationPattern : Type := mkInstrumentationPattern {
  in_pattern : RegExp;
  in_name : string;
  in_role : string
}.

Definition OS_PATTERNS : list OsPattern :=
  [mkOsPattern (mkRegExp "OS_PATTERNS[0]"
       "\b(kali(?:\s*linux)?(?:\s*\d+(?:\.\d+)?)?)\b" false true)
     "kali" "attacker";
   mkOsPattern (mkRegExp "OS_PATTERNS[1]"
       "\b(parrot(?:\s*(?:os|sec))?)\b" false true)
     "parrot" "attacker";
   mkOsPattern (mkRegExp "OS_PATTERNS[2]"
       "\b(black\s*arch)\b" false true)
     "blackarch" "attacker";
   mkOsPattern (mkRegExp "OS_PATTERNS[3]"
       "\b(vyos(?:\s*\d+(?:\.\d+)?)?)\b" false true)
     "vyos" "router";
   mkOsPattern (mkRegExp "OS_PATTERNS[4]"
       "\b(pfsense|pf-sense)(?:\s*[\d.]+)?\b" false true)
     "pfsense" "firewall";
   mkOsPattern (mkRegExp "OS_PATTERNS[5]"
       "\b(opnsense)(?:\s*[\d.]+)?\b" false true)
     "opnsense" "firewall";
   mkOsPattern (mkRegExp "OS_PATTERNS[6]"
       "\b(ubuntu(?:\s*(?:server|desktop|lts))?(?:\s*\d+(?:\.\d+)?)?)\b" false true)
     "ubuntu" "server";
   mkOsPattern (mkRegExp "OS_PATTERNS[7]"
       "\b(centos(?:\s*(?:stream)?\s*\d+)?)\b" false true)
     "centos" "server";
   mkOsPattern (mkRegExp "OS_PATTERNS[8]"
       "\b(debian(?:\s*\d+)?)\b" false true)
     "debian" "server";
   mkOsPattern (mkRegExp "OS_PATTERNS[9]"
       "\b(fedora(?:\s*\d+)?)\b" false true)
     "fedora" "workstation";
   mkOsPattern (mkRegExp "OS_PATTERNS[10]"
       "\b(red\s*hat|rhel(?:\s*\d+)?)\b" false true)
     "rhel" "server";
   mkOsPattern (mkRegExp "OS_PATTERNS[11]"
       "\b(rocky\s*linux(?:\s*\d+)?)\b" false true)
     "rocky" "server";
   mkOsPattern (mkRegExp "OS_PATTERNS[12]"
       "\b(alma\s*linux(?:\s*\d+)?)\b" false true)
     "almalinux" "server";
   mkOsPattern (mkRegExp "OS_PATTERNS[13]"
       "\b(oracle\s*linux(?:\s*\d+)?)\b" false true)
     "oracle-linux" "server";
   mkOsPattern (mkRegExp "OS_PATTERNS[14]"
       "\b(suse|sles)(?:\s*\d+)?\b" false true)
     "suse" "server";
   mkOsPattern (mkRegExp "OS_PATTERNS[15]"
       "\b(arch\s*linux)\b" false true)
     "arch" "workstation";
   mkOsPattern (mkRegExp "OS_PATTERNS[16]"
       "\b(freebsd(?:\s*\d+)?)\b" false true)
     "freebsd" "server";
   mkOsPattern (mkRegExp "OS_PATTERNS[17]"
       "\b(openbsd(?:\s*\d+)?)\b" false true)
     "openbsd" "firewall";
   mkOsPattern (mkRegExp "OS_PATTERNS[18]"
       "\b(windows\s*(?:server\s*)?(?:20\d{2}|1[01]|xp|7|8)(?:\s*r2)?)\b" false true)
     "windows" "server";
   mkOsPattern (mkRegExp "OS_PATTERNS[19]"
       "\b(windows\s*10)\b" false true)
     "windows10" "workstation";
   mkOsPattern (mkRegExp "OS_PATTERNS[20]"
       "\b(windows\s*11)\b" false true)
     "windows11" "workstation";
   mkOsPattern (mkRegExp "OS_PATTERNS[21]"
       "\b(metasploitable(?:\s*\d)?)\b" false true)
     "metasploitable" "victim";
   mkOsPattern (mkRegExp "OS_PATTERNS[22]"
       "\b(dvwa)\b" false true)
     "dvwa" "victim";
   mkOsPattern (mkRegExp "OS_PATTERNS[23]"
       "\b(openwrt)\b" false true)
     "openwrt" "router";
   mkOsPattern (mkRegExp "OS_PATTERNS[24]"
       "\b(raspb(?:erry\s*pi|ian))\b" false true)
     "raspbian" "iot_device";
   mkOsPattern (mkRegExp "OS_PATTERNS[25]"
       "\b(popos|pop[_\s]?os)(?:\s*[\d.]+)?\b" false true)
     "popos" "workstation";
   mkOsPattern (mkRegExp "OS_PATTERNS[26]"
       "\b(esxi(?:\s*\d+(?:\.\d+)*)?)\b" false true)
     "esxi" "hypervisor";
   mkOsPattern (mkRegExp "OS_PATTERNS[27]"
       "\b(vmware\s*(?:vsphere|esx(?:i)?)?(?:\s*\d+(?:\.\d+)?)?)\b" false true)
     "esxi" "hypervisor";
   mkOsPattern (mkRegExp "OS_PATTERNS[28]"
       "\b(proxmox(?:\s*ve)?(?:\s*\d+(?:\.\d+)?)?)\b" false true)
     "proxmox" "hypervisor";
   mkOsPattern (mkRegExp "OS_PATTERNS[29]"
       "\b(hyper[-\s]?v(?:\s*server)?)\b" false true)
     "hyperv" "hypervisor";
   mkOsPattern (mkRegExp "OS_PATTERNS[30]"
       "\b(vcenter(?:\s*server)?(?:\s*[\d.]+)?)\b" false true)
     "vcenter" "hypervisor";
   mkOsPattern (mkRegExp "OS_PATTERNS[31]"
       "\b(mikrotik(?:\s*(?:routeros)?(?:\s*rb\d+)?)?)\b" false true)
     "mikrotik" "router";
   mkOsPattern (mkRegExp "OS_PATTERNS[32]"
       "\b(routeros(?:\s*[\d.]+)?)\b" false true)
     "mikrotik" "router";
   mkOsPattern (mkRegExp "OS_PATTERNS[33]"
       "\b(cisco\s*ios(?:\s*[\d.]+)?)\b" false true)
     "cisco-ios" "router";
   mkOsPattern (mkRegExp "OS_PATTERNS[34]"
       "\b(junos(?:\s*[\d.]+)?)\b" false true)
     "junos" "router";
   mkOsPattern (mkRegExp "OS_PATTERNS[35]"
       "\b(docker(?:\s*(?:ce|ee))?(?:\s*[\d.]+)?)\b" false true)
     "docker" "server";
   mkOsPattern (mkRegExp "OS_PATTERNS[36]"
       "\b(kubernetes|k8s)\b" false true)
     "kubernetes" "server";
   mkOsPattern (mkRegExp "OS_PATTERNS[37]"
       "\b(podman)\b" false true)
     "podman" "server"].

Definition INSTRUMENTATION_PATTERNS : list InstrumentationPattern :=
  [mkInstrumentationPattern (mkRegExp "INSTRUMENTATION_PATTERNS[0]"
       "\b(security\s*onion)\b" false true)
     "Security Onion" "instrumentation";
   mkInstrumentationPattern (mkRegExp "INSTRUMENTATION_PATTERNS[1]"
       "\b(cdap)\b" false true)
     "CDAP" "instrumentation";
   mkInstrumentationPattern (mkRegExp "INSTRUMENTATION_PATTERNS[2]"
       "\b(splunk)\b" false true)
     "Splunk" "instrumentation";
   mkInstrumentationPattern (mkRegExp "INSTRUMENTATION_PATTERNS[3]"
       "\b(elastic(?:search)?)\b" false true)
     "Elasticsearch" "instrumentation";
   mkInstrumentationPattern (mkRegExp "INSTRUMENTATION_PATTERNS[4]"
       "\b(zeek|bro)\b" false true)
     "Zeek" "instrumentation";
   mkInstrumentationPattern (mkRegExp "INSTRUMENTATION_PATTERNS[5]"
       "\b(suricata)\b" false true)
     "Suricata" "instrumentation";
   mkInstrumentationPattern (mkRegExp "INSTRUMENTATION_PATTERNS[6]"
       "\b(arkime|moloch)\b" false true)
     "Arkime" "instrumentation"].

Module T2TPatterns.

Module nodePatterns.
Definition tableRow : RegExp :=
  mkRegExp "nodePatterns.tableRow"
    "\|\s*([A-Za-z0-9_-]+)\s*\|[^|]*\|[^|]*\|\s*([0-9]{1,3}\.[0-9]{1,3}\.[0-9]{1,3}\.[0-9]{1,3})\s*\|\s*([A-Za-z]+)\s*\|\s*([^|]+)\s*\|"
    true false.
Definition inline : RegExp :=
  mkRegExp "nodePatterns.inline"
    "\b([A-Za-z][A-Za-z0-9_-]+)\s*\(([0-9]{1,3}\.[0-9]{1,3}\.[0-9]{1,3}\.[0-9]{1,3})\)"
    true false.
Definition systemNames : RegExp :=
  mkRegExp "nodePatterns.systemNames"
    "\b(Kali|Ubuntu|Windows|Server|Router|Firewall|pfSense|VyOS|DC-\d+|WS-\d+|WebSrv|FW-\d+|Mikrotik|ESXi|Proxmox|CentOS|Debian|RHEL)[A-Za-z0-9_-]*"
    true true.
End nodePatterns.

Module servicePatterns.
Definition web : RegExp :=
  mkRegExp "servicePatterns.web"
    "\b(HTTP|HTTPS|Apache|Nginx|IIS|port\s*80|port\s*443|web\s*server)\b"
    true true.
Definition database : RegExp :=
  mkRegExp "servicePatterns.database"
    "\b(MySQL|PostgreSQL|MongoDB|MSSQL|Oracle|port\s*3306|port\s*5432|port\s*1433|database|db)\b"
    true true.
Definition ssh : RegExp :=
  mkRegExp "servicePatterns.ssh"
    "\b(SSH|port\s*22|openssh)\b"
    true true.
Definition rdp : RegExp :=
  mkRegExp "servicePatterns.rdp"
    "\b(RDP|remote\s*desktop|port\s*3389)\b"
    true true.
Definition smb : RegExp :=
  mkRegExp "servicePatterns.smb"
    "\b(SMB|CIFS|file\s*sharing|port\s*445)\b"
    true true.
Definition dns : RegExp :=
  mkRegExp "servicePatterns.dns"
    "\b(DNS|port\s*53|name\s*resolution)\b"
    true true.
Definition ldap : RegExp :=
  mkRegExp "servicePatterns.ldap"
    "\b(LDAP|Active\s*Directory|AD|port\s*389)\b"
    true true.
Definition metasploit : RegExp :=
  mkRegExp "servicePatterns.metasploit"
    "\b(metasploit|msfconsole|meterpreter)\b"
    true true.
Definition burpsuite : RegExp :=
  mkRegExp "servicePatterns.burpsuite"
    "\b(burp|burpsuite)\b"
    true true.
(** [Object.entries(T2TPatterns.servicePatterns)] *)
Definition entries : list (string * RegExp) :=
  [("web", web); ("database", database); ("ssh", ssh); ("rdp", rdp); ("smb", smb); ("dns", dns); ("ldap", ldap); ("metasploit", metasploit); ("burpsuite", burpsuite)].
End servicePatterns.

Module protocolPatterns.
Definition https : RegExp :=
  mkRegExp "protocolPatterns.https"
    "\b(HTTPS|TLS|SSL|port\s*443)\b"
    true true.
Definition http : RegExp :=
  mkRegExp "protocolPatterns.http"
    "\b(HTTP(?!S)|port\s*80)\b"
    true true.
Definition ssh : RegExp :=
  mkRegExp "protocolPatterns.ssh"
    "\b(SSH|port\s*22)\b"
    true true.
Definition rdp : RegExp :=
  mkRegExp "protocolPatterns.rdp"
    "\b(RDP|port\s*3389)\b"
    true true.
Definition mysql : RegExp :=
  mkRegExp "protocolPatterns.mysql"
    "\b(MySQL|port\s*3306)\b"
    true true.
Definition postgresql : RegExp :=
  mkRegExp "protocolPatterns.postgresql"
    "\b(PostgreSQL|port\s*5432)\b"
    true true.
Definition smb : RegExp :=
  mkRegExp "protocolPatterns.smb"
    "\b(SMB|port\s*445)\b"
    true true.
Definition ldap : RegExp :=
  mkRegExp "protocolPatterns.ldap"
    "\b(LDAP|port\s*389)\b"
    true true.
Definition dns : RegExp :=
  mkRegExp "protocolPatterns.dns"
    "\b(DNS|port\s*53)\b"
    true true.
(** [Object.entries(T2TPatterns.protocolPatterns)] *)
Definition entries : list (string * RegExp) :=
  [("https", https); ("http", http); ("ssh", ssh); ("rdp", rdp); ("mysql", mysql); ("postgresql", postgresql); ("smb", smb); ("ldap", ldap); ("dns", dns)].
End protocolPatterns.

Module rolePatterns.
Definition attacker : RegExp :=
  mkRegExp "rolePatterns.attacker"
    "\b(attacker|red\s*team|offensive|kali|penetration|pentest)\b"
    true true.
Definition server : RegExp :=
  mkRegExp "rolePatterns.server"
    "\b(server|srv|host)\b"
    true true.
Definition workstation : RegExp :=
  mkRegExp "rolePatterns.workstation"
    "\b(workstation|ws|client|desktop|laptop)\b"
    true true.
Definition router : RegExp :=
  mkRegExp "rolePatterns.router"
    "\b(router|gateway|vyos|cisco)\b"
    true true.
Definition firewall : RegExp :=
  mkRegExp "rolePatterns.firewall"
    "\b(firewall|fw|pfsense|fortinet)\b"
    true true.
Definition database : RegExp :=
  mkRegExp "rolePatterns.database"
    "\b(database|db|mysql|postgresql|mongo)\b"
    true true.
Definition domainController : RegExp :=
  mkRegExp "rolePatterns.domainController"
    "\b(domain\s*controller|dc|active\s*directory|ad)\b"
    true true.
End rolePatterns.

Definition connectionPatterns : list RegExp :=
  [mkRegExp "connectionPatterns[0]"
     "([A-Za-z0-9_-]+)\s*(?:(?!)|->|(?!)>|=>)\s*([A-Za-z0-9_-]+)"
     true false;
   mkRegExp "connectionPatterns[1]"
     "from\s+([A-Za-z0-9_-]+)\s+to\s+([A-Za-z0-9_-]+)"
     true true;
   mkRegExp "connectionPatterns[2]"
     "([A-Za-z0-9_-]+)\s+(?:connects?|connected)\s+(?:to|with)\s+([A-Za-z0-9_-]+)"
     true true;
   mkRegExp "connectionPatterns[3]"
     "pivot\s+(?:through|via|to)\s+([A-Za-z0-9_-]+)"
     true true;
   mkRegExp "connectionPatterns[4]"
     "access\s+(?:the\s+)?([A-Za-z0-9_-]+)"
     true true;
   mkRegExp "connectionPatterns[5]"
     "target(?:ing|s|ed)?\s+(?:the\s+)?([A-Za-z0-9_-]+)"
     true true].

End T2TPatterns.

End Patterns.

(* ===================================================================== *)
(** * The state of the module and of an extractor *)
(* ===================================================================== *)

Module Runtime.
Import JS Regex.

(** A node and a connection as the extractor builds them, and as the
    vision results report them. The [confidence] of a reported node or
    connection is a number, or missing: the extractor only computes with
    it, and the arithmetic on [undefined] gives NaN, so that a missing
    confidence is the confidence [NaN]. *)
Record ENode : Type := mkENode {
  nd_id : option string;
  nd_name : string;
  nd_ipAddress : option string;
  nd_type : string;
  nd_services : list string;
  nd_metadata : gmap string JSValue;
  nd_confidence : Number;
  nd_source : string
}.

Record EConn : Type := mkEConn {
  cn_id : option string;
  cn_sourceId : option string;
  cn_targetId : option string;
  cn_protocol : string;
  cn_isEncrypted : bool;
  cn_isPublicNetwork : bool;
  cn_metadata : gmap string JSValue;
  cn_confidence : Number;
  cn_source : string
}.

(** What a run of the extractor can read and write: [lastIndex] of the
    module's global regular expressions (shared by every extractor and
    every call), the source of fresh identifiers, and the two fields of
    the [EntityExtractor] instance. *)
Record St : Type := mkSt {
  lastIndex : LastIndex;
  uuid_count : nat;
  nodes : list (string * ENode);
  connections : list EConn
}.

(** A computation on the state. *)
Definition M (A : Type) : Type := St -> A * St.

Definition ret {A} (a : A) : M A := fun s => (a, s).

Definition bind {A B} (m : M A) (k : A -> M B) : M B :=
  fun s => let (a, s') := m s in k a s'.

Notation "'let*' x ':=' c 'in' k" :=
  (bind c (fun x => k))
  (at level 10, x name, c at level 100, k at level 200).

Notation "c ';;' k" :=
  (bind c (fun _ => k))
  (at level 100, k at level 200, right associativity).

(** [l.forEach(body)] and [for (const x of l) body]; [continue] is the
    end of the body. *)
Fixpoint forEach {A} (l : list A) (body : A -> M unit) : M unit :=
  match l with
  | [] => ret tt
  | x :: l' => body x ;; forEach l' body
  end.

(** [p.test(s)] on the shared state. *)
Definition test (p : RegExp) (s : string) : M bool :=
  fun st =>
    let (b, li) := RegExp_test p s (lastIndex st) in
    (b, mkSt li (uuid_count st) (nodes st) (connections st)).

(** [p.test(s)] for an expression that is not global, which has no
    state. *)
Definition test_stateless (p : RegExp) (s : string) : bool :=
  fst (RegExp_test p s ∅).

(** [uuidv4()]: an identifier that was not handed out before. The
    library draws it at random; the model numbers them. *)
Definition uuidv4 : M string :=
  fun st =>
    ("uuid-" +:+ pretty (uuid_count st),
     mkSt (lastIndex st) (S (uuid_count st)) (nodes st) (connections st)).

Definition get_nodes : M (list (string * ENode)) := fun st => (nodes st, st).

Definition set_nodes (ns : list (string * ENode)) : M unit :=
  fun st => (tt, mkSt (lastIndex st) (uuid_count st) ns (connections st)).

Definition get_connections : M (list EConn) := fun st => (connections st, st).

Definition set_connections (cs : list EConn) : M unit :=
  fun st => (tt, mkSt (lastIndex st) (uuid_count st) (nodes st) cs).

End Runtime.

(* ===================================================================== *)
(** * parser/t2tPatterns.js: PatternHelpers *)
(* ===================================================================== *)

Module PatternHelpers.
Import JS Regex Patterns Runtime.

Definition ipv4 : RegExp :=
  mkRegExp "isValidIPv4"
    "^(?:(?:25[0-5]|2[0-4][0-9]|[01]?[0-9][0-9]?)\.){3}(?:25[0-5]|2[0-4][0-9]|[01]?[0-9][0-9]?)$"
    false false.

Definition isValidIPv4 (ip : string) : bool := test_stateless ipv4 ip.

(** [getContextWindow(text, keyword)], with the default window of 200. *)
Definition getContextWindow (text keyword : string) : string :=
  let windowSize := 200%nat in
  match indexOf (toLowerCase text) (toLowerCase keyword) with
  | None => ""
  | Some index =>
      let start := (index - windowSize)%nat in
      let stop :=
        Nat.min (String.length text) (index + String.length keyword + windowSize) in
      substring text start stop
  end.

Definition storage : RegExp :=
  mkRegExp "classifyNodeType.storage" "\b(storage|nas|san|backup)\b" false true.

(** [classifyNodeType(name, role, context)]: the two role patterns are
    global, so each [test] resumes where the last one on that object
    ended. *)
Definition classifyNodeType (name role context : string) : M string :=
  let combined := toLowerCase (name +:+ " " +:+ role +:+ " " +:+ context) in
  let* attacker := test T2TPatterns.rolePatterns.attacker combined in
  if attacker then ret "actor"
  else
    let* database := test T2TPatterns.rolePatterns.database combined in
    if database then ret "store"
    else if test_stateless storage combined then ret "store"
    else ret "process".

(** [set.add(x)] on the insertion-ordered list of a [Set]. *)
Definition set_add (x : string) (l : list string) : list string :=
  if arr_includes l x then l else l ++ [x].

Definition port : RegExp :=
  mkRegExp "extractServices.port" "port\s*(\d+)" true true.

(** The [forEach] over the service patterns in [extractServices]. *)
Fixpoint test_services (entries : list (string * RegExp)) (servicesText : string)
    (services : list string) : M (list string) :=
  match entries with
  | [] => ret services
  | (service, pattern) :: rest =>
      let* found := test pattern servicesText in
      test_services rest servicesText
        (if found then set_add service services else services)
  end.

(** [extractServices(servicesText)] *)
Definition extractServices (servicesText : string) : M (list string) :=
  let* services :=
    test_services T2TPatterns.servicePatterns.entries servicesText [] in
  let portMatches := matchAll port servicesText in
  ret (fold_left
         (fun services m =>
            set_add ("port-" +:+ default "undefined" (group servicesText m 1)) services)
         portMatches services).

(** The loop of [detectProtocol]: the first pattern that tests true. *)
Fixpoint first_protocol (entries : list (string * RegExp)) (context : string)
  : M string :=
  match entries with
  | [] => ret "TCP"
  | (protocol, pattern) :: rest =>
      let* found := test pattern context in
      if found then ret (toUpperCase protocol)
      else first_protocol rest context
  end.

Definition detectProtocol (context : string) : M string :=
  first_protocol T2TPatterns.protocolPatterns.entries context.

Definition isEncryptedProtocol (protocol : string) : bool :=
  arr_includes ["HTTPS"; "SSH"; "LDAPS"; "SMTPS"; "FTPS"; "TLS"; "SSL"]
               (toUpperCase protocol).

End PatternHelpers.

(* ===================================================================== *)
(** * parser/entityExtractor.js *)
(* ===================================================================== *)

Module Extractor.
Import JS Regex Patterns Runtime PatternHelpers.

(** ** The node map *)

(** [this.nodes.get(key)] *)
Definition nodes_get (key : string) (ns : list (string * ENode)) : option ENode :=
  snd <$> List.find (fun kv => String.eqb (fst kv) key) ns.

(** [this.nodes.has(key)] *)
Definition nodes_has (key : string) (ns : list (string * ENode)) : bool :=
  match nodes_get key ns with Some _ => true | None => false end.

(** [this.nodes.set(key, node)]: an entry keeps its place when its key is
    set again. *)
Fixpoint nodes_set (key : string) (node : ENode) (ns : list (string * ENode))
  : list (string * ENode) :=
  match ns with
  | [] => [(key, node)]
  | (k, v) :: rest =>
      if String.eqb k key then (k, node) :: rest
      else (k, v) :: nodes_set key node rest
  end.

(** The first entry whose node satisfies [p], changed by [f]: a write to
    the node object that a search returned. *)
Fixpoint update_first (p : ENode -> bool) (f : ENode -> ENode)
    (ns : list (string * ENode)) : list (string * ENode) :=
  match ns with
  | [] => []
  | (k, v) :: rest =>
      if p v then (k, f v) :: rest else (k, v) :: update_first p f rest
  end.

(** [a || b] on two values that are a string, null or undefined. *)
Definition or_str (a b : option string) : option string :=
  if truthy_str a then a else b.

(** [[...new Set([...a, ...b])]] *)
Definition union_services (a b : list string) : list string :=
  fold_left (fun acc x => set_add x acc) (a ++ b) [].

(** [getOrCreateNodeId(nodeName)] *)
Definition getOrCreateNodeId (nodeName : string) : M (option string) :=
  let* ns := get_nodes in
  match nodes_get nodeName ns with
  | Some existing => ret (nd_id existing)
  | None => let* id := uuidv4 in ret (Some id)
  end.

(** The [Object.assign] of [addOrUpdateNode]. *)
Definition merge_node (existing nodeData : ENode) : ENode :=
  {| nd_id := nd_id existing;
     nd_name := nd_name existing;
     nd_ipAddress := or_str (nd_ipAddress nodeData) (nd_ipAddress existing);
     nd_type := nd_type existing;
     nd_services := union_services (nd_services existing) (nd_services nodeData);
     nd_metadata := nd_metadata nodeData ∪ nd_metadata existing;
     nd_confidence :=
       Number_max (nd_confidence existing) (nd_confidence nodeData);
     nd_source := nd_source existing |}.

(** [addOrUpdateNode(nodeData)] *)
Definition addOrUpdateNode (nodeData : ENode) : M unit :=
  let* ns := get_nodes in
  match nodes_get (nd_name nodeData) ns with
  | Some existing =>
      set_nodes (nodes_set (nd_name nodeData) (merge_node existing nodeData) ns)
  | None => set_nodes (nodes_set (nd_name nodeData) nodeData ns)
  end.

(** ** Nodes *)

(** The body of the loop of [extractFromTableRows]. *)
Definition table_row (text : string) (m : Match) : M unit :=
  match group text m 1, group text m 2, group text m 3, group text m 4 with
  | Some hostname, ipAddress, Some role, Some servicesText =>
      if String.eqb hostname "" || String.eqb (trim hostname) "" then ret tt
      else
        let* nodeId := getOrCreateNodeId hostname in
        let* services := extractServices servicesText in
        let context := getContextWindow text hostname in
        let* type := classifyNodeType hostname role context in
        addOrUpdateNode
          {| nd_id := nodeId;
             nd_name := trim hostname;
             nd_ipAddress := or_str (trim <$> ipAddress) None;
             nd_type := type;
             nd_services := services;
             nd_metadata :=
               <["role" := JSString (trim role)]>
                 (<["extractedFrom" := JSString "table"]>
                    (<["rawServices" := JSString (trim servicesText)]> ∅));
             nd_confidence := Finite 95;
             nd_source := "text" |}
  | _, _, _, _ => ret tt
  end.

Definition extractFromTableRows (text : string) : M unit :=
  forEach (matchAll T2TPatterns.nodePatterns.tableRow text) (table_row text).

(** [existingNode.metadata.extractedFrom === 'table'] *)
Definition from_table (n : ENode) : bool :=
  match nd_metadata n !! "extractedFrom" with
  | Some (JSString "table") => true
  | _ => false
  end.

(** The body of the loop of [extractFromInlineFormat]. *)
Definition inline_node (text : string) (m : Match) : M unit :=
  match group text m 1, group text m 2 with
  | Some nodeName, Some ipAddress =>
      if String.eqb nodeName "" || String.eqb (trim nodeName) "" then ret tt
      else
        let* ns := get_nodes in
        if match nodes_get (trim nodeName) ns with
           | Some existingNode => from_table existingNode
           | None => false
           end
        then ret tt
        else
          let* nodeId := getOrCreateNodeId nodeName in
          let context := getContextWindow text nodeName in
          let* type := classifyNodeType nodeName "" context in
          addOrUpdateNode
            {| nd_id := nodeId;
               nd_name := trim nodeName;
               nd_ipAddress := Some (trim ipAddress);
               nd_type := type;
               nd_services := [];
               nd_metadata := <["extractedFrom" := JSString "inline"]> ∅;
               nd_confidence := Finite 85;
               nd_source := "text" |}
  | _, _ => ret tt
  end.

Definition extractFromInlineFormat (text : string) : M unit :=
  forEach (matchAll T2TPatterns.nodePatterns.inline text) (inline_node text).

(** [new RegExp(pattern.source, 'gi')] *)
Definition global_copy (p : RegExp) : RegExp :=
  mkRegExp (re_key p +:+ "/gi") (re_source p) true true.

(** A loop of [extractFromSystemNames] threads the set [seenNames]. *)
Fixpoint forEach_seen {A} (l : list A) (seenNames : list string)
    (body : A -> list string -> M (list string)) : M (list string) :=
  match l with
  | [] => ret seenNames
  | x :: l' =>
      let* seenNames := body x seenNames in
      forEach_seen l' seenNames body
  end.

(** The body of the inner loop over the matches of one OS pattern. *)
Definition os_match (text hint role : string) (m : Match)
    (seenNames : list string) : M (list string) :=
  let nodeName := trim (default "" (group text m 1)) in
  let normalizedName := toLowerCase nodeName in
  if arr_includes seenNames normalizedName then ret seenNames
  else
    let seenNames := set_add normalizedName seenNames in
    let* ns := get_nodes in
    if nodes_has nodeName ns then ret seenNames
    else
      let* nodeId := getOrCreateNodeId nodeName in
      let context := getContextWindow text nodeName in
      let* type := classifyNodeType nodeName role context in
      addOrUpdateNode
        {| nd_id := nodeId;
           nd_name := nodeName;
           nd_ipAddress := None;
           nd_type := type;
           nd_services := [];
           nd_metadata :=
             <["extractedFrom" := JSString "osPattern"]>
               (<["templateHint" := JSString hint]>
                  (<["defaultRole" := JSString role]> ∅));
           nd_confidence := Finite 75;
           nd_source := "text" |} ;;
      ret seenNames.

(** The body of the loop over the instrumentation patterns. *)
Definition instrumentation (text : string) (p : InstrumentationPattern)
    (seenNames : list string) : M (list string) :=
  if test_stateless (in_pattern p) text then
    if arr_includes seenNames (toLowerCase (in_name p)) then ret seenNames
    else
      let seenNames := set_add (toLowerCase (in_name p)) seenNames in
      let* ns := get_nodes in
      if nodes_has (in_name p) ns then ret seenNames
      else
        let* nodeId := getOrCreateNodeId (in_name p) in
        let context := getContextWindow text (in_name p) in
        let* type := classifyNodeType (in_name p) (in_role p) context in
        addOrUpdateNode
          {| nd_id := nodeId;
             nd_name := in_name p;
             nd_ipAddress := None;
             nd_type := type;
             nd_services := [];
             nd_metadata :=
               <["extractedFrom" := JSString "instrumentationPattern"]>
                 (<["defaultRole" := JSString (in_role p)]> ∅);
             nd_confidence := Finite 70;
             nd_source := "text" |} ;;
        ret seenNames
  else ret seenNames.

(** The body of the loop over the legacy system names. *)
Definition system_name (text : string) (m : Match) (seenNames : list string)
  : M (list string) :=
  let nodeName := default "" (group text m 0) in
  if arr_includes seenNames (toLowerCase nodeName) then ret seenNames
  else
    let seenNames := set_add (toLowerCase nodeName) seenNames in
    let* ns := get_nodes in
    if nodes_has nodeName ns then ret seenNames
    else
      let* nodeId := getOrCreateNodeId nodeName in
      let context := getContextWindow text nodeName in
      let* type := classifyNodeType nodeName "" context in
      addOrUpdateNode
        {| nd_id := nodeId;
           nd_name := trim nodeName;
           nd_ipAddress := None;
           nd_type := type;
           nd_services := [];
           nd_metadata := <["extractedFrom" := JSString "systemName"]> ∅;
           nd_confidence := Finite 65;
           nd_source := "text" |} ;;
      ret seenNames.

Definition extractFromSystemNames (text : string) : M unit :=
  let* seenNames :=
    forEach_seen OS_PATTERNS []
      (fun p seenNames =>
         forEach_seen (matchAll (global_copy (os_pattern p)) text) seenNames
           (os_match text (os_hint p) (os_role p))) in
  let* seenNames :=
    forEach_seen INSTRUMENTATION_PATTERNS seenNames (instrumentation text) in
  let* _ :=
    forEach_seen (matchAll T2TPatterns.nodePatterns.systemNames text) seenNames
      (system_name text) in
  ret tt.

Definition extractNodesFromText (text : string) : M unit :=
  extractFromTableRows text ;;
  extractFromInlineFormat text ;;
  extractFromSystemNames text.

(** ** Connections *)

(** [findNearestNodeName(text, nodeNames)]: the last name of the array
    that occurs in the text. *)
Definition findNearestNodeName (text : string) (nodeNames : list string)
  : option string :=
  List.find (fun nodeName => includes text nodeName) (rev nodeNames).

(** [this.connections.find(conn => conn.sourceId === s && conn.targetId === t)] *)
Definition find_connection (s t : option string) (cs : list EConn) : option EConn :=
  List.find (fun conn => bool_decide (cn_sourceId conn = s)
                         && bool_decide (cn_targetId conn = t)) cs.

(** The body of the loop over the matches of the pattern at [index]. *)
Definition connection_match (text : string) (nodeNames : list string)
    (index : nat) (m : Match) : M unit :=
  let before :=
    substring text (m_index m - 200) (m_index m) in
  let names :=
    if (index =? 3)%nat || (index =? 4)%nat || (index =? 5)%nat
    then (findNearestNodeName before nodeNames, group text m 1)
    else (group text m 1, group text m 2) in
  match names with
  | (Some sourceName, Some targetName) =>
      if String.eqb sourceName "" || String.eqb targetName "" then ret tt
      else
        let* ns := get_nodes in
        match nodes_get sourceName ns, nodes_get targetName ns with
        | Some sourceNode, Some targetNode =>
            if bool_decide (nd_id sourceNode = nd_id targetNode) then ret tt
            else
              let context :=
                getContextWindow text (sourceName +:+ " " +:+ targetName) in
              let* protocol := detectProtocol context in
              let isEncrypted := isEncryptedProtocol protocol in
              let* cs := get_connections in
              match find_connection (nd_id sourceNode) (nd_id targetNode) cs with
              | Some _ => ret tt
              | None =>
                  let* id := uuidv4 in
                  set_connections
                    (cs ++ [{| cn_id := Some id;
                               cn_sourceId := nd_id sourceNode;
                               cn_targetId := nd_id targetNode;
                               cn_protocol := protocol;
                               cn_isEncrypted := isEncrypted;
                               cn_isPublicNetwork := false;
                               cn_metadata :=
                                 <["sourceNode" := JSString sourceName]>
                                   (<["targetNode" := JSString targetName]>
                                      (<["extractedFrom" := JSString "text"]> ∅));
                               cn_confidence := Finite 80;
                               cn_source := "text" |}])
              end
        | _, _ => ret tt
        end
  | _ => ret tt
  end.

(** [extractConnectionsFromText(text)] *)
Definition extractConnectionsFromText (text : string) : M unit :=
  let* ns := get_nodes in
  let nodeNames := map fst ns in
  forEach (imap (fun index pattern => (index, pattern)) T2TPatterns.connectionPatterns)
    (fun ip =>
       forEach (matchAll (snd ip) text)
               (connection_match text nodeNames (fst ip))).

(** ** The second source *)

(** The [visionResults] argument: [nodes] and [connections] may be
    missing. A vision node or connection has the properties of an
    extracted one. *)
Record VisionResults : Type := mkVisionResults {
  vr_nodes : option (list ENode);
  vr_connections : option (list EConn)
}.

(** The test of [findNodeByNameOrIP(name, ipAddress)] on one node. *)
Definition name_or_ip (name : string) (ipAddress : option string) (node : ENode)
  : bool :=
  String.eqb (nd_name node) name
  || (truthy_str ipAddress && bool_decide (nd_ipAddress node = ipAddress)).

Definition findNodeByNameOrIP (name : string) (ipAddress : option string)
    (ns : list (string * ENode)) : option ENode :=
  snd <$> List.find (fun kv => name_or_ip name ipAddress (snd kv)) ns.

(** The writes to [existingNode] in [mergeVisionResults]. *)
Definition confirm_by_vision (visionNode existingNode : ENode) : ENode :=
  {| nd_id := nd_id existingNode;
     nd_name := nd_name existingNode;
     nd_ipAddress :=
       if negb (truthy_str (nd_ipAddress existingNode))
          && truthy_str (nd_ipAddress visionNode)
       then nd_ipAddress visionNode else nd_ipAddress existingNode;
     nd_type := nd_type existingNode;
     nd_services := nd_services existingNode;
     nd_metadata := <["visionConfirmed" := JSBool true]> (nd_metadata existingNode);
     nd_confidence :=
       Number_round
         (Number_div (Number_add (nd_confidence existingNode)
                                 (nd_confidence visionNode))
                     (Finite 2));
     nd_source := nd_source existingNode |}.

Definition with_node_source (source : string) (confidence : Number) (n : ENode)
  : ENode :=
  {| nd_id := nd_id n; nd_name := nd_name n; nd_ipAddress := nd_ipAddress n;
     nd_type := nd_type n; nd_services := nd_services n;
     nd_metadata := nd_metadata n;
     nd_confidence := confidence; nd_source := source |}.

Definition with_conn_confidence (confidence : Number) (c : EConn) : EConn :=
  {| cn_id := cn_id c; cn_sourceId := cn_sourceId c; cn_targetId := cn_targetId c;
     cn_protocol := cn_protocol c; cn_isEncrypted := cn_isEncrypted c;
     cn_isPublicNetwork := cn_isPublicNetwork c; cn_metadata := cn_metadata c;
     cn_confidence := confidence; cn_source := cn_source c |}.

Definition with_conn_source (source : string) (confidence : Number) (c : EConn)
  : EConn :=
  {| cn_id := cn_id c; cn_sourceId := cn_sourceId c; cn_targetId := cn_targetId c;
     cn_protocol := cn_protocol c; cn_isEncrypted := cn_isEncrypted c;
     cn_isPublicNetwork := cn_isPublicNetwork c; cn_metadata := cn_metadata c;
     cn_confidence := confidence; cn_source := source |}.

(** The body of [visionResults.nodes.forEach]. *)
Definition merge_vision_node (visionNode : ENode) : M unit :=
  let* ns := get_nodes in
  match findNodeByNameOrIP (nd_name visionNode) (nd_ipAddress visionNode) ns with
  | Some _ =>
      set_nodes
        (update_first (name_or_ip (nd_name visionNode) (nd_ipAddress visionNode))
                      (confirm_by_vision visionNode) ns)
  | None =>
      addOrUpdateNode
        (with_node_source "vision"
           (Number_mul (nd_confidence visionNode) (Finite (9 # 10))) visionNode)
  end.

(** The body of [visionResults.connections.forEach]. *)
Definition merge_vision_connection (visionConn : EConn) : M unit :=
  let* cs := get_connections in
  match find_connection (cn_sourceId visionConn) (cn_targetId visionConn) cs with
  | Some _ => ret tt
  | None =>
      set_connections
        (cs ++ [with_conn_source "vision"
                  (Number_mul (cn_confidence visionConn) (Finite (8 # 10)))
                  visionConn])
  end.

(** [mergeVisionResults(visionResults)] *)
Definition mergeVisionResults (visionResults : VisionResults) : M unit :=
  match vr_nodes visionResults with
  | None => ret tt
  | Some visionNodes =>
      forEach visionNodes merge_vision_node ;;
      match vr_connections visionResults with
      | Some visionConns => forEach visionConns merge_vision_connection
      | None => ret tt
      end
  end.

(** ** Confidence *)

(** [node.metadata.role], as a condition. *)
Definition has_role (n : ENode) : bool :=
  match nd_metadata n !! "role" with
  | Some v => truthy v
  | None => false
  end.

(** The adjustment of one node in [calculateConfidence]. *)
Definition adjust_node (node : ENode) : ENode :=
  let adjustedConfidence := nd_confidence node in
  let adjustedConfidence :=
    if truthy_str (nd_ipAddress node)
       && isValidIPv4 (default "" (nd_ipAddress node))
    then Number_add adjustedConfidence (Finite 5)
    else Number_sub adjustedConfidence (Finite 15) in
  let adjustedConfidence :=
    if (0 <? length (nd_services node))%nat
    then Number_add adjustedConfidence (Finite 5) else adjustedConfidence in
  let adjustedConfidence :=
    if has_role node then Number_add adjustedConfidence (Finite 5)
    else adjustedConfidence in
  with_node_source (nd_source node)
    (Number_min (Finite 100) (Number_max (Finite 0) adjustedConfidence)) node.

(** [Array.from(this.nodes.values()).find(n => n.id === id)] *)
Definition find_node_by_id (id : option string) (ns : list (string * ENode))
  : option ENode :=
  snd <$> List.find (fun kv => bool_decide (nd_id (snd kv) = id)) ns.

(** The adjustment of one connection in [calculateConfidence]. *)
Definition adjust_connection (ns : list (string * ENode)) (conn : EConn) : EConn :=
  match find_node_by_id (cn_sourceId conn) ns,
        find_node_by_id (cn_targetId conn) ns with
  | Some sourceNode, Some targetNode =>
      let avgNodeConfidence :=
        Number_div (Number_add (nd_confidence sourceNode)
                               (nd_confidence targetNode))
                   (Finite 2) in
      with_conn_confidence
        (Number_round
           (Number_div (Number_add (cn_confidence conn) avgNodeConfidence)
                       (Finite 2)))
        conn
  | _, _ => conn
  end.

(** [calculateConfidence()] *)
Definition calculateConfidence : M unit :=
  let* ns := get_nodes in
  let ns' := map (fun kv => (fst kv, adjust_node (snd kv))) ns in
  set_nodes ns' ;;
  let* cs := get_connections in
  set_connections (map (adjust_connection ns') cs).

(** ** extract *)

Record Extraction : Type := mkExtraction {
  ex_nodes : list ENode;
  ex_connections : list EConn
}.

(** [extract(text, visionResults)]; [visionResults] is [None] when it is
    null or left out. [collect] is the part before step 4, the
    calculation of the confidence scores. *)
Definition collect (text : string) (visionResults : option VisionResults)
  : M unit :=
  set_nodes [] ;;
  set_connections [] ;;
  extractNodesFromText text ;;
  extractConnectionsFromText text ;;
  match visionResults with
  | Some v => mergeVisionResults v
  | None => ret tt
  end.

Definition extract (text : string) (visionResults : option VisionResults)
  : M Extraction :=
  collect text visionResults ;;
  calculateConfidence ;;
  let* ns := get_nodes in
  let* cs := get_connections in
  ret (mkExtraction (map snd ns) cs).

(** The state in which the module is loaded and an extractor is made:
    every [lastIndex] is 0. *)
Definition fresh : St := mkSt ∅ 0 [] [].

End Extractor.

(* ===================================================================== *)
(** * The data-model conditions as the specification words them *)
(* ===================================================================== *)

Module Stated.
Import JS Dfdir.






End Stated.

(* ===================================================================== *)
(** * Predicates used in the statements *)
(* ===================================================================== *)

Module Props.
Import JS Dfdir ValidationResult Layout.

(** [sub] occurs in [s]. *)
Definition occurs_in (sub s : string) : Prop :=
  ∃ pre post, s = pre +:+ sub +:+ post.

(** A confidence the validator lets pass: a number that is neither
    below 0 nor above 100, that is, a finite number of the interval
    [0, 100] or NaN. *)
Definition confidence_ok (c : JSValue) : Prop :=
  c = JSNumber NaN
  ∨ ∃ q, c = JSNumber (Finite q) ∧ (0 <= q)%Q ∧ (q <= 100)%Q.

(** An element the validator accepts: an id that is not empty, a name
    that is not blank, one of the three types, values of the type number
    as coordinates (NaN and the infinities are such values) and a
    confidence that passes. *)
Definition element_ok (e : DFDElement) : Prop :=
  (∃ id, el_id e = Some id ∧ id ≠ "")
  ∧ (∃ name, el_name e = Some name ∧ trim name ≠ "")
  ∧ (∃ t, el_type e = Some t ∧ t ∈ element_types)
  ∧ (∃ x y, el_x e = JSNumber x ∧ el_y e = JSNumber y)
  ∧ confidence_ok (el_confidence e).

(** A flow the validator accepts. *)
Definition flow_ok (f : DFDFlow) : Prop :=
  (∃ id, fl_id f = Some id ∧ id ≠ "")
  ∧ (∃ s, fl_sourceId f = Some s ∧ s ≠ "")
  ∧ (∃ t, fl_targetId f = Some t ∧ t ≠ "")
  ∧ fl_sourceId f ≠ fl_targetId f
  ∧ confidence_ok (fl_confidence f).

(** What an average confidence of [getStatistics] is over confidences
    that pass the validator: NaN when one of them is NaN, an integer of
    [0, 100] otherwise. *)
Definition average_of_passed (confidences : list JSValue)
    (average : option Number) : Prop :=
  (JSNumber NaN ∈ confidences ∧ average = Some NaN)
  ∨ ((JSNumber NaN ∉ confidences)
     ∧ ∃ a : Z, average = Some (Finite (inject_Z a)) ∧ (0 <= a <= 100)%Z).

(** [id] is the id of an element of [d]. *)
Definition resolves (d : DFDIR) (id : option string) : Prop :=
  ∃ e, e ∈ d_elements d ∧ el_id e = id.

(** The invariant the public interface of DFDIR maintains: no two
    elements share an id, no two flows share an id. *)
Definition unique_ids (d : DFDIR) : Prop :=
  NoDup (map el_id (d_elements d)) ∧ NoDup (map fl_id (d_flows d)).

(** A result whose [valid] flag says that it holds no error. *)
Definition consistent (r : Result) : Prop :=
  valid r = true ↔ errors r = [].

(** No error of the result is about an orphan reference. *)
Definition no_orphan_error (r : Result) : Prop :=
  Forall (λ e, code e ≠ ErrorCodes.ORPHAN_FLOW) (errors r).

(** Both coordinates of a node are set, to multiples of the grid unit;
    JavaScript's [%] is the truncating remainder [Z.rem]. *)
Definition snapped (gridSnap : Z) (n : Node) : Prop :=
  ∃ x y, n_x n = Some x ∧ n_y n = Some y
         ∧ Z.rem x gridSnap = 0%Z ∧ Z.rem y gridSnap = 0%Z.

(** An integer below 2^50 in magnitude. On such integers the
    floating-point arithmetic of [snapToGrid] and [centerDiagram] is
    exact: every quotient is rounded as the exact quotient is, and every
    sum and product is an integer or a half below 2^53. *)
Definition small (z : Z) : Prop := (Z.abs z < 2 ^ 50)%Z.

(** A node whose coordinates, where it has them, are small. *)
Definition small_node (n : Node) : Prop :=
  ∀ z, n_x n = Some z ∨ n_y n = Some z → small z.

(** A confidence score within [0, 100]. *)
Definition in_bounds (q : Q) : Prop := (0 <= q)%Q ∧ (q <= 100)%Q.

(** A number that is NaN or within [0, 100]. *)
Definition NaN_or_in_bounds (n : Number) : Prop :=
  n = NaN ∨ ∃ q, n = Finite q ∧ in_bounds q.

(** The pair that identifies a connection of the extractor. *)
Definition endpoints (c : Runtime.EConn) : option string * option string :=
  (Runtime.cn_sourceId c, Runtime.cn_targetId c).

End Props.

(* ===================================================================== *)
(** * Concrete inputs *)
(* ===================================================================== *)

Module Examples.
Import JS Dfdir CellValidator Layout.





(** One element and one flow whose source is no element. *)
Definition dangling_flow : DFDFlow :=
  DFDFlow_new
    (mkFlowArgs (Some "f1") (Some "ghost") (Some "e1")
                None None None None None None).

Definition dangling_dfdir : DFDIR :=
  build "2025-01-01T00:00:00.000Z" (Some "Dangling")
    [OpAddElement
       (mkElementArgs (Some "e1") (Some "Web-01") (Some "process")
                      None None None None None None None);
     OpAddFlow
       (mkFlowArgs (Some "f1") (Some "ghost") (Some "e1")
                   None None None None None None)].

(** A node cell and an edge cell whose target names no cell. *)
Definition node_a : Cell :=
  {| c_id := Some "a"; c_shape := Some "process"; c_zIndex := Some (JSNumber (Finite 1));
     c_position := Some (mkPair (Some (JSNumber (Finite 100))) (Some (JSNumber (Finite 100))));
     c_size := Some (mkPair (Some (JSNumber (Finite 160))) (Some (JSNumber (Finite 80))));
     c_source := None; c_target := None;
     c_data := Some (mkCellData "tm.Process" (Some "A") false false "");
     c_stroke := None |}.

Definition edge_to_ghost : Cell :=
  {| c_id := Some "f"; c_shape := Some "flow"; c_zIndex := Some (JSNumber (Finite 10));
     c_position := None; c_size := None;
     c_source := Some (mkTerminal (Some "a") None);
     c_target := Some (mkTerminal (Some "ghost") None);
     c_data := Some (mkCellData "tm.Flow" (Some "TCP") false false "TCP");
     c_stroke := None |}.

(** An edge cell as the converter writes it, with [{ id }] for its ends:
    the target names no cell. *)
Definition edge_by_id : Cell :=
  {| c_id := Some "f"; c_shape := Some "flow"; c_zIndex := Some (JSNumber (Finite 10));
     c_position := None; c_size := None;
     c_source := Some (mkTerminal None (Some "a"));
     c_target := Some (mkTerminal None (Some "ghost"));
     c_data := Some (mkCellData "tm.Flow" (Some "TCP") false false "TCP");
     c_stroke := None |}.

(** An edge cell without an id, alone in its array. *)
Definition anonymous_edge : Cell :=
  {| c_id := None; c_shape := Some "flow"; c_zIndex := Some (JSNumber (Finite 10));
     c_position := None; c_size := None;
     c_source := Some (mkTerminal (Some "ghost") None);
     c_target := Some (mkTerminal (Some "ghost") None);
     c_data := Some (mkCellData "tm.Flow" (Some "TCP") false false "TCP");
     c_stroke := None |}.

(** Three node objects, two of them with the id [b]; the first of the two
    stands at (7, 7). *)
Definition twin_nodes : list Node :=
  [mkNode (Some "a") "A" (Some "actor") None None;
   mkNode (Some "b") "B" (Some "process") (Some 7%Z) (Some 7%Z);
   mkNode (Some "b") "B2" (Some "process") None None].

Definition a_to_b : list Connection := [mkConnection (Some "a") (Some "b")].

(** Three nodes with ids of their own. *)
Definition three_nodes : list Node :=
  [mkNode (Some "a") "A" (Some "actor") None None;
   mkNode (Some "b") "B" (Some "process") (Some 7%Z) (Some 7%Z);
   mkNode (Some "c") "C" (Some "store") None None].

(** Stand-ins for [Math.cos], [Math.sin] and [Math.PI] where their values
    do not matter. *)
Definition flat (q : Q) : Q := 0.
Definition three : Q := 3.

(** ** Inputs of the extractor *)

(** One machine in the inline format. *)
Definition kali_text : string := "Kali-01 (192.168.100.10)".

(** The first run of [extract] on [kali_text] after the module is loaded,
    and a second run on the same text. *)
Definition first_run : Extractor.Extraction * Runtime.St :=
  Extractor.extract kali_text None Extractor.fresh.

Definition second_run : Extractor.Extraction * Runtime.St :=
  Extractor.extract kali_text None (snd first_run).

(** A node and a connection as a vision result reports them:
    [{ name, type: 'process', services: [], metadata: {}, confidence }]
    and [{ sourceId, targetId, protocol: 'TCP', confidence }]. *)
Definition vision_node (name : string) (confidence : Number) : Runtime.ENode :=
  Runtime.mkENode None name None "process" [] ∅ confidence "vision".

Definition vision_connection (sourceId targetId : string) (confidence : Number)
  : Runtime.EConn :=
  Runtime.mkEConn None (Some sourceId) (Some targetId) "TCP" false false ∅
                  confidence "vision".

(** [{ nodes: [{ name: 'cam-01', type: 'process', services: [],
                 metadata: {}, confidence: 200 }],
       connections: [{ sourceId: 'a', targetId: 'b', protocol: 'TCP',
                       confidence: 200 }] }] *)
Definition loud_vision : Extractor.VisionResults :=
  Extractor.mkVisionResults (Some [vision_node "cam-01" (Finite 200)])
                            (Some [vision_connection "a" "b" (Finite 200)]).

(** [{ nodes: [], connections: [{ sourceId: 'x', targetId: 'x',
                                  protocol: 'TCP', confidence: 50 }] }] *)
Definition loop_vision : Extractor.VisionResults :=
  Extractor.mkVisionResults (Some []) (Some [vision_connection "x" "x" (Finite 50)]).

End Examples.

(* ===================================================================== *)
(** * models/dfdir.js: clone and getStatistics *)
(* ===================================================================== *)

Module DfdirStatistics.
Import JS Dfdir.

(** [DFDElement.clone()] and [DFDFlow.clone()]: a new instance built from
    the properties of this one, [services] and [metadata] copied. *)
Definition DFDElement_clone (e : DFDElement) : DFDElement :=
  DFDElement_new
    (mkElementArgs (el_id e) (el_name e) (el_type e) (Some (el_x e)) (Some (el_y e))
                   (Some (el_ipAddress e)) (Some (el_services e))
                   (Some (el_metadata e)) (Some (el_confidence e))
                   (Some (el_source e))).

Definition DFDFlow_clone (f : DFDFlow) : DFDFlow :=
  DFDFlow_new
    (mkFlowArgs (fl_id f) (fl_sourceId f) (fl_targetId f) (Some (fl_protocol f))
                (Some (fl_isEncrypted f)) (Some (fl_isPublicNetwork f))
                (Some (fl_metadata f)) (Some (fl_confidence f))
                (Some (fl_source f))).

(** The number a confidence stands for in [sum + c] and [c < 70] when it
    is a number, [null] or a boolean. For a string, [+] concatenates and
    [<] reads the string as a number: those cases are left out
    ([None]). *)
Definition as_number (v : JSValue) : option Number :=
  match v with
  | JSNumber n => Some n
  | JSNull => Some (Finite 0)
  | JSBool b => Some (Finite (if b then 1 else 0))
  | JSString _ => None
  end.

(** [l.reduce((sum, x) => sum + x.confidence, 0)] *)
Definition sum_confidence (l : list JSValue) : option Number :=
  fold_left (fun sum c =>
               match sum, as_number c with
               | Some s, Some n => Some (Number_add s n)
               | _, _ => None
               end)
            l (Some (Finite 0)).

(** [l.length > 0 ? Math.round(sum / l.length) : 0] *)
Definition average_confidence (l : list JSValue) : option Number :=
  match l with
  | [] => Some (Finite 0)
  | _ =>
      match sum_confidence l with
      | Some sum =>
          Some (Number_round
                  (Number_div sum (Finite (inject_Z (Z.of_nat (length l))))))
      | None => None
      end
  end.

(** [l.filter(x => x.confidence < 70).length] *)
Definition low_confidence (l : list JSValue) : option nat :=
  fold_left (fun count c =>
               match count, as_number c with
               | Some k, Some n =>
                   Some (if Number_ltb n (Finite 70) then S k else k)
               | _, _ => None
               end)
            l (Some 0%nat).

(** [this.elements.filter(el => p(el)).length] *)
Definition count {A} (p : A -> bool) (l : list A) : nat :=
  length (List.filter p l).

Definition has_type (t : string) (el : DFDElement) : bool :=
  bool_decide (el_type el = Some t).

Definition has_source (s : string) (el : DFDElement) : bool :=
  String.eqb (el_source el) s.

(** The object [getStatistics()] returns. [elementsByType] repeats
    [actors], [processes] and [stores] and is left out; a field that the
    arithmetic on a string confidence decides is [None]. *)
Record Statistics : Type := mkStatistics {
  totalElements : nat;
  totalFlows : nat;
  actors : nat;
  processes : nat;
  stores : nat;
  elementsBySource_text : nat;
  elementsBySource_vision : nat;
  elementsBySource_manual : nat;
  averageConfidence_elements : option Number;
  averageConfidence_flows : option Number;
  extractionSources : list string;
  lowConfidenceElements : option nat;
  lowConfidenceFlows : option nat;
  missingIPs : nat
}.

(** [getStatistics()] *)
Definition getStatistics (d : DFDIR) : Statistics :=
  {| totalElements := length (d_elements d);
     totalFlows := length (d_flows d);
     actors := count (has_type "actor") (d_elements d);
     processes := count (has_type "process") (d_elements d);
     stores := count (has_type "store") (d_elements d);
     elementsBySource_text := count (has_source "text") (d_elements d);
     elementsBySource_vision := count (has_source "vision") (d_elements d);
     elementsBySource_manual := count (has_source "manual") (d_elements d);
     averageConfidence_elements :=
       average_confidence (map el_confidence (d_elements d));
     averageConfidence_flows :=
       average_confidence (map fl_confidence (d_flows d));
     extractionSources :=
       fold_left (fun seen s => PatternHelpers.set_add s seen)
                 (map el_source (d_elements d)) [];
     lowConfidenceElements := low_confidence (map el_confidence (d_elements d));
     lowConfidenceFlows := low_confidence (map fl_confidence (d_flows d));
     missingIPs :=
       count (fun el => negb (truthy_str (el_ipAddress el))) (d_elements d) |}.

End DfdirStatistics.

(* ===================================================================== *)
(** * service/validation/cellValidator.js: validateDiagram *)
(* ===================================================================== *)

Module DiagramValidator.
Import JS ValidationResult CellValidator.

(** [validateCells(cells)] for any argument: [None] stands for a value
    that is no array ([undefined], [null], an object). *)
Definition validateCells_of (cells : option (list Cell)) : Result :=
  match cells with
  | None =>
      addError (createResult (Some "cellValidator") None)
        (createError (Some ErrorCodes.INVALID_TYPE) (Some "Cells must be an array")
                     (Some "cells") None (Some "Ensure diagram.cells is an array"))
  | Some cells => validateCells cells
  end.

(** A diagram object as [validateDiagram] reads it. *)
Record DiagramObject : Type := mkDiagramObject {
  do_title : option string;
  do_id : option JSValue;
  do_cells : option (list Cell)
}.

(** [!diagram.id && diagram.id !== 0] *)
Definition id_missing (id : option JSValue) : bool :=
  match id with
  | None => true
  | Some v =>
      negb (truthy v)
      && negb (match v with JSNumber (Finite q) => Qeq_bool q 0 | _ => false end)
  end.

(** [validateDiagram(diagram)]; [None] is a null or undefined argument. *)
Definition validateDiagram (diagram : option DiagramObject) : Result :=
  let result := createResult (Some "diagramValidator") None in
  match diagram with
  | None =>
      addError result
        (createError (Some ErrorCodes.MISSING_REQUIRED)
                     (Some "Diagram is null or undefined") (Some "diagram") None None)
  | Some diagram =>
      let result :=
        if negb (truthy_str (do_title diagram))
        then addWarning result
               (createError (Some ErrorCodes.MISSING_REQUIRED)
                            (Some "Diagram is missing title") (Some "diagram.title")
                            (Some Severity.WARNING) None)
        else result in
      let result :=
        if id_missing (do_id diagram)
        then addWarning result
               (createError (Some ErrorCodes.MISSING_ID)
                            (Some "Diagram is missing id") (Some "diagram.id")
                            (Some Severity.WARNING) None)
        else result in
      merge result (validateCells_of (do_cells diagram))
  end.

(** The diagram of the converter, as [validateDiagram] reads it. *)
Definition of_diagram (d : Converter.Diagram) : DiagramObject :=
  {| do_title := Some (Converter.dg_title d);
     do_id := Some (JSNumber (Finite (inject_Z (Converter.dg_id d))));
     do_cells := Some (Converter.dg_cells d) |}.

End DiagramValidator.

(* ===================================================================== *)
(** * layout/t2tLayout.js: calculateBoundingBox and centerDiagram *)
(* ===================================================================== *)

Module LayoutTools.
Import JS Layout.

(** A number that may be NaN ([None]): the arithmetic on a coordinate
    that is [undefined] gives NaN. *)
Definition lift2 {A B C} (f : A -> B -> C) (a : option A) (b : option B) : option C :=
  match a, b with
  | Some a, Some b => Some (f a b)
  | _, _ => None
  end.

(** [Math.min(...l)] and [Math.max(...l)] for a list that is not empty
    (of the empty list they are the infinities, which [calculateBoundingBox]
    does not reach). *)
Definition Math_min_of (l : list (option Z)) : option Z :=
  match l with
  | [] => None
  | x :: l' => fold_left (lift2 Z.min) l' x
  end.

Definition Math_max_of (l : list (option Z)) : option Z :=
  match l with
  | [] => None
  | x :: l' => fold_left (lift2 Z.max) l' x
  end.

Record BoundingBox : Type := mkBoundingBox {
  minX : option Z;
  minY : option Z;
  maxX : option Z;
  maxY : option Z;
  width : option Z;
  height : option Z
}.

(** [calculateBoundingBox(nodes)] *)
Definition calculateBoundingBox (nodes : list Node) : BoundingBox :=
  match nodes with
  | [] =>
      mkBoundingBox (Some 0%Z) (Some 0%Z) (Some 0%Z) (Some 0%Z) (Some 0%Z) (Some 0%Z)
  | _ =>
      let minX := Math_min_of (map n_x nodes) in
      let minY := Math_min_of (map n_y nodes) in
      let maxX := Math_max_of (map n_x nodes) in
      let maxY := Math_max_of (map n_y nodes) in
      mkBoundingBox minX minY maxX maxY
                    (lift2 Z.sub maxX minX) (lift2 Z.sub maxY minY)
  end.

Section CenterDiagram.
Variable gridSnap : Z.

(** [snapToGrid(a + b)] for operands that may be NaN. *)
Definition snap_sum (a : option Z) (b : option Q) : option Z :=
  match a, b with
  | Some a, Some b => snapToGrid gridSnap (inject_Z a + b)
  | _, _ => None
  end.

(** The body of the [forEach] of [centerDiagram]. *)
Definition center_node (offsetX offsetY : option Q) (node : Node) : Node :=
  set_position (snap_sum (n_x node) offsetX) (snap_sum (n_y node) offsetY) node.

(** [centerDiagram(nodes)]. With an [x] that is no number the offset of
    the [x] is NaN, and so is every [x] written; likewise for the [y]. *)
Definition centerDiagram (nodes : list Node) : list Node :=
  let bbox := calculateBoundingBox nodes in
  let offset (extent : Q) (size low : option Z) : option Q :=
    lift2 (fun s l => ((extent - inject_Z s) / 2 - inject_Z l)%Q) size low in
  map (center_node (offset canvasWidth (width bbox) (minX bbox))
                   (offset canvasHeight (height bbox) (minY bbox)))
      nodes.

End CenterDiagram.

End LayoutTools.

(* ===================================================================== *)
(** * Sample inputs *)
(* ===================================================================== *)

Module Samples.
Import JS Dfdir CellValidator Layout.

(** An attacker machine, a web server and a flow from the one to the
    other, built through the interface of DFDIR. *)
Definition kali : DFDElement :=
  DFDElement_new
    (mkElementArgs (Some "e1") (Some "Kali-01") (Some "actor")
                   (Some (JSNumber (Finite 100))) (Some (JSNumber (Finite 100)))
                   (Some (Some "192.168.100.10")) None None
                   (Some (JSNumber (Finite 90))) (Some "text")).

Definition web : DFDElement :=
  DFDElement_new
    (mkElementArgs (Some "e2") (Some "Web-01") (Some "process")
                   (Some (JSNumber (Finite 400))) (Some (JSNumber (Finite 500)))
                   None None None (Some (JSNumber (Finite 70))) (Some "text")).

Definition kali_to_web : DFDFlow :=
  DFDFlow_new
    (mkFlowArgs (Some "f1") (Some "e1") (Some "e2") (Some "SSH")
                None None None (Some (JSNumber (Finite 85))) (Some "text")).

Definition sample_ops : list Op :=
  [OpAddElement (DFDElement_toJSON kali); OpAddElement (DFDElement_toJSON web);
   OpAddFlow (DFDFlow_toJSON kali_to_web)].

Definition sample_dfdir : DFDIR := build "2025-01-01T00:00:00.000Z" (Some "Sample") sample_ops.

(** The DFDIR with the attacker machine only. *)
Definition kali_only : DFDIR :=
  build "2025-01-01T00:00:00.000Z" (Some "Sample")
        [OpAddElement (DFDElement_toJSON kali)].

(** The DFDIR with both machines and no flow. *)
Definition kali_and_web : DFDIR :=
  build "2025-01-01T00:00:00.000Z" (Some "Sample")
        [OpAddElement (DFDElement_toJSON kali); OpAddElement (DFDElement_toJSON web)].

(** Two nodes that stand on the grid of 100. *)
Definition placed_nodes : list Node :=
  [mkNode (Some "a") "A" (Some "actor") (Some 100%Z) (Some 100%Z);
   mkNode (Some "b") "B" (Some "process") (Some 400%Z) (Some 500%Z)].

(** The three nodes of [Examples.three_nodes] where the tiered layout
    puts them on the grid of 100. *)
Definition three_tiered : list Node :=
  [mkNode (Some "a") "A" (Some "actor") (Some 1000%Z) (Some 100%Z);
   mkNode (Some "b") "B" (Some "process") (Some 1000%Z) (Some 500%Z);
   mkNode (Some "c") "C" (Some "store") (Some 1000%Z) (Some 900%Z)].

End Samples.

(* ===================================================================== *)
(** * Properties of the data model *)
(* ===================================================================== *)

Module JSFacts.
Import JS Props.

Lemma append_cons c (s t : string) : String c s +:+ t = String c (s +:+ t).
Proof. reflexivity. Qed.

Lemma append_nil_r (s : string) : s +:+ "" = s.
Proof. induction s as [|c s IH]; [reflexivity | by rewrite append_cons, IH]. Qed.

Lemma append_assoc (a b c : string) : (a +:+ b) +:+ c = a +:+ b +:+ c.
Proof. induction a as [|x a IH]; [reflexivity | by rewrite !append_cons, IH]. Qed.

Lemma occurs_in_refl s : occurs_in s s.
Proof. exists "", "". by rewrite append_nil_r. Qed.

Lemma occurs_in_app_l sub s t : occurs_in sub s → occurs_in sub (s +:+ t).
Proof.
  intros (pre & post & ->). exists pre, (post +:+ t).
  by rewrite !append_assoc.
Qed.

Lemma occurs_in_app_r sub s t : occurs_in sub s → occurs_in sub (t +:+ s).
Proof.
  intros (pre & post & ->). exists (t +:+ pre), post.
  by rewrite !append_assoc.
Qed.

Lemma occurs_in_join sep x l : x ∈ l → occurs_in x (join sep l).
Proof.
  induction l as [|y l IH]; [by intros ?%elem_of_nil |].
  intros [->|Hin]%elem_of_cons.
  - destruct l as [|z l]; simpl; [apply occurs_in_refl |].
    apply occurs_in_app_l, occurs_in_refl.
  - destruct l as [|z l]; [by apply elem_of_nil in Hin |].
    change (join sep (y :: z :: l)) with (y +:+ sep +:+ join sep (z :: l)).
    by apply occurs_in_app_r, occurs_in_app_r, IH.
Qed.

Lemma Qltb_lt x y : Qltb x y = true ↔ (x < y)%Q.
Proof.
  unfold Qltb. rewrite negb_true_iff.
  destruct (Qle_bool y x) eqn:E.
  - apply Qle_bool_iff in E. split; [done |]. intros H. by apply Qlt_not_le in H.
  - split; [intros _ | done]. apply Qnot_le_lt. intros H.
    apply Qle_bool_iff in H. congruence.
Qed.

Lemma Qltb_ge x y : Qltb x y = false ↔ (y <= x)%Q.
Proof.
  unfold Qltb. rewrite negb_false_iff. apply Qle_bool_iff.
Qed.

Lemma truthy_str_Some s : truthy_str s = true ↔ ∃ v, s = Some v ∧ v ≠ "".
Proof.
  destruct s as [v|]; simpl.
  - rewrite negb_true_iff, String.eqb_neq. naive_solver.
  - naive_solver.
Qed.

Lemma arr_includes_elem_of l x : arr_includes l x = true ↔ x ∈ l.
Proof.
  unfold arr_includes. rewrite existsb_exists. setoid_rewrite String.eqb_eq.
  setoid_rewrite <- list_elem_of_In. naive_solver.
Qed.

(** [concat (imap f l)] is empty exactly when [f] adds nothing anywhere. *)
Lemma concat_imap_nil {A B} (f : nat → A → list B) (l : list A) :
  concat (imap f l) = [] ↔ ∀ i x, l !! i = Some x → f i x = [].
Proof.
  revert f. induction l as [|a l IH]; intros f; simpl.
  - split; [by intros _ i x ? | done].
  - rewrite app_nil, IH. split.
    + intros [H0 HS] [|i] x Hx; simpl in Hx; [by simplify_eq | by apply HS].
    + intros H. split; [by apply (H 0%nat) | intros i x Hx; by apply (H (S i))].
Qed.

End JSFacts.

Module DfdirFacts.
Import JS JSFacts Props Dfdir ValidationResult ValidationService Converter.

Lemma confidence_in_range c :
  confidence_out_of_range c = false ↔ confidence_ok c.
Proof.
  unfold confidence_ok.
  destruct c as [|b|[q| |negative]|s]; simpl;
    try (split; [done | by intros [? | (? & ? & _)]]).
  - rewrite orb_false_iff, !Qltb_ge. split.
    + intros [? ?]. right. by exists q.
    + intros [? | (q' & [= <-] & ? & ?)]; done.
  - split; [by left | done].
  - destruct negative; simpl; (split; [done | by intros [? | (? & ? & _)]]).
Qed.

Lemma trim_nonempty_from_nonblank name : trim name ≠ "" → name ≠ "".
Proof. intros H ->. by apply H. Qed.

Lemma if_nil_iff {A} (b : bool) (l : list A) :
  l ≠ [] → (if b then l else []) = [] ↔ b = false.
Proof. destruct b; naive_solver. Qed.


Lemma is_number_true v : is_number v = true ↔ ∃ n, v = JSNumber n.
Proof. destruct v; simpl; naive_solver. Qed.

Lemma DFDElement_validate_nil e : DFDElement_validate e = [] ↔ element_ok e.
Proof.
  unfold DFDElement_validate, element_ok.
  rewrite !app_nil, !if_nil_iff by done.
  rewrite negb_false_iff, orb_false_iff, !negb_false_iff, String.eqb_neq.
  rewrite orb_false_iff, !negb_false_iff, confidence_in_range.
  rewrite !truthy_str_Some, !is_number_true.
  assert (((∃ v, el_name e = Some v ∧ v ≠ "") ∧ trim (show_str (el_name e)) ≠ "")
          ↔ ∃ name, el_name e = Some name ∧ trim name ≠ "") as ->.
  { destruct (el_name e) as [n|]; simpl.
    - split.
      + intros [_ H]. by exists n.
      + intros (n' & [= <-] & H). split; [|done].
        exists n. split; [done |]. by apply trim_nonempty_from_nonblank.
    - split; [by intros [(? & ? & _) _] | by intros (? & ? & _)]. }
  assert (match el_type e with
          | Some t => arr_includes element_types t
          | None => false
          end = true ↔ ∃ t, el_type e = Some t ∧ t ∈ element_types) as ->.
  { destruct (el_type e) as [t|].
    - rewrite arr_includes_elem_of. naive_solver.
    - naive_solver. }
  naive_solver.
Qed.

Lemma DFDFlow_validate_nil f : DFDFlow_validate f = [] ↔ flow_ok f.
Proof.
  unfold DFDFlow_validate, flow_ok.
  rewrite !app_nil, !if_nil_iff by done.
  rewrite !negb_false_iff, confidence_in_range, !truthy_str_Some.
  unfold str_opt_eqb. rewrite bool_decide_eq_false.
  naive_solver.
Qed.

Lemma getElementById_Some d id :
  is_Some (getElementById d id) ↔ resolves d id.
Proof.
  unfold getElementById, resolves, str_opt_eqb. split.
  - intros [e He]. apply find_some in He as [Hin Heq].
    apply bool_decide_eq_true in Heq. exists e. by rewrite list_elem_of_In.
  - intros (e & Hin & Heq).
    destruct (List.find _ _) eqn:E; [done |].
    apply list_elem_of_In in Hin. apply (find_none _ _ E e) in Hin.
    apply bool_decide_eq_false in Hin. done.
Qed.

Lemma getElementById_None d id :
  getElementById d id = None ↔ ¬ resolves d id.
Proof.
  rewrite <- getElementById_Some, <- eq_None_not_Some. done.
Qed.

Lemma element_report_nil i e : element_report i e = [] ↔ element_ok e.
Proof.
  unfold element_report. rewrite <- DFDElement_validate_nil.
  by destruct (DFDElement_validate e).
Qed.

Lemma flow_report_nil d i f :
  flow_report d i f = []
  ↔ flow_ok f ∧ resolves d (fl_sourceId f) ∧ resolves d (fl_targetId f).
Proof.
  unfold flow_report. rewrite !app_nil, <- DFDFlow_validate_nil.
  rewrite <- !getElementById_Some.
  destruct (DFDFlow_validate f), (getElementById d (fl_sourceId f)),
    (getElementById d (fl_targetId f)); split; intros H; destruct_and?;
    repeat split; eauto; try done; try by match goal with H : is_Some None |- _ => destruct H as [? ?] end.
Qed.

Lemma validate_valid_iff d :
  v_valid (validate d) = true ↔ validate_errors d = [].
Proof.
  unfold validate; simpl. rewrite Nat.eqb_eq. by destruct (validate_errors d).
Qed.

Lemma fold_addError_errors (g : string → Issue) (l : list string) (r : Result) :
  errors (fold_left (λ result msg, addError result (g msg)) l r)
  = errors r ++ map g l.
Proof.
  revert r. induction l as [|x l IH]; intros r; simpl.
  - by rewrite app_nil_r.
  - rewrite IH. simpl. by rewrite <- app_assoc.
Qed.

Lemma fromStringErrors_messages l src :
  map message (errors (fromStringErrors l src)) = l.
Proof.
  unfold fromStringErrors. rewrite fold_addError_errors. simpl.
  rewrite map_map. simpl. apply map_id.
Qed.

Lemma fromStringErrors_length l src :
  length (errors (fromStringErrors l src)) = length l.
Proof. by rewrite <- (length_map message), fromStringErrors_messages. Qed.

(** What [validateDFDIR] reports for an instance: the messages of
    [validate], and its verdict. *)
Lemma validateDFDIR_instance d :
  valid (validateDFDIR (Some d)) = v_valid (validate d)
  ∧ map message (errors (validateDFDIR (Some d))) = v_errors (validate d).
Proof.
  unfold validateDFDIR.
  destruct (v_valid (validate d)) eqn:Hv; simpl.
  - split; [reflexivity |]. apply validate_valid_iff in Hv.
    by rewrite Hv.
  - rewrite fromStringErrors_length, fromStringErrors_messages.
    split; [| done].
    unfold validate in Hv. simpl in Hv.
    by destruct (validate_errors d).
Qed.

Lemma convert_invalid d options :
  v_valid (validate d) = false →
  convert d options
  = Throw ("DFDIR validation failed: " +:+ join ", " (v_errors (validate d))).
Proof.
  intros Hv. unfold convert.
  destruct (validateDFDIR_instance d) as [-> ->]. by rewrite Hv.
Qed.

Lemma dangling_source_reported d i f :
  d_flows d !! i = Some f → ¬ resolves d (fl_sourceId f) →
  ("Flow " +:+ pretty i +:+ ": Source element "
   +:+ show_str (fl_sourceId f) +:+ " not found") ∈ v_errors (validate d).
Proof.
  intros Hi Hno. apply getElementById_None in Hno.
  unfold validate, validate_errors. simpl.
  apply elem_of_app. right. apply elem_of_app. left.
  apply list_elem_of_In, in_concat. exists (flow_report d i f). split.
  - by apply list_elem_of_In, elem_of_lookup_imap_2.
  - apply list_elem_of_In. unfold flow_report. rewrite Hno.
    apply elem_of_app. right. apply elem_of_app. left. by apply list_elem_of_singleton.
Qed.


(** ** Round trip through [toJSON] and [fromJSON] *)



Lemma find_id_None {A} (key : A → option string) (l : list A) id :
  List.find (λ x, str_opt_eqb (key x) id) l = None ↔ id ∉ map key l.
Proof.
  induction l as [|x l IH]; simpl.
  - split; [intros _ H; by apply elem_of_nil in H | done].
  - unfold str_opt_eqb at 1. case_bool_decide as Hx.
    + split; [done |]. intros H. exfalso. apply H. rewrite Hx. by left.
    + rewrite IH, not_elem_of_cons. naive_solver.
Qed.



Lemma NoDup_snoc_fresh {A} (l : list A) x :
  NoDup (l ++ [x]) ↔ (x ∉ l) ∧ NoDup l.
Proof.
  rewrite NoDup_app. split.
  - intros (Hl & Hx & _). split; [| done]. intros Hin.
    apply (Hx x Hin). by apply list_elem_of_singleton.
  - intros [Hx Hl]. split; [done |]. split; [| apply NoDup_singleton].
    intros y Hy ->%list_elem_of_singleton. done.
Qed.




Lemma NoDup_map_delete {A B} (f : A → B) (l : list A) i :
  NoDup (map f l) → NoDup (map f (delete i l)).
Proof.
  intros H. apply (sublist_NoDup _ (map f l)); [exact H |].
  apply (fmap_sublist f), sublist_delete.
Qed.

Lemma NoDup_map_filter {A B} (f : A → B) (p : A → bool) (l : list A) :
  NoDup (map f l) → NoDup (map f (List.filter p l)).
Proof.
  intros H. apply (sublist_NoDup _ (map f l)); [exact H |].
  apply (fmap_sublist f). clear H.
  induction l as [|x l IH]; simpl; [done |].
  destruct (p x); [by apply sublist_skip | by apply sublist_cons].
Qed.

Lemma step_unique_ids d o : unique_ids d → unique_ids (step d o).
Proof.
  intros [He Hf]. destruct o as [a|a|id|id]; simpl.
  - unfold addElement, getElementById.
    destruct (List.find _ _) eqn:E; [done |].
    apply find_id_None in E. split; simpl; [| done].
    rewrite map_app. simpl. by apply NoDup_snoc_fresh.
  - unfold addFlow, getFlowById.
    destruct (List.find _ _) eqn:E; [done |].
    apply find_id_None in E. split; simpl; [done |].
    rewrite map_app. simpl. by apply NoDup_snoc_fresh.
  - unfold removeElement. destruct (findIndex _ _); simpl; [| done].
    split; simpl; [by apply NoDup_map_delete | by apply NoDup_map_filter].
  - unfold removeFlow. destruct (findIndex _ _); simpl; [| done].
    split; simpl; [done | by apply NoDup_map_delete].
Qed.

Lemma build_unique_ids now name ops : unique_ids (build now name ops).
Proof.
  unfold build.
  assert (unique_ids (DFDIR_new now name)) as H0 by (split; constructor).
  revert H0. generalize (DFDIR_new now name).
  induction ops as [|o ops IH]; intros d Hd; simpl; [done |].
  by apply IH, step_unique_ids.
Qed.


End DfdirFacts.

Module CellFacts.
Import JS JSFacts Props ValidationResult CellValidator.


(** ** Results: [valid] says that there is no error *)

Lemma consistent_createResult src : consistent (createResult src None).
Proof. done. Qed.

Lemma consistent_addError r e : consistent (addError r e).
Proof.
  unfold consistent, addError; simpl. split; [done |].
  by destruct (errors r).
Qed.

Lemma consistent_addWarning r w : consistent r → consistent (addWarning r w).
Proof. done. Qed.

Lemma consistent_merge r other : consistent r → consistent (merge r other).
Proof.
  unfold consistent, merge; simpl. intros H.
  destruct (errors other) as [|e l]; simpl.
  - by rewrite app_nil_r.
  - split; [done |]. intros [_ ?]%app_nil. done.
Qed.

(** ** Edges: what a terminal adds *)

Lemma validateTerminal_errors which errcode t index m r :
  errors (validateTerminal which errcode t index m r)
  = errors (validateTerminal which errcode t index ∅ r).
Proof.
  unfold validateTerminal. destruct t as [t|]; [| done].
  destruct (t_cell t) as [ref|]; [| done].
  by repeat case_match.
Qed.

Lemma validateTerminal_errors_app which errcode t index m :
  ∃ new, ∀ r, errors (validateTerminal which errcode t index m r) = errors r ++ new.
Proof.
  unfold validateTerminal. destruct t as [t|].
  - exists []. intros r'. rewrite app_nil_r. by repeat case_match.
  - eexists. intros r'. reflexivity.
Qed.

Lemma validateTerminal_warnings_mono which errcode t index m r w :
  w ∈ warnings r → w ∈ warnings (validateTerminal which errcode t index m r).
Proof.
  intros Hw. unfold validateTerminal.
  repeat case_match; simpl; try done; apply elem_of_app; by left.
Qed.

Lemma validateTerminal_consistent which errcode t index m r :
  consistent r → consistent (validateTerminal which errcode t index m r).
Proof.
  intros H. unfold validateTerminal.
  repeat case_match; auto using consistent_addError, consistent_addWarning.
Qed.

Lemma validateTerminal_orphan which errcode t index m r ref :
  t_cell t = Some ref → ref ≠ "" → m ≠ ∅ → m !! ref = None →
  orphan_warning index which ref
  ∈ warnings (validateTerminal which errcode (Some t) index m r).
Proof.
  intros Ht Hne Hm Hnone. unfold validateTerminal. rewrite Ht.
  assert (String.eqb ref "" = false) as -> by by apply String.eqb_neq.
  assert ((0 <? size m)%nat = true) as ->.
  { apply Nat.ltb_lt. destruct (size m) eqn:E; [| lia].
    by apply map_size_empty_iff in E. }
  rewrite Hnone. simpl.
  apply elem_of_app. right. by apply list_elem_of_singleton.
Qed.

Lemma validateTerminal_errors_shape which errcode t index :
  ∃ new, ∀ m r, errors (validateTerminal which errcode t index m r) = errors r ++ new.
Proof.
  unfold validateTerminal. destruct t as [t|].
  - exists []. intros m r. rewrite app_nil_r. by repeat case_match.
  - eexists. intros m r. reflexivity.
Qed.

(** ** One cell *)

(** The errors of a cell do not depend on the cells it is validated among. *)
Lemma validateCell_errors_indep cell index m m' :
  errors (validateCell cell index m) = errors (validateCell cell index m').
Proof.
  unfold validateCell.
  destruct (isEdgeCell cell); [| done].
  unfold validateEdgeCell.
  destruct (validateTerminal_errors_shape "source" ErrorCodes.INVALID_SOURCE
              (c_source cell) index) as [ns Hs].
  destruct (validateTerminal_errors_shape "target" ErrorCodes.INVALID_TARGET
              (c_target cell) index) as [nt Ht].
  by rewrite !Ht, !Hs.
Qed.

Lemma validateNodeCell_consistent cell index r :
  consistent r → consistent (validateNodeCell cell index r).
Proof.
  intros H. unfold validateNodeCell.
  repeat case_match; auto using consistent_addError, consistent_addWarning.
Qed.

Lemma validateCell_consistent cell index m : consistent (validateCell cell index m).
Proof.
  unfold validateCell, validateEdgeCell.
  repeat case_match;
    repeat first [ apply validateTerminal_consistent
                 | apply validateNodeCell_consistent
                 | apply consistent_addError
                 | apply consistent_addWarning
                 | apply consistent_createResult ].
Qed.

Lemma isEdgeCell_source cell t : c_source cell = Some t → isEdgeCell cell = true.
Proof.
  intros H. unfold isEdgeCell. rewrite H.
  rewrite (bool_decide_eq_true_2 (is_Some (Some t))) by done.
  by rewrite orb_true_r.
Qed.

Lemma isEdgeCell_target cell t : c_target cell = Some t → isEdgeCell cell = true.
Proof.
  intros H. unfold isEdgeCell. rewrite H.
  rewrite (bool_decide_eq_true_2 (is_Some (Some t))) by done.
  by rewrite orb_true_r.
Qed.

Lemma validateCell_orphan_source cell index m t ref :
  c_source cell = Some t → t_cell t = Some ref → ref ≠ "" →
  m ≠ ∅ → m !! ref = None →
  orphan_warning index "source" ref ∈ warnings (validateCell cell index m).
Proof.
  intros Hs Ht Hne Hm Hnone. unfold validateCell.
  rewrite (isEdgeCell_source _ _ Hs). unfold validateEdgeCell.
  apply validateTerminal_warnings_mono. rewrite Hs.
  by apply validateTerminal_orphan.
Qed.

Lemma validateCell_orphan_target cell index m t ref :
  c_target cell = Some t → t_cell t = Some ref → ref ≠ "" →
  m ≠ ∅ → m !! ref = None →
  orphan_warning index "target" ref ∈ warnings (validateCell cell index m).
Proof.
  intros Hs Ht Hne Hm Hnone. unfold validateCell.
  rewrite (isEdgeCell_target _ _ Hs). unfold validateEdgeCell.
  rewrite Hs. by apply validateTerminal_orphan.
Qed.

Lemma no_orphan_addError r c m p s g :
  c ≠ ErrorCodes.ORPHAN_FLOW → no_orphan_error r →
  no_orphan_error (addError r (createError (Some c) m p s g)).
Proof.
  intros Hc H. unfold no_orphan_error. simpl.
  apply Forall_app. split; [done |]. by repeat constructor.
Qed.

Lemma no_orphan_addWarning r w : no_orphan_error r → no_orphan_error (addWarning r w).
Proof. done. Qed.

(** No error carries the orphan code: a dangling reference is never an
    error. *)
Lemma validateTerminal_no_orphan_error which errcode t index m r :
  errcode ≠ ErrorCodes.ORPHAN_FLOW →
  no_orphan_error r →
  no_orphan_error (validateTerminal which errcode t index m r).
Proof.
  intros Hc H. unfold validateTerminal.
  repeat case_match; try done.
  by apply no_orphan_addError.
Qed.

Lemma validateNodeCell_no_orphan_error cell index r :
  no_orphan_error r → no_orphan_error (validateNodeCell cell index r).
Proof.
  intros H. unfold validateNodeCell.
  repeat match goal with
         | |- no_orphan_error (if ?b then _ else _) => destruct b
         | |- no_orphan_error (addError _ _) => apply no_orphan_addError; [done |]
         | |- no_orphan_error (addWarning _ _) => apply no_orphan_addWarning
         end; done.
Qed.

Lemma validateCell_no_orphan_error cell index m :
  no_orphan_error (validateCell cell index m).
Proof.
  unfold validateCell, validateEdgeCell.
  repeat match goal with
         | |- no_orphan_error (if ?b then _ else _) => destruct b
         | |- no_orphan_error (validateTerminal _ _ _ _ _ _) =>
             apply validateTerminal_no_orphan_error; [done |]
         | |- no_orphan_error (validateNodeCell _ _ _) =>
             apply validateNodeCell_no_orphan_error
         | |- no_orphan_error (addError _ _) => apply no_orphan_addError; [done |]
         | |- no_orphan_error (addWarning _ _) => apply no_orphan_addWarning
         end; by apply Forall_nil.
Qed.

(** ** All cells *)

Lemma validate_each_errors cells index m r :
  errors (validate_each cells index m r)
  = errors r ++ concat (imap (λ j cell, errors (validateCell cell (index + j) m)) cells).
Proof.
  revert index r. induction cells as [|cell cells IH]; intros index r; simpl.
  - by rewrite app_nil_r.
  - rewrite IH. simpl. rewrite Nat.add_0_r, <- app_assoc. do 2 f_equal.
    f_equal. apply imap_ext. intros j c _. simpl. by rewrite Nat.add_succ_r.
Qed.

Lemma validate_each_warnings cells index m r :
  warnings (validate_each cells index m r)
  = warnings r ++ concat (imap (λ j cell, warnings (validateCell cell (index + j) m)) cells).
Proof.
  revert index r. induction cells as [|cell cells IH]; intros index r; simpl.
  - by rewrite app_nil_r.
  - rewrite IH. simpl. rewrite Nat.add_0_r, <- app_assoc. do 2 f_equal.
    f_equal. apply imap_ext. intros j c _. simpl. by rewrite Nat.add_succ_r.
Qed.

Lemma validate_each_consistent cells index m r :
  consistent r → consistent (validate_each cells index m r).
Proof.
  revert index r. induction cells as [|cell cells IH]; intros index r H; simpl.
  - done.
  - by apply IH, consistent_merge.
Qed.

Lemma validateCells_consistent cells : consistent (validateCells cells).
Proof.
  unfold validateCells. destruct cells; [done |].
  by apply validate_each_consistent.
Qed.

Lemma fold_cellMap_lookup_None cells ref m0 :
  m0 !! ref = None →
  (∀ cell, cell ∈ cells → c_id cell ≠ Some ref) →
  fold_left cellMap_step cells m0 !! ref = None.
Proof.
  revert m0. induction cells as [|c cells IH]; intros m0 H0 H; simpl; [done |].
  apply IH.
  - unfold cellMap_step. destruct (c_id c) as [id|] eqn:E; [| done].
    destruct (String.eqb id ""); [done |].
    rewrite lookup_insert_ne; [done |]. intros ->.
    apply (H c); [by left | done].
  - intros c' Hc'. apply H. by right.
Qed.

Lemma fold_cellMap_nonempty cells m0 :
  m0 ≠ ∅ ∨ (∃ cell, cell ∈ cells ∧ truthy_str (c_id cell) = true) →
  fold_left cellMap_step cells m0 ≠ ∅.
Proof.
  revert m0. induction cells as [|c cells IH]; intros m0 H; simpl.
  - destruct H as [H | (c & Hc & _)]; [done | by apply elem_of_nil in Hc].
  - apply IH. destruct H as [H | (c' & Hc' & Ht)].
    + left. unfold cellMap_step. repeat case_match; try done.
      apply insert_non_empty.
    + apply elem_of_cons in Hc' as [-> | Hc']; [| right; by exists c'].
      left. unfold cellMap_step.
      apply truthy_str_Some in Ht as (id & -> & Hne).
      apply String.eqb_neq in Hne as ->. apply insert_non_empty.
Qed.

Lemma build_cellMap_lookup_None cells ref :
  (∀ cell, cell ∈ cells → c_id cell ≠ Some ref) →
  build_cellMap cells !! ref = None.
Proof. intros H. by apply fold_cellMap_lookup_None. Qed.

Lemma build_cellMap_nonempty cells :
  (∃ cell, cell ∈ cells ∧ truthy_str (c_id cell) = true) →
  build_cellMap cells ≠ ∅.
Proof. intros H. apply fold_cellMap_nonempty. by right. Qed.

Lemma validateCells_nonempty cells :
  cells ≠ [] →
  validateCells cells
  = validate_each cells 0 (build_cellMap cells)
      (createResult (Some "cellValidator") None).
Proof. by destruct cells. Qed.


End CellFacts.

Module LayoutFacts.
Import JS JSFacts Props Layout.


Section LayoutFacts.
Variable gridSnap : Z.
Variable Math_cos Math_sin : Q → Q.
Variable Math_PI : Q.
Hypothesis gridSnap_nonzero : gridSnap ≠ 0%Z.

Local Abbreviation snapped := (Props.snapped gridSnap).

(** With a grid unit other than 0, [snapToGrid] returns a number: this
    multiple of the unit. *)
Definition multiple_near (value : Q) : Z :=
  (Math_round (value / inject_Z gridSnap) * gridSnap)%Z.

Lemma snapToGrid_Some v : snapToGrid gridSnap v = Some (multiple_near v).
Proof.
  unfold snapToGrid. destruct (Z.eqb_spec gridSnap 0); [done | done].
Qed.

Lemma set_position_snapped u v n :
  snapped (set_position (snapToGrid gridSnap u) (snapToGrid gridSnap v) n).
Proof.
  rewrite !snapToGrid_Some.
  eexists _, _. repeat split; by apply Z.rem_mul.
Qed.

(** What a store looks like after some nodes were positioned: the same
    length, and each node either snapped or untouched. [touched] says
    which references may have been written. *)
Definition positioned (touched : nat → Prop) (before after : Store) : Prop :=
  length after = length before
  ∧ ∀ j n', after !! j = Some n' →
      (snapped n' ∧ (touched j ∨ ∃ n, before !! j = Some n ∧ snapped n))
      ∨ (¬ touched j ∧ before !! j = Some n').

Lemma positioned_refl (touched : nat → Prop) store :
  (∀ j, ¬ touched j) → positioned touched store store.
Proof. intros H. split; [done |]. intros j n Hj. right. split; [apply H | done]. Qed.

Lemma positioned_alter u v i store :
  positioned (λ j, j = i) store
    (alter (set_position (snapToGrid gridSnap u) (snapToGrid gridSnap v)) i store).
Proof.
  split; [by rewrite length_alter |].
  intros j n' Hj. destruct (decide (j = i)) as [-> | Hne].
  - rewrite list_lookup_alter_eq in Hj.
    destruct (store !! i) as [n|]; simpl in Hj; [| done]. simplify_eq.
    left. split; [apply set_position_snapped | by left].
  - rewrite list_lookup_alter_ne in Hj by done. right. done.
Qed.

Lemma positioned_trans (t1 t2 t : nat → Prop) s0 s1 s2 :
  (∀ j, t1 j → t j) → (∀ j, t2 j → t j) → (∀ j, t j → t1 j ∨ t2 j) →
  positioned t1 s0 s1 → positioned t2 s1 s2 → positioned t s0 s2.
Proof.
  intros H1 H2 H [L1 P1] [L2 P2]. split; [congruence |].
  intros j n' Hj. destruct (P2 j n' Hj) as [[Hs [Ht | (n & Hn & Hsn)]] | [Hnt Hn]].
  - left. split; [done |]. left. by apply H2.
  - left. split; [done |].
    destruct (P1 j n Hn) as [[_ [Ht | Hb]] | [_ Hb]].
    + left. by apply H1.
    + by right.
    + right. by exists n.
  - destruct (P1 j n' Hn) as [[Hs [Ht | Hb]] | [Hnt1 Hb]].
    + left. split; [done |]. left. by apply H1.
    + left. split; [done |]. by right.
    + right. split; [| done]. intros Ht. destruct (H j Ht); done.
Qed.

Lemma position_each_positioned tier x y sp store :
  positioned (λ j, j ∈ tier) store (position_each gridSnap tier x y sp store).
Proof.
  revert x store. induction tier as [|i tier IH]; intros x store; simpl.
  - apply positioned_refl. intros j Hj. by apply elem_of_nil in Hj.
  - eapply positioned_trans; [ | | | apply positioned_alter | apply IH].
    + intros j ->. by left.
    + intros j Hj. by right.
    + intros j [-> | Hj]%elem_of_cons; [by left | by right].
Qed.

Lemma positionTier_positioned tier startX y sp store :
  positioned (λ j, j ∈ tier) store (positionTier gridSnap tier startX y sp store).
Proof.
  unfold positionTier. destruct tier as [|i tier].
  - apply positioned_refl. intros j Hj. by apply elem_of_nil in Hj.
  - apply position_each_positioned.
Qed.

Lemma position_levels_positioned levels y store :
  positioned (λ j, ∃ level, level ∈ levels ∧ j ∈ level) store
             (position_levels gridSnap levels y store).
Proof.
  revert y store. induction levels as [|level levels IH]; intros y store; simpl.
  - apply positioned_refl. intros j (l & Hl & _). by apply elem_of_nil in Hl.
  - eapply positioned_trans; [ | | | apply positionTier_positioned | apply IH].
    + intros j Hj. exists level. split; [by left | done].
    + intros j (l & Hl & Hj). exists l. split; [by right | done].
    + intros j (l & [-> | Hl]%elem_of_cons & Hj); [by left |].
      right. by exists l.
Qed.

(** When every reference was touched, every node is snapped. *)
Lemma positioned_all touched before after :
  positioned touched before after →
  (∀ j, j < length before → touched j) →
  Forall snapped after.
Proof.
  intros [L P] Hall. apply Forall_lookup. intros j n' Hj.
  destruct (P j n' Hj) as [[Hs _] | [Hnt _]]; [done |].
  exfalso. apply Hnt, Hall. rewrite <- L. by eapply lookup_lt_Some.
Qed.

Lemma elem_of_refs_where p (store : Store) j :
  j ∈ refs_where p store ↔ ∃ n, store !! j = Some n ∧ p n = true.
Proof.
  unfold refs_where, refs.
  rewrite list_elem_of_In, filter_In, <- list_elem_of_In, elem_of_seq.
  split.
  - intros [_ H]. destruct (store !! j) as [n|]; [by exists n | done].
  - intros (n & Hn & Hp). rewrite Hn. split; [| done].
    apply lookup_lt_Some in Hn. lia.
Qed.

Lemma tier_total t :
  is_tier TActor (tier_of t) = true ∨ is_tier TProcess (tier_of t) = true
  ∨ is_tier TStore (tier_of t) = true.
Proof. destruct (tier_of t); naive_solver. Qed.

Lemma calculateTieredLayout_snaps nodes ns :
  calculateTieredLayout gridSnap nodes = Normal ns →
  length ns = length nodes ∧ Forall snapped ns.
Proof.
  unfold calculateTieredLayout. case_match; [done |]. intros [= <-].
  set (tier t := refs_where (λ n, is_tier t (tier_of (n_type n))) nodes).
  assert (positioned (λ j, j ∈ tier TActor ∨ j ∈ tier TProcess ∨ j ∈ tier TStore)
            nodes
            (positionTier gridSnap (tier TStore) 100 (100 + 400 + 400) 300
               (positionTier gridSnap (tier TProcess) 100 (100 + 400) 300
                  (positionTier gridSnap (tier TActor) 100 100 300 nodes)))) as HP.
  { apply (positioned_trans (λ j, j ∈ tier TActor ∨ j ∈ tier TProcess)
             (λ j, j ∈ tier TStore) _ nodes
             (positionTier gridSnap (tier TProcess) 100 (100 + 400) 300
                (positionTier gridSnap (tier TActor) 100 100 300 nodes))).
    - intros j [Hj | Hj]; [by left | right; by left].
    - intros j Hj. right. by right.
    - intros j [Hj | [Hj | Hj]]; [left; by left | left; by right | by right].
    - apply (positioned_trans (λ j, j ∈ tier TActor) (λ j, j ∈ tier TProcess) _
               nodes (positionTier gridSnap (tier TActor) 100 100 300 nodes));
        [tauto | tauto | tauto | apply positionTier_positioned
        | apply positionTier_positioned].
    - apply positionTier_positioned. }
  split; [apply HP |].
  eapply positioned_all; [exact HP |].
  intros j Hj. apply lookup_lt_is_Some in Hj as [n Hn].
  unfold tier. rewrite !elem_of_refs_where.
  destruct (tier_total (n_type n)) as [Ht | [Ht | Ht]]; eauto 6.
Qed.

Lemma calculateTieredLayout_returns nodes :
  Forall (λ n, inherited_type (n_type n) = false) nodes →
  ∃ ns, calculateTieredLayout gridSnap nodes = Normal ns.
Proof.
  intros H. unfold calculateTieredLayout.
  destruct (existsb _ nodes) eqn:E; [| by eexists].
  apply existsb_exists in E as (n & Hin & Hn).
  rewrite Forall_forall in H. apply list_elem_of_In in Hin.
  rewrite (H n Hin) in Hn. done.
Qed.

Lemma radial_each_positioned count index todo store :
  positioned (λ j, index ≤ j < index + todo) store
             (radial_each gridSnap Math_cos Math_sin Math_PI count index todo store).
Proof.
  revert index store. induction todo as [|todo IH]; intros index store; simpl.
  - apply positioned_refl. intros j. simpl. lia.
  - eapply positioned_trans; [ | | | apply positioned_alter | apply IH].
    + intros j ->. simpl. lia.
    + intros j Hj. simpl in *. lia.
    + intros j Hj. simpl in *. destruct (decide (j = index)); [by left | right; lia].
Qed.

Lemma calculateRadialLayout_snaps nodes :
  length (calculateRadialLayout gridSnap Math_cos Math_sin Math_PI nodes)
  = length nodes
  ∧ Forall snapped (calculateRadialLayout gridSnap Math_cos Math_sin Math_PI nodes).
Proof.
  unfold calculateRadialLayout.
  pose proof (radial_each_positioned (length nodes) 0 (length nodes) nodes) as HP.
  split; [apply HP |].
  eapply positioned_all; [exact HP |]. intros j Hj. simpl. lia.
Qed.

(** ** The hierarchy levels *)

Section Hierarchy.
Variable nodes : Store.
Variable connections : list Connection.

Lemma build_nodeMap_valid id t :
  build_nodeMap nodes !! id = Some t → t < length nodes.
Proof.
  unfold build_nodeMap.
  assert (Forall (λ i, i < length nodes) (refs nodes)) as Hrefs.
  { apply Forall_forall. intros i Hi. apply elem_of_seq in Hi. lia. }
  assert (∀ id t, (∅ : gmap (option string) nat) !! id = Some t → t < length nodes)
    as H0 by (intros ? ?; by rewrite lookup_empty).
  revert H0 Hrefs id t. generalize (∅ : gmap (option string) nat).
  induction (refs nodes) as [|i l IH]; intros m H0 Hl id t; simpl; [by apply H0 |].
  apply Forall_cons in Hl as [Hi Hl]. apply IH; [| done].
  intros id' t'. destruct (nodes !! i) as [n|]; [| by apply H0].
  destruct (decide (n_id n = id')) as [-> | Hne].
  - rewrite lookup_insert_eq. by intros [= <-].
  - rewrite lookup_insert_ne by done. by apply H0.
Qed.

Lemma next_of_valid visited i t :
  t ∈ next_of nodes connections (build_nodeMap nodes) visited i →
  t < length nodes ∧ id_at nodes t ∉ visited.
Proof.
  unfold next_of. rewrite list_elem_of_omap.
  intros (conn & _ & H).
  destruct (build_nodeMap nodes !! k_targetId conn) as [t'|] eqn:E; [| done].
  case_bool_decide; [done |]. simplify_eq.
  split; [by eapply build_nodeMap_valid | done].
Qed.

(** Every visited id is the id of a node that stands in a level. *)
Definition covers (levels : list (list nat)) (visited : gset (option string)) : Prop :=
  ∀ id, id ∈ visited →
    ∃ j, (∃ level, level ∈ levels ∧ j ∈ level)
         ∧ j < length nodes ∧ id_at nodes j = id.

Lemma filter_all_unvisited (visited : gset (option string)) (l : list nat) :
  (∀ j, j ∈ l → id_at nodes j ∉ visited) →
  List.filter (λ i, negb (bool_decide (id_at nodes i ∈ visited))) l = l.
Proof.
  induction l as [|i l IH]; intros H; simpl; [done |].
  rewrite bool_decide_eq_false_2 by (apply H; by left). simpl.
  f_equal. apply IH. intros j Hj. apply H. by right.
Qed.

Lemma levels_loop_spec fuel currentLevel levels visited :
  (∀ j, j ∈ currentLevel → j < length nodes ∧ id_at nodes j ∉ visited) →
  covers levels visited →
  length levels ≤ 20 → 21 ≤ length levels + fuel →
  ∃ levels' visited',
    levels_loop fuel nodes connections (build_nodeMap nodes)
                currentLevel levels visited = Some (levels', visited')
    ∧ covers levels' visited'.
Proof.
  revert currentLevel levels visited.
  induction fuel as [|fuel IH]; intros cur levels visited Hcur Hcov Hlen Hfuel.
  { lia. }
  destruct cur as [|c cur']; [by exists levels, visited |].
  cbn [levels_loop].
  rewrite (filter_all_unvisited visited (c :: cur')) by (intros j Hj; by apply Hcur).
  cbv iota.
  set (cur := c :: cur') in *.
  set (visited' := visited ∪ list_to_set (map (id_at nodes) cur)).
  set (levels' := (levels ++ [cur])%list).
  assert (covers levels' visited') as Hcov'.
  { intros id [Hid | Hid]%elem_of_union.
    - destruct (Hcov id Hid) as (j & (l & Hl & Hj) & Hv & Hj').
      exists j. split; [| done]. exists l. split; [| done].
      apply elem_of_app. by left.
    - apply elem_of_list_to_set, list_elem_of_fmap in Hid as (j & -> & Hj).
      exists j. split.
      + exists cur. split; [| done]. apply elem_of_app. right.
        by apply list_elem_of_singleton.
      + split; [by apply Hcur | done]. }
  destruct (20 <? length levels')%nat eqn:E; [by exists levels', visited' |].
  apply Nat.ltb_ge in E. unfold levels' in E. rewrite length_app in E. simpl in E.
  apply IH; [| done | |].
  - intros j Hj. apply list_elem_of_In, in_concat in Hj as (l & Hl & Hj).
    apply in_map_iff in Hl as (i & <- & _).
    apply list_elem_of_In in Hj. by eapply next_of_valid.
  - unfold levels'. rewrite length_app. simpl. lia.
  - unfold levels'. rewrite length_app. simpl. lia.
Qed.

Lemma id_at_inj i j :
  NoDup (map n_id nodes) → i < length nodes → j < length nodes →
  id_at nodes i = id_at nodes j → i = j.
Proof.
  intros Hnd Hi Hj. unfold id_at.
  apply lookup_lt_is_Some in Hi as [ni Hni], Hj as [nj Hnj].
  rewrite Hni, Hnj. intros Heq.
  eapply NoDup_lookup; [exact Hnd | |].
  - by rewrite list_lookup_fmap, Hni.
  - by rewrite list_lookup_fmap, Hnj, Heq.
Qed.

(** The levels are computed, and a node array without repeated ids is
    covered by them. *)
Lemma buildHierarchyLevels_covers rootNodes :
  (∀ j, j ∈ rootNodes → j < length nodes) →
  ∃ levels,
    buildHierarchyLevels nodes connections rootNodes = Some levels
    ∧ (NoDup (map n_id nodes) →
       ∀ j, j < length nodes → ∃ level, level ∈ levels ∧ j ∈ level).
Proof.
  intros Hroots. unfold buildHierarchyLevels.
  destruct (levels_loop_spec 21 rootNodes [] ∅) as (levels & visited & -> & Hcov).
  - intros j Hj. split; [by apply Hroots | set_solver].
  - intros id Hid. set_solver.
  - simpl. lia.
  - simpl. lia.
  - eexists. split; [reflexivity |]. intros Hnd j Hj.
    set (unvisited := refs_where (λ n, negb (bool_decide (n_id n ∈ visited))) nodes).
    destruct (decide (id_at nodes j ∈ visited)) as [Hin | Hout].
    + destruct (Hcov _ Hin) as (j' & (l & Hl & Hj') & Hv & Heq).
      assert (j' = j) as -> by by apply id_at_inj.
      exists l. split; [| done].
      destruct unvisited; [done | apply elem_of_app; by left].
    + assert (j ∈ unvisited) as Hu.
      { apply elem_of_refs_where.
        apply lookup_lt_is_Some in Hj as [n Hn]. exists n. split; [done |].
        unfold id_at in Hout. rewrite Hn in Hout.
        by rewrite bool_decide_eq_false_2. }
      exists unvisited. split; [| done].
      destruct unvisited eqn:E; [by apply elem_of_nil in Hu |].
      apply elem_of_app. right. by apply list_elem_of_singleton.
Qed.

Lemma calculateHierarchicalLayout_snaps :
  ∃ r, calculateHierarchicalLayout gridSnap nodes connections = Some r
       ∧ (Forall (λ n, inherited_type (n_type n) = false) nodes →
          ∃ ns, r = Normal ns)
       ∧ (NoDup (map n_id nodes) →
          ∀ ns, r = Normal ns → length ns = length nodes ∧ Forall snapped ns).
Proof.
  unfold calculateHierarchicalLayout.
  set (rootNodes := refs_where _ nodes).
  destruct rootNodes as [|r0 roots] eqn:E.
  - eexists. split; [reflexivity |]. split.
    + apply calculateTieredLayout_returns.
    + intros _ ns. apply calculateTieredLayout_snaps.
  - rewrite <- E.
    destruct (buildHierarchyLevels_covers rootNodes) as (levels & -> & Hcov).
    { intros j Hj. apply elem_of_refs_where in Hj as (n & Hn & _).
      by eapply lookup_lt_Some. }
    eexists. split; [reflexivity |]. split; [by eexists |].
    intros Hnd ns [= <-].
    pose proof (position_levels_positioned levels 100 nodes) as HP.
    split; [apply HP |].
    eapply positioned_all; [exact HP |]. by apply Hcov.
Qed.
End Hierarchy.

Lemma calculateLayout_snaps nodes connections layoutType :
  layoutType ∈ ["tiered"; "radial"; "hierarchical"] →
  ∃ r, calculateLayout gridSnap Math_cos Math_sin Math_PI
                       nodes connections layoutType = Some r
       ∧ (Forall (λ n, inherited_type (n_type n) = false) nodes →
          ∃ ns, r = Normal ns)
       ∧ ((layoutType = "hierarchical" → NoDup (map n_id nodes)) →
          ∀ ns, r = Normal ns → length ns = length nodes ∧ Forall snapped ns).
Proof.
  intros Hin. unfold calculateLayout.
  repeat (apply elem_of_cons in Hin as [-> | Hin]); [| | | by apply elem_of_nil in Hin];
    simpl.
  - eexists. split; [reflexivity |]. split.
    + apply calculateTieredLayout_returns.
    + intros _ ns. apply calculateTieredLayout_snaps.
  - eexists. split; [reflexivity |]. split; [by eexists |].
    intros _ ns [= <-]. apply calculateRadialLayout_snaps.
  - destruct (calculateHierarchicalLayout_snaps nodes connections)
      as (r & -> & Hret & Hsnap).
    exists r. split; [done |]. split; [done |]. intros H. by apply Hsnap, H.
Qed.
End LayoutFacts.

End LayoutFacts.

(** * The regular expressions of the patterns *)
Module PatternFacts.
Import JS Regex Patterns PatternHelpers.

(** Every regular expression the extractor uses is read by [parse], so
    [compile] never falls back to its default. *)
Lemma patterns_parse :
  forallb (fun p => bool_decide (is_Some (parse (re_source p))))
          (map os_pattern OS_PATTERNS ++ map in_pattern INSTRUMENTATION_PATTERNS
           ++ T2TPatterns.connectionPatterns
           ++ map snd T2TPatterns.servicePatterns.entries
           ++ map snd T2TPatterns.protocolPatterns.entries
           ++ [T2TPatterns.nodePatterns.tableRow; T2TPatterns.nodePatterns.inline;
               T2TPatterns.nodePatterns.systemNames;
               T2TPatterns.rolePatterns.attacker; T2TPatterns.rolePatterns.database;
               ipv4; storage; port])
  = true.
Proof. vm_compute. reflexivity. Qed.

End PatternFacts.

(** * The entity extractor *)
Module ExtractorFacts.
Import JS JSFacts Props Regex Patterns Runtime PatternHelpers Extractor.

(** ** Hoare triples on the extractor state *)

Definition hoare {A} (P : St → Prop) (m : M A) (R : A → St → Prop) : Prop :=
  ∀ s, P s → R (fst (m s)) (snd (m s)).

Lemma hoare_ret {A} (P : St → Prop) (a : A) : hoare P (ret a) (λ _, P).
Proof. by intros s Hs. Qed.

Lemma hoare_bind {A B} (P : St → Prop) (R : A → St → Prop) (T : B → St → Prop)
    (m : M A) (k : A → M B) :
  hoare P m R → (∀ a, hoare (R a) (k a) T) → hoare P (bind m k) T.
Proof.
  intros Hm Hk s Hs. unfold bind. specialize (Hm s Hs).
  destruct (m s) as [a s']. by apply Hk.
Qed.

Lemma hoare_conseq {A} (P P' : St → Prop) (R R' : A → St → Prop) (m : M A) :
  hoare P' m R' → (∀ s, P s → P' s) → (∀ a s, R' a s → R a s) → hoare P m R.
Proof. intros H HP HR s Hs. by apply HR, H, HP. Qed.

Lemma hoare_forEach {A} (I : St → Prop) (l : list A) (body : A → M unit) :
  (∀ x, x ∈ l → hoare I (body x) (λ _, I)) →
  hoare I (forEach l body) (λ _, I).
Proof.
  induction l as [|x l' IH]; intros H; simpl.
  - apply hoare_ret.
  - eapply hoare_bind; [apply H; by left |].
    intros ?. apply IH. intros y Hy. apply H. by right.
Qed.

Lemma hoare_forEach_seen {A} (I : St → Prop) (l : list A) seen
    (body : A → list string → M (list string)) :
  (∀ x seen, x ∈ l → hoare I (body x seen) (λ _, I)) →
  hoare I (forEach_seen l seen body) (λ _, I).
Proof.
  revert seen. induction l as [|x l' IH]; intros seen H; simpl.
  - apply hoare_ret.
  - eapply hoare_bind; [apply H; by left |].
    intros seen'. apply IH. intros y seen'' Hy. apply H. by right.
Qed.

(** ** Computations that leave the connections alone *)

Definition keeps {A} (m : M A) : Prop :=
  ∀ s, connections (snd (m s)) = connections s.

Lemma keeps_ret {A} (a : A) : keeps (ret a).
Proof. done. Qed.

Lemma keeps_bind {A B} (m : M A) (k : A → M B) :
  keeps m → (∀ a, keeps (k a)) → keeps (bind m k).
Proof.
  intros Hm Hk s. unfold bind. specialize (Hm s).
  destruct (m s) as [a s']. simpl in Hm. by rewrite Hk.
Qed.

Lemma keeps_forEach {A} (l : list A) (body : A → M unit) :
  (∀ x, keeps (body x)) → keeps (forEach l body).
Proof.
  intros H. induction l as [|x l' IH]; simpl; [apply keeps_ret |].
  apply keeps_bind; [apply H | done].
Qed.

Lemma keeps_forEach_seen {A} (l : list A) seen
    (body : A → list string → M (list string)) :
  (∀ x seen, keeps (body x seen)) → keeps (forEach_seen l seen body).
Proof.
  intros H. revert seen. induction l as [|x l' IH]; intros seen; simpl.
  - apply keeps_ret.
  - apply keeps_bind; [apply H | done].
Qed.

Lemma keeps_test p s : keeps (test p s).
Proof. intros st. unfold test. by destruct (RegExp_test p s (lastIndex st)). Qed.

Lemma keeps_uuidv4 : keeps uuidv4.
Proof. done. Qed.

Lemma keeps_get_nodes : keeps get_nodes.
Proof. done. Qed.

Lemma keeps_set_nodes ns : keeps (set_nodes ns).
Proof. done. Qed.

Lemma keeps_get_connections : keeps get_connections.
Proof. done. Qed.

Lemma keeps_if {A} (b : bool) (m1 m2 : M A) :
  keeps m1 → keeps m2 → keeps (if b then m1 else m2).
Proof. by destruct b. Qed.

(** Proves [keeps] goals by following the structure of the code. *)
Ltac keeps_tac :=
  repeat first
    [ apply keeps_ret | apply keeps_test | apply keeps_uuidv4
    | apply keeps_get_nodes | apply keeps_set_nodes | apply keeps_get_connections
    | apply keeps_bind; [| intros ?]
    | apply keeps_if
    | match goal with
      | |- keeps (match ?x with _ => _ end) => destruct x
      | |- keeps (let (_, _) := ?x in _) => destruct x
      end
    | assumption ].

Lemma keeps_classifyNodeType name role context :
  keeps (classifyNodeType name role context).
Proof. unfold classifyNodeType. keeps_tac. Qed.

Lemma keeps_test_services entries text services :
  keeps (test_services entries text services).
Proof.
  revert services. induction entries as [|[service pattern] rest IH];
    intros services; simpl; [apply keeps_ret |].
  apply keeps_bind; [apply keeps_test | intros found; apply IH].
Qed.

Lemma keeps_extractServices text : keeps (extractServices text).
Proof.
  unfold extractServices. apply keeps_bind; [apply keeps_test_services |].
  intros ?. apply keeps_ret.
Qed.

Lemma keeps_first_protocol entries context : keeps (first_protocol entries context).
Proof.
  induction entries as [|[protocol pattern] rest IH]; simpl; [apply keeps_ret |].
  apply keeps_bind; [apply keeps_test |]. intros []; [apply keeps_ret | done].
Qed.

Lemma keeps_detectProtocol context : keeps (detectProtocol context).
Proof. apply keeps_first_protocol. Qed.

Lemma keeps_getOrCreateNodeId name : keeps (getOrCreateNodeId name).
Proof. unfold getOrCreateNodeId. keeps_tac. Qed.

Lemma keeps_addOrUpdateNode n : keeps (addOrUpdateNode n).
Proof. unfold addOrUpdateNode. keeps_tac. Qed.

Create HintDb keeps.

#[local] Hint Resolve keeps_classifyNodeType keeps_extractServices
  keeps_detectProtocol keeps_getOrCreateNodeId keeps_addOrUpdateNode : keeps.

Ltac keeps_code :=
  repeat first [ progress keeps_tac | solve [eauto with keeps] ].

Lemma keeps_table_row text m : keeps (table_row text m).
Proof. unfold table_row. keeps_code. Qed.

Lemma keeps_inline_node text m : keeps (inline_node text m).
Proof. unfold inline_node. keeps_code. Qed.

Lemma keeps_os_match text hint role m seen : keeps (os_match text hint role m seen).
Proof. unfold os_match. keeps_code. Qed.

Lemma keeps_instrumentation text p seen : keeps (instrumentation text p seen).
Proof. unfold instrumentation. keeps_code. Qed.

Lemma keeps_system_name text m seen : keeps (system_name text m seen).
Proof. unfold system_name. keeps_code. Qed.

Lemma keeps_extractNodesFromText text : keeps (extractNodesFromText text).
Proof.
  unfold extractNodesFromText, extractFromTableRows, extractFromInlineFormat,
    extractFromSystemNames.
  repeat first
    [ apply keeps_bind; [| intros ?]
    | apply keeps_ret
    | apply keeps_forEach; intros ?
    | apply keeps_forEach_seen; intros ? ?
    | apply keeps_table_row | apply keeps_inline_node | apply keeps_os_match
    | apply keeps_instrumentation | apply keeps_system_name ].
Qed.

Lemma keeps_merge_vision_node v : keeps (merge_vision_node v).
Proof. unfold merge_vision_node. keeps_code. Qed.

(** ** How the connections grow *)

(** From [s] to [s'] the connections stayed, or one connection accepted
    by [G] was added at the end. *)
Definition grows (G : list EConn → EConn → Prop) (s s' : St) : Prop :=
  connections s' = connections s
  ∨ ∃ c, connections s' = connections s ++ [c] ∧ G (connections s) c.

(** A connection pushed by [extractConnectionsFromText]. *)
Definition pushed_from_text (cs : list EConn) (c : EConn) : Prop :=
  cn_confidence c = Finite 80
  ∧ cn_source c = "text"
  ∧ cn_sourceId c ≠ cn_targetId c
  ∧ find_connection (cn_sourceId c) (cn_targetId c) cs = None.

(** A connection pushed by [mergeVisionResults] for [v]. *)
Definition pushed_from_vision (v : EConn) (cs : list EConn) (c : EConn) : Prop :=
  c = with_conn_source "vision" (Number_mul (cn_confidence v) (Finite (8 # 10))) v
  ∧ find_connection (cn_sourceId c) (cn_targetId c) cs = None.

Lemma connection_match_grows text names index m s :
  grows pushed_from_text s (snd (connection_match text names index m s)).
Proof.
  unfold connection_match.
  destruct (if _ : bool then _ else _) as [[sourceName|] [targetName|]];
    try (by left).
  destruct (_ || _); [by left |].
  unfold bind at 1. simpl.
  destruct (nodes_get sourceName (nodes s)) as [sourceNode|]; [| by left].
  destruct (nodes_get targetName (nodes s)) as [targetNode|]; [| by left].
  case_bool_decide as Hloop; [by left |].
  unfold bind at 1.
  pose proof (keeps_detectProtocol
                (getContextWindow text (sourceName +:+ " " +:+ targetName)) s) as Hk.
  destruct (detectProtocol _ s) as [protocol s1]. simpl in Hk.
  unfold bind at 1. simpl.
  destruct (find_connection _ _ (connections s1)) eqn:Hfind; simpl.
  - left. done.
  - right. eexists. rewrite <- Hk. split; [reflexivity |].
    repeat split; simpl; done.
Qed.

Lemma merge_vision_connection_grows v s :
  grows (pushed_from_vision v) s (snd (merge_vision_connection v s)).
Proof.
  unfold merge_vision_connection, bind. simpl.
  destruct (find_connection _ _ (connections s)) eqn:Hfind; simpl.
  - by left.
  - right. eexists. split; [reflexivity |]. split; [reflexivity | done].
Qed.

(** A property of the connections that every accepted addition keeps is
    an invariant of a loop whose body only grows the connections. *)
Lemma grows_invariant (G : list EConn → EConn → Prop) (Q : list EConn → Prop)
    (m : M unit) :
  (∀ cs c, Q cs → G cs c → Q (cs ++ [c])) →
  (∀ s, grows G s (snd (m s))) →
  hoare (λ s, Q (connections s)) m (λ _ s, Q (connections s)).
Proof.
  intros HQ Hm s Hs. destruct (Hm s) as [-> | (c & -> & Hc)]; [done |].
  by apply HQ.
Qed.

Lemma keeps_invariant {A} (Q : list EConn → Prop) (m : M A) :
  keeps m → hoare (λ s, Q (connections s)) m (λ _ s, Q (connections s)).
Proof. intros Hk s Hs. by rewrite Hk. Qed.


(** ** The connections that [collect] gathers *)

Lemma extractConnectionsFromText_invariant (Q : list EConn → Prop) text :
  (∀ cs c, Q cs → pushed_from_text cs c → Q (cs ++ [c])) →
  hoare (λ s, Q (connections s)) (extractConnectionsFromText text)
        (λ _ s, Q (connections s)).
Proof.
  intros HQ. unfold extractConnectionsFromText.
  eapply hoare_bind; [apply (keeps_invariant Q), keeps_get_nodes |].
  intros ns. apply hoare_forEach. intros [index pattern] _.
  apply hoare_forEach. intros m _.
  apply (grows_invariant pushed_from_text); [done |].
  intros s. apply connection_match_grows.
Qed.

Lemma mergeVisionResults_invariant (Q : list EConn → Prop) v :
  (∀ vcs vc cs c, vr_connections v = Some vcs → vc ∈ vcs →
                  Q cs → pushed_from_vision vc cs c → Q (cs ++ [c])) →
  hoare (λ s, Q (connections s)) (mergeVisionResults v)
        (λ _ s, Q (connections s)).
Proof.
  intros HQ. unfold mergeVisionResults.
  destruct (vr_nodes v) as [visionNodes|]; [| apply hoare_ret].
  eapply hoare_bind.
  - apply (keeps_invariant Q), keeps_forEach. intros n. apply keeps_merge_vision_node.
  - intros ?. destruct (vr_connections v) as [vcs|] eqn:E; [| apply hoare_ret].
    apply hoare_forEach. intros vc Hvc.
    apply (grows_invariant (pushed_from_vision vc)).
    + intros cs c Hcs Hc. by eapply HQ.
    + intros s. apply merge_vision_connection_grows.
Qed.

Lemma collect_invariant (Q : list EConn → Prop) text vision s :
  Q [] →
  (∀ cs c, Q cs → pushed_from_text cs c → Q (cs ++ [c])) →
  (∀ v vcs vc cs c, vision = Some v → vr_connections v = Some vcs → vc ∈ vcs →
                    Q cs → pushed_from_vision vc cs c → Q (cs ++ [c])) →
  Q (connections (snd (collect text vision s))).
Proof.
  intros Hnil Htext Hvision.
  assert (hoare (λ _, True) (collect text vision) (λ _ s, Q (connections s))) as H;
    [| by apply H].
  unfold collect.
  eapply hoare_bind with (R := λ _ _, True); [done |].
  intros ?. eapply hoare_bind with (R := λ _ s, Q (connections s)).
  { intros s0 _. exact Hnil. }
  intros ?. eapply hoare_bind.
  { apply (keeps_invariant Q), keeps_extractNodesFromText. }
  intros ?. eapply hoare_bind.
  { by apply extractConnectionsFromText_invariant. }
  intros ?. destruct vision as [v|]; [| apply hoare_ret].
  apply mergeVisionResults_invariant. intros vcs vc cs c Hv Hvc. by eapply Hvision.
Qed.

(** The result of [extract]: the nodes and the connections of [collect],
    adjusted. *)
Lemma extract_result text vision s :
  let s1 := snd (collect text vision s) in
  let ns' := map (λ kv, (fst kv, adjust_node (snd kv))) (nodes s1) in
  fst (extract text vision s)
  = mkExtraction (map snd ns') (map (adjust_connection ns') (connections s1)).
Proof.
  unfold extract, bind. destruct (collect text vision s) as [[] s1]. done.
Qed.

(** ** Bounds *)

Lemma Math_max_case x y : Math_max x y = x ∨ Math_max x y = y.
Proof. unfold Math_max. destruct (Qle_bool x y); auto. Qed.

Lemma Math_min_le_l x y : (Math_min x y <= x)%Q.
Proof.
  unfold Math_min. destruct (Qle_bool x y) eqn:E; [apply Qle_refl |].
  apply Qlt_le_weak, Qnot_le_lt. intros H. apply Qle_bool_iff in H. congruence.
Qed.

Lemma Math_min_ge z x y : (z <= x)%Q → (z <= y)%Q → (z <= Math_min x y)%Q.
Proof. unfold Math_min. by destruct (Qle_bool x y). Qed.

Lemma Math_max_ge_l x y : (x <= Math_max x y)%Q.
Proof.
  unfold Math_max. destruct (Qle_bool x y) eqn:E; [| apply Qle_refl].
  by apply Qle_bool_iff.
Qed.

Lemma clamp_in_bounds q : in_bounds (Math_min 100 (Math_max 0 q)).
Proof.
  split.
  - apply Math_min_ge; [lra | apply Math_max_ge_l].
  - apply Math_min_le_l.
Qed.

Lemma Math_round_in_bounds q : in_bounds q → in_bounds (inject_Z (Math_round q)).
Proof.
  intros [H0 H100]. unfold Math_round, in_bounds.
  split.
  - change 0%Q with (inject_Z 0). rewrite <- Zle_Qle.
    change 0%Z with (Qfloor 0). apply Qfloor_resp_le. lra.
  - change 100%Q with (inject_Z 100). rewrite <- Zle_Qle.
    change 100%Z with (Qfloor (100 + (1 # 2))). apply Qfloor_resp_le. lra.
Qed.

(** [Math.min(100, Math.max(0, x))] is NaN for NaN, and within [0, 100]
    for every other number, the infinities included. *)
Lemma clamp_Number x :
  NaN_or_in_bounds (Number_min (Finite 100) (Number_max (Finite 0) x)).
Proof.
  destruct x as [q| |[]]; simpl.
  - right. exists (Math_min 100 (Math_max 0 q)). split; [| apply clamp_in_bounds].
    unfold Math_min, Math_max.
    destruct (Qle_bool 0 q); simpl;
      [by destruct (Qle_bool 100 q) | by destruct (Qle_bool 100 0)].
  - by left.
  - right. exists 0%Q. split; [done |]. unfold in_bounds. lra.
  - right. exists 100%Q. split; [done |]. unfold in_bounds. lra.
Qed.

Lemma adjust_node_clamped n : NaN_or_in_bounds (nd_confidence (adjust_node n)).
Proof. unfold adjust_node. simpl. apply clamp_Number. Qed.

(** ** What [extract] returns *)

Lemma find_connection_None s t cs :
  find_connection s t cs = None → (s, t) ∉ map endpoints cs.
Proof.
  unfold find_connection. intros Hfind Hin.
  apply list_elem_of_In, in_map_iff in Hin as (c & [= Hs Ht] & Hc).
  apply (find_none _ _ Hfind) in Hc. simpl in Hc.
  rewrite Hs, Ht, !bool_decide_eq_true_2 in Hc; done.
Qed.

Lemma adjust_connection_endpoints ns c :
  endpoints (adjust_connection ns c) = endpoints c.
Proof. unfold adjust_connection. by repeat case_match. Qed.

(** Whatever the text and the vision results, the confidence of a node
    returned is NaN or within [0, 100]. *)
Lemma extract_nodes_clamped text vision s :
  Forall (λ n, NaN_or_in_bounds (nd_confidence n))
         (ex_nodes (fst (extract text vision s))).
Proof.
  rewrite extract_result. simpl. rewrite map_map. simpl.
  apply Forall_forall. intros n Hn.
  apply list_elem_of_In, in_map_iff in Hn as (kv & <- & _).
  apply adjust_node_clamped.
Qed.

Lemma extract_endpoints_NoDup text vision s :
  NoDup (map endpoints (ex_connections (fst (extract text vision s)))).
Proof.
  rewrite extract_result. simpl. rewrite map_map.
  rewrite (map_ext _ endpoints) by (intros; apply adjust_connection_endpoints).
  apply (collect_invariant (λ cs, NoDup (map endpoints cs))).
  - constructor.
  - intros cs c Hcs (_ & _ & _ & Hfind). rewrite map_app. simpl.
    apply NoDup_app. split; [done |]. split; [| apply NoDup_singleton].
    intros p Hp ->%list_elem_of_singleton.
    by apply find_connection_None in Hfind.
  - intros v vcs vc cs c _ _ _ Hcs [_ Hfind]. rewrite map_app. simpl.
    apply NoDup_app. split; [done |]. split; [| apply NoDup_singleton].
    intros p Hp ->%list_elem_of_singleton.
    by apply find_connection_None in Hfind.
Qed.

Lemma extract_text_no_self_loop text s :
  Forall (λ c, cn_sourceId c ≠ cn_targetId c)
         (ex_connections (fst (extract text None s))).
Proof.
  rewrite extract_result. simpl.
  apply Forall_forall. intros c Hc.
  apply list_elem_of_In, in_map_iff in Hc as (c0 & <- & Hc0).
  pose proof (adjust_connection_endpoints
                (map (λ kv, (kv.1, adjust_node kv.2))
                     (nodes (snd (collect text None s)))) c0) as [= -> ->].
  apply list_elem_of_In in Hc0. revert c0 Hc0. apply Forall_forall.
  apply (collect_invariant (Forall (λ c, cn_sourceId c ≠ cn_targetId c))).
  - constructor.
  - intros cs c Hcs (_ & _ & Hne & _). apply Forall_app. split; [done |].
    by constructor.
  - intros v vcs vc cs c [=].
Qed.

(** [extract] starts by emptying the nodes and the connections of the
    extractor: what it returns depends on the state of the module only,
    the same for the extractor used before and for a new one. *)
Lemma extract_resets text vision li uc ns cs :
  extract text vision (mkSt li uc ns cs) = extract text vision (mkSt li uc [] []).
Proof. reflexivity. Qed.

End ExtractorFacts.

(* ===================================================================== *)
(** * More of the data model, the validators and the converter *)
(* ===================================================================== *)

Module DfdirMore.
Import JS JSFacts Props Dfdir DfdirFacts.

(** ** Lookup after insertion *)

Lemma find_snoc {A} (p : A → bool) (l : list A) (x : A) :
  List.find p (l ++ [x])
  = match List.find p l with
    | Some y => Some y
    | None => if p x then Some x else None
    end.
Proof.
  induction l as [|y l IH]; simpl; [done |]. by destruct (p y).
Qed.

Lemma addElement_Normal d e d' :
  addElement d e = Normal d' →
  getElementById d (el_id e) = None
  ∧ d' = mkDFDIR (d_name d) (d_elements d ++ [e]) (d_flows d) (d_metadata d).
Proof.
  unfold addElement. destruct (getElementById d (el_id e)); [done |].
  by intros [= <-].
Qed.

Lemma getElementById_addElement d e d' id :
  addElement d e = Normal d' →
  getElementById d' id
  = if bool_decide (id = el_id e) then Some e else getElementById d id.
Proof.
  intros [Hnone ->]%addElement_Normal. unfold getElementById in *. simpl.
  rewrite find_snoc. cbv beta. unfold str_opt_eqb in *.
  destruct (decide (id = el_id e)) as [-> | Hid].
  - by rewrite Hnone, !bool_decide_eq_true_2.
  - rewrite !bool_decide_eq_false_2 by congruence.
    clear Hnone. by case_match.
Qed.

Lemma addFlow_Normal d f d' :
  addFlow d f = Normal d' →
  getFlowById d (fl_id f) = None
  ∧ d' = mkDFDIR (d_name d) (d_elements d) (d_flows d ++ [f]) (d_metadata d).
Proof.
  unfold addFlow. destruct (getFlowById d (fl_id f)); [done |].
  by intros [= <-].
Qed.

Lemma getFlowById_addFlow d f d' id :
  addFlow d f = Normal d' →
  getFlowById d' id
  = if bool_decide (id = fl_id f) then Some f else getFlowById d id.
Proof.
  intros [Hnone ->]%addFlow_Normal. unfold getFlowById in *. simpl.
  rewrite find_snoc. cbv beta. unfold str_opt_eqb in *.
  destruct (decide (id = fl_id f)) as [-> | Hid].
  - by rewrite Hnone, !bool_decide_eq_true_2.
  - rewrite !bool_decide_eq_false_2 by congruence.
    clear Hnone. by case_match.
Qed.

(** ** Removal *)

Lemma findIndex_Some {A} (p : A → bool) (l : list A) i :
  findIndex p l = Some i →
  ∃ x, l !! i = Some x ∧ p x = true ∧ List.find p l = Some x.
Proof.
  revert i. induction l as [|y l IH]; intros i; simpl; [done |].
  destruct (p y) eqn:E.
  - intros [= <-]. by exists y.
  - destruct (findIndex p l) as [j|]; [| done]. simpl. intros [= <-].
    destruct (IH j eq_refl) as (x & Hx & Hp & Hf). by exists x.
Qed.

Lemma findIndex_None {A} (p : A → bool) (l : list A) :
  findIndex p l = None ↔ List.find p l = None.
Proof.
  induction l as [|y l IH]; simpl; [done |].
  destruct (p y); [done |].
  destruct (findIndex p l); simpl; [| tauto].
  split; [done |]. intros H. apply IH in H. done.
Qed.

(** The flows [removeElement(id)] keeps. *)
Definition untouched (id : option string) (f : DFDFlow) : bool :=
  negb (str_opt_eqb (fl_sourceId f) id) && negb (str_opt_eqb (fl_targetId f) id).

Lemma untouched_spec id f :
  untouched id f = true ↔ fl_sourceId f ≠ id ∧ fl_targetId f ≠ id.
Proof.
  unfold untouched, str_opt_eqb.
  rewrite andb_true_iff, !negb_true_iff, !bool_decide_eq_false. done.
Qed.

Lemma removeElement_false d id d' :
  removeElement d id = (false, d') → d' = d ∧ ¬ resolves d id.
Proof.
  unfold removeElement.
  destruct (findIndex _ _) eqn:E; [done |]. intros [= <-]. split; [done |].
  apply getElementById_None. unfold getElementById. by apply findIndex_None.
Qed.

Lemma removeElement_true d id d' :
  removeElement d id = (true, d') →
  ∃ i e, d_elements d !! i = Some e ∧ el_id e = id
         ∧ getElementById d id = Some e
         ∧ d' = mkDFDIR (d_name d) (delete i (d_elements d))
                        (List.filter (untouched id) (d_flows d)) (d_metadata d).
Proof.
  unfold removeElement.
  destruct (findIndex _ _) as [i|] eqn:E; [| done]. intros [= <-].
  apply findIndex_Some in E as (e & Hi & Hp & Hf).
  exists i, e. repeat split; try done.
  unfold str_opt_eqb in Hp. by apply bool_decide_eq_true in Hp.
Qed.

Lemma elem_of_delete_ne {A} (l : list A) i x y :
  l !! i = Some y → x ∈ l → x ≠ y → x ∈ delete i l.
Proof.
  intros Hi Hx Hne. apply list_elem_of_lookup in Hx as [j Hj].
  destruct (decide (j = i)) as [-> | Hji]; [congruence |].
  apply list_elem_of_lookup.
  destruct (decide (j < i)) as [Hlt | Hge].
  - exists j. by rewrite list_lookup_delete_lt.
  - exists (pred j). rewrite list_lookup_delete_ge by lia.
    replace (S (pred j)) with j by lia. done.
Qed.

(** Removing an element keeps every reference that was resolved and is
    not to the removed id. *)
Lemma removeElement_resolves d id d' other :
  removeElement d id = (true, d') → other ≠ id →
  resolves d other → resolves d' other.
Proof.
  intros (i & e & Hi & He & _ & ->)%removeElement_true Hne (e' & Hin & He').
  exists e'. split; [| done]. simpl.
  eapply elem_of_delete_ne; [exact Hi | exact Hin |]. congruence.
Qed.

Lemma getElementById_removeElement_ne d id d' other :
  removeElement d id = (true, d') → other ≠ id →
  getElementById d' other = getElementById d other.
Proof.
  intros (i & e & Hi & He & _ & ->)%removeElement_true Hne.
  unfold getElementById. simpl.
  revert i Hi. induction (d_elements d) as [|x l IH]; intros i Hi; [done |].
  destruct i as [|i]; simpl in *.
  - simplify_eq. unfold str_opt_eqb at 2.
    rewrite bool_decide_eq_false_2 by congruence. done.
  - destruct (str_opt_eqb (el_id x) other); [done |]. by apply IH.
Qed.

Lemma getElementById_removeElement d id d' :
  NoDup (map el_id (d_elements d)) →
  removeElement d id = (true, d') → getElementById d' id = None.
Proof.
  intros Hnd (i & e & Hi & He & _ & ->)%removeElement_true.
  apply getElementById_None. intros (e' & Hin & He'). simpl in Hin.
  apply list_elem_of_lookup in Hin as [j Hj].
  assert (∃ j', j' ≠ i ∧ d_elements d !! j' = Some e') as (j' & Hne & Hj').
  { destruct (decide (j < i)).
    - exists j. split; [lia |]. by rewrite list_lookup_delete_lt in Hj.
    - exists (S j). split; [lia |]. by rewrite list_lookup_delete_ge in Hj by lia. }
  apply Hne. eapply (NoDup_lookup _ _ _ _ Hnd).
  - rewrite list_lookup_fmap, Hj'. simpl. by rewrite He'.
  - rewrite list_lookup_fmap, Hi. simpl. by rewrite He.
Qed.

End DfdirMore.

Module SetFacts.
Import JS JSFacts PatternHelpers.

(** ** Insertion-ordered sets *)

Lemma set_add_NoDup x l : NoDup l → NoDup (set_add x l).
Proof.
  intros H. unfold set_add. destruct (arr_includes l x) eqn:E; [done |].
  apply NoDup_app. split; [done |]. split; [| apply NoDup_singleton].
  intros y Hy ->%list_elem_of_singleton.
  apply arr_includes_elem_of in Hy. congruence.
Qed.

Lemma elem_of_set_add x y l : y ∈ set_add x l ↔ y = x ∨ y ∈ l.
Proof.
  unfold set_add. destruct (arr_includes l x) eqn:E.
  - apply arr_includes_elem_of in E. naive_solver.
  - rewrite elem_of_app, list_elem_of_singleton. tauto.
Qed.

Lemma fold_set_add_NoDup (xs acc : list string) :
  NoDup acc → NoDup (fold_left (λ seen x, set_add x seen) xs acc).
Proof.
  revert acc. induction xs as [|x xs IH]; intros acc H; simpl; [done |].
  by apply IH, set_add_NoDup.
Qed.

Lemma elem_of_fold_set_add (xs acc : list string) y :
  y ∈ fold_left (λ seen x, set_add x seen) xs acc ↔ y ∈ xs ∨ y ∈ acc.
Proof.
  revert acc. induction xs as [|x xs IH]; intros acc; simpl.
  - rewrite elem_of_nil. tauto.
  - rewrite IH, elem_of_set_add, elem_of_cons. tauto.
Qed.

End SetFacts.

Module StatisticsFacts.
Import JS JSFacts Props Dfdir DfdirFacts DfdirStatistics SetFacts.

Lemma count_cons {A} (p : A → bool) x l :
  count p (x :: l) = ((if p x then 1 else 0) + count p l)%nat.
Proof. unfold count. simpl. by destruct (p x). Qed.

Lemma count_le {A} (p : A → bool) l : count p l ≤ length l.
Proof.
  induction l as [|x l IH]; [done |]. rewrite count_cons. simpl.
  destruct (p x); lia.
Qed.

(** The three type counts add up when every type is one of the three. *)
Lemma count_types (l : list DFDElement) :
  Forall (λ e, ∃ t, el_type e = Some t ∧ t ∈ element_types) l →
  (count (has_type "actor") l + count (has_type "process") l
   + count (has_type "store") l = length l)%nat.
Proof.
  induction 1 as [|e l (t & Ht & Hin) _ IH]; [done |].
  rewrite !count_cons. simpl. unfold has_type in *. rewrite Ht.
  unfold element_types in Hin.
  repeat (apply elem_of_cons in Hin as [-> | Hin]);
    [| | | by apply elem_of_nil in Hin];
    repeat case_bool_decide; simplify_eq; lia.
Qed.

(** A confidence that is a finite number of [0, 100]. *)
Definition finite_confidence (c : JSValue) : Prop :=
  ∃ q, c = JSNumber (Finite q) ∧ in_bounds q.

Lemma confidence_ok_cases (l : list JSValue) :
  Forall confidence_ok l →
  ((JSNumber NaN ∉ l) ∧ Forall finite_confidence l) ∨ JSNumber NaN ∈ l.
Proof.
  induction 1 as [|c l [-> | (q & -> & H0 & H100)] _ [[Hout IH] | IH]].
  - left. split; [apply not_elem_of_nil | constructor].
  - right. by left.
  - right. by left.
  - left. split.
    + intros [[=] | Hin]%elem_of_cons. done.
    + constructor; [by exists q | done].
  - right. by right.
Qed.

Lemma sum_confidence_from (l : list JSValue) (acc : Q) :
  Forall finite_confidence l →
  ∃ s, fold_left (λ sum c,
                    match sum, as_number c with
                    | Some s, Some n => Some (Number_add s n)
                    | _, _ => None
                    end) l (Some (Finite acc)) = Some (Finite s)
       ∧ (acc <= s)%Q ∧ (s <= acc + 100 * inject_Z (Z.of_nat (length l)))%Q.
Proof.
  intros H. revert acc. induction H as [|c l (q & -> & H0 & H100) _ IH]; intros acc.
  - exists acc. simpl. split; [done |]. split; [apply Qle_refl |].
    change (inject_Z (Z.of_nat 0)) with 0%Q. lra.
  - simpl. destruct (IH (acc + q)%Q) as (s & Hs & Hlo & Hhi).
    exists s. split; [done |].
    rewrite Nat2Z.inj_succ, <- Z.add_1_r, inject_Z_plus in *.
    change (inject_Z 1) with 1%Q. split; lra.
Qed.

(** Once the sum is NaN it stays NaN. *)
Lemma sum_confidence_from_NaN (l : list JSValue) :
  Forall confidence_ok l →
  fold_left (λ sum c,
               match sum, as_number c with
               | Some s, Some n => Some (Number_add s n)
               | _, _ => None
               end) l (Some NaN) = Some NaN.
Proof.
  induction 1 as [|c l [-> | (q & -> & _)] _ IH]; simpl; done.
Qed.

Lemma sum_confidence_with_NaN (l : list JSValue) (acc : Q) :
  Forall confidence_ok l → JSNumber NaN ∈ l →
  fold_left (λ sum c,
               match sum, as_number c with
               | Some s, Some n => Some (Number_add s n)
               | _, _ => None
               end) l (Some (Finite acc)) = Some NaN.
Proof.
  intros H. revert acc.
  induction H as [|c l [-> | (q & -> & _)] Hl IH]; intros acc Hin.
  - by apply elem_of_nil in Hin.
  - simpl. by apply sum_confidence_from_NaN.
  - simpl. apply IH. by apply elem_of_cons in Hin as [[=] | Hin].
Qed.

(** The average of confidences that pass the validator. *)
Lemma average_confidence_of_passed (l : list JSValue) :
  Forall confidence_ok l → average_of_passed l (average_confidence l).
Proof.
  intros H. unfold average_of_passed, average_confidence.
  destruct (confidence_ok_cases l H) as [[Hout Hfin] | Hin].
  - right. split; [done |]. destruct l as [|c l].
    + exists 0%Z. split; [done | lia].
    + unfold sum_confidence.
      destruct (sum_confidence_from (c :: l) 0 Hfin) as (s & -> & Hlo & Hhi).
      set (n := inject_Z (Z.of_nat (length (c :: l)))) in *.
      assert (0 < n)%Q as Hn.
      { unfold n. change 0%Q with (inject_Z 0). rewrite <- Zlt_Qlt. simpl. lia. }
      assert (Qeq_bool n 0 = false) as Hz.
      { apply not_true_iff_false. intros Hq%Qeq_bool_iff. lra. }
      unfold Number_div, Number_round. rewrite Hz.
      eexists. split; [reflexivity |].
      assert (in_bounds (s / n)) as Hb.
      { split.
        - apply Qle_shift_div_l; [done | lra].
        - apply Qle_shift_div_r; [done | lra]. }
      apply ExtractorFacts.Math_round_in_bounds in Hb as [H0 H100].
      change 0%Q with (inject_Z 0) in H0. change 100%Q with (inject_Z 100) in H100.
      rewrite <- Zle_Qle in H0, H100. done.
  - left. split; [done |]. destruct l as [|c l]; [by apply elem_of_nil in Hin |].
    unfold sum_confidence. by rewrite sum_confidence_with_NaN.
Qed.

End StatisticsFacts.

Module CellMore.
Import JS JSFacts Props ValidationResult CellValidator DfdirFacts CellFacts.

(** ** The cells [validateCells] accepts *)

(** A position or size object with two numbers. *)
Definition numeric_pair (p : option Pair) : Prop :=
  ∃ q a b, p = Some q ∧ p_fst q = Some (JSNumber a) ∧ p_snd q = Some (JSNumber b).

(** A cell without an error of its own: an id, a known shape, and for an
    edge both ends, for a node a numeric position and size. *)
Definition cell_ok (cell : Cell) : Prop :=
  truthy_str (c_id cell) = true
  ∧ isValidShape (c_shape cell) = true
  ∧ if isEdgeCell cell
    then is_Some (c_source cell) ∧ is_Some (c_target cell)
    else numeric_pair (c_position cell) ∧ numeric_pair (c_size cell).

Definition pair_missing (p : option Pair) : bool :=
  match p with
  | None => true
  | Some p => negb (is_number_opt (p_fst p)) || negb (is_number_opt (p_snd p))
  end.

Lemma pair_missing_false p : pair_missing p = false ↔ numeric_pair p.
Proof.
  unfold pair_missing, numeric_pair. destruct p as [[x y]|]; simpl.
  - rewrite orb_false_iff, !negb_false_iff. split.
    + intros [Hx Hy]. destruct x as [[]|], y as [[]|]; try done.
      by eexists _, _, _.
    + intros (q & a & b & [= <-] & Ha & Hb). simpl in *. by subst.
  - split; [done |]. by intros (q & a & b & [=] & _).
Qed.

Lemma errors_if_addError (b : bool) r e :
  errors (if b then addError r e else r) = errors r ++ (if b then [e] else []).
Proof. destruct b; simpl; [done | by rewrite app_nil_r]. Qed.

Lemma errors_if_addWarning (b : bool) r w :
  errors (if b then addWarning r w else r) = errors r.
Proof. by destruct b. Qed.

Lemma errors_validateNodeCell cell index r :
  ∃ e1 e2, errors (validateNodeCell cell index r)
           = errors r ++ (if pair_missing (c_position cell) then [e1] else [])
                      ++ (if pair_missing (c_size cell) then [e2] else []).
Proof.
  unfold validateNodeCell. eexists _, _.
  rewrite errors_if_addWarning, !errors_if_addError, <- app_assoc. reflexivity.
Qed.

Lemma errors_validateTerminal which errcode t index m r :
  ∃ e, errors (validateTerminal which errcode t index m r)
       = errors r ++ (if bool_decide (t = None) then [e] else []).
Proof.
  unfold validateTerminal. destruct t as [t|]; simpl.
  - exists (createError None None None None None). rewrite app_nil_r.
    by repeat case_match.
  - eexists. reflexivity.
Qed.

Lemma errors_validateEdgeCell cell index m r :
  ∃ e1 e2, errors (validateEdgeCell cell index m r)
           = errors r ++ (if bool_decide (c_source cell = None) then [e1] else [])
                      ++ (if bool_decide (c_target cell = None) then [e2] else []).
Proof.
  unfold validateEdgeCell.
  destruct (errors_validateTerminal "target" ErrorCodes.INVALID_TARGET
              (c_target cell) index m
              (validateTerminal "source" ErrorCodes.INVALID_SOURCE
                 (c_source cell) index m r)) as [e2 ->].
  destruct (errors_validateTerminal "source" ErrorCodes.INVALID_SOURCE
              (c_source cell) index m r) as [e1 ->].
  exists e1, e2. by rewrite <- app_assoc.
Qed.

Lemma isValidShape_truthy shape : isValidShape shape = true → truthy_str shape = true.
Proof.
  unfold isValidShape, truthy_str. destruct shape as [s|]; [| done].
  by destruct (String.eqb s "").
Qed.

Lemma validateCell_errors_nil cell index m :
  errors (validateCell cell index m) = [] ↔ cell_ok cell.
Proof.
  unfold validateCell, cell_ok. cbv zeta.
  set (r0 := createResult _ None).
  set (r1 := if negb (truthy_str (c_id cell)) then addError r0 _ else r0).
  set (r2 := if negb (truthy_str (c_shape cell)) then addError r1 _
             else if negb (isValidShape (c_shape cell)) then addError r1 _ else r1).
  set (r3 := if match c_zIndex cell with None | Some JSNull => true | _ => false end
             then addWarning r2 _ else r2).
  assert (errors r1 = [] ↔ truthy_str (c_id cell) = true) as H1.
  { unfold r1. rewrite errors_if_addError. simpl.
    rewrite if_nil_iff by done. by rewrite negb_false_iff. }
  assert (errors r2 = [] ↔ errors r1 = [] ∧ isValidShape (c_shape cell) = true) as H2.
  { unfold r2. destruct (truthy_str (c_shape cell)) eqn:Et; simpl.
    - rewrite errors_if_addError, app_nil, if_nil_iff by done.
      by rewrite negb_false_iff.
    - split; [intros [_ ?]%app_nil; done |].
      intros [_ Hv%isValidShape_truthy]. congruence. }
  assert (errors r3 = errors r2) as H3 by apply errors_if_addWarning.
  destruct (isEdgeCell cell) eqn:Ee.
  - rewrite andb_false_r.
    destruct (errors_validateEdgeCell cell index m r3) as (e1 & e2 & ->).
    rewrite !app_nil, !if_nil_iff, !bool_decide_eq_false, H3, H2, H1 by done.
    rewrite <- !not_eq_None_Some. tauto.
  - rewrite andb_true_r.
    destruct (truthy_str (c_shape cell)) eqn:Et.
    + destruct (errors_validateNodeCell cell index r3) as (e1 & e2 & ->).
      rewrite !app_nil, !if_nil_iff, !pair_missing_false, H3, H2, H1 by done.
      tauto.
    + rewrite H3, H2, H1. split; [| tauto].
      intros [_ Hv%isValidShape_truthy]. congruence.
Qed.

(** [validateCells] reports an array valid exactly when every cell is
    without an error of its own. *)
Lemma validateCells_valid_iff cells :
  valid (validateCells cells) = true ↔ Forall cell_ok cells.
Proof.
  pose proof (validateCells_consistent cells) as Hc.
  unfold consistent in Hc. rewrite Hc. clear Hc.
  destruct (decide (cells = [])) as [-> | Hne].
  - split; [by constructor | done].
  - rewrite validateCells_nonempty, validate_each_errors by done.
    change (errors (createResult (Some "cellValidator") None)) with (@nil Issue).
    rewrite app_nil_l, concat_imap_nil, Forall_lookup.
    by setoid_rewrite validateCell_errors_nil.
Qed.

End CellMore.
Module CellWarnings.
Import JS JSFacts Props ValidationResult CellValidator DfdirFacts CellFacts CellMore.
Import DiagramValidator.

(** ** Warnings *)

Lemma warnings_if_addError (b : bool) r e :
  warnings (if b then addError r e else r) = warnings r.
Proof. by destruct b. Qed.

Lemma warnings_if_addWarning (b : bool) r w :
  warnings (if b then addWarning r w else r)
  = warnings r ++ (if b then [w] else []).
Proof. destruct b; simpl; [done | by rewrite app_nil_r]. Qed.








(** ** validateDiagram *)

(** A diagram object that is there is as valid as its cells: a missing
    title or id is a warning. *)
Lemma validateDiagram_cells d :
  valid (validateDiagram (Some d)) = valid (validateCells_of (do_cells d))
  ∧ errors (validateDiagram (Some d)) = errors (validateCells_of (do_cells d)).
Proof.
  unfold validateDiagram. cbv zeta.
  set (r := if id_missing (do_id d) then addWarning _ _ else _).
  assert (valid r = true ∧ errors r = []) as [Hv He].
  { unfold r. by repeat case_match. }
  unfold merge. simpl. rewrite Hv, He. split; [| done].
  assert (consistent (validateCells_of (do_cells d))) as Hc.
  { destruct (do_cells d); [apply validateCells_consistent | apply consistent_addError]. }
  unfold consistent in Hc.
  destruct (errors (validateCells_of (do_cells d))) as [|e l]; simpl.
  - symmetry. by apply Hc.
  - destruct (valid (validateCells_of (do_cells d))); [| done].
    discriminate (proj1 Hc eq_refl).
Qed.

End CellWarnings.

Module ConverterFacts.
Import JS JSFacts Props Dfdir DfdirFacts ValidationResult ValidationService.
Import CellValidator CellFacts CellMore CellWarnings Converter.

(** ** What a valid DFDIR is *)

Lemma validate_valid_spec d :
  v_valid (validate d) = true
  ↔ Forall element_ok (d_elements d)
    ∧ Forall flow_ok (d_flows d)
    ∧ Forall (λ f, resolves d (fl_sourceId f) ∧ resolves d (fl_targetId f))
             (d_flows d)
    ∧ d_elements d ≠ [].
Proof.
  rewrite validate_valid_iff. unfold validate_errors.
  rewrite !app_nil, !concat_imap_nil.
  setoid_rewrite element_report_nil. setoid_rewrite flow_report_nil.
  rewrite !Forall_lookup.
  assert ((if (length (d_elements d) =? 0)%nat
           then ["DFDIR contains no elements"] else []) = []
          ↔ d_elements d ≠ []) as ->.
  { destruct (d_elements d); simpl; naive_solver. }
  naive_solver.
Qed.

(** ** Conversion of a valid DFDIR *)












End ConverterFacts.

Module LayoutMore.
Import JS JSFacts Props Layout LayoutFacts.

(** ** What the layout leaves alone *)

(** A node without its coordinates. *)
Definition identity (n : Node) : option string * string * option string :=
  (n_id n, n_name n, n_type n).

Lemma identity_alter x y i (store : Store) :
  map identity (alter (set_position x y) i store) = map identity store.
Proof.
  revert i. induction store as [|n store IH]; intros i; [done |].
  destruct i as [|i]; simpl; [done |]. f_equal. apply IH.
Qed.

Section Identity.
Variable gridSnap : Z.
Variable Math_cos Math_sin : Q → Q.
Variable Math_PI : Q.

Lemma identity_position_each tier x y sp store :
  map identity (position_each gridSnap tier x y sp store) = map identity store.
Proof.
  revert x store. induction tier as [|i tier IH]; intros x store; simpl; [done |].
  by rewrite IH, identity_alter.
Qed.

Lemma identity_positionTier tier x y sp store :
  map identity (positionTier gridSnap tier x y sp store) = map identity store.
Proof.
  unfold positionTier. destruct tier; [done |]. apply identity_position_each.
Qed.

Lemma identity_position_levels levels y store :
  map identity (position_levels gridSnap levels y store) = map identity store.
Proof.
  revert y store. induction levels as [|l levels IH]; intros y store; simpl; [done |].
  by rewrite IH, identity_positionTier.
Qed.

Lemma identity_radial_each count index todo store :
  map identity (radial_each gridSnap Math_cos Math_sin Math_PI count index todo store)
  = map identity store.
Proof.
  revert index store. induction todo as [|todo IH]; intros index store; simpl; [done |].
  by rewrite IH, identity_alter.
Qed.

Lemma identity_calculateTieredLayout nodes ns :
  calculateTieredLayout gridSnap nodes = Normal ns →
  map identity ns = map identity nodes.
Proof.
  unfold calculateTieredLayout. case_match; [done |]. intros [= <-].
  by rewrite !identity_positionTier.
Qed.

Lemma identity_calculateLayout nodes connections layoutType ns :
  calculateLayout gridSnap Math_cos Math_sin Math_PI nodes connections layoutType
  = Some (Normal ns) →
  map identity ns = map identity nodes.
Proof.
  unfold calculateLayout. repeat case_match; try done.
  - intros [= Heq]. by apply identity_calculateTieredLayout.
  - intros [= <-]. apply identity_radial_each.
  - unfold calculateHierarchicalLayout. repeat case_match; try done.
    + intros [= Heq]. by apply identity_calculateTieredLayout.
    + intros [= <-]. apply identity_position_levels.
Qed.

End Identity.

(** ** Rounding and translations *)

Lemma Qfloor_plus_Z (q : Q) (k : Z) : Qfloor (q + inject_Z k) = (Qfloor q + k)%Z.
Proof.
  apply Z.le_antisymm.
  - apply Z.lt_succ_r. rewrite Zlt_Qlt.
    eapply Qle_lt_trans; [apply Qfloor_le |].
    unfold Z.succ. rewrite !inject_Z_plus.
    pose proof (Qlt_floor q) as H. rewrite inject_Z_plus in H.
    change (inject_Z 1) with 1%Q in *. lra.
  - rewrite <- (Qfloor_Z (Qfloor q + k)). apply Qfloor_resp_le.
    rewrite inject_Z_plus. pose proof (Qfloor_le q). lra.
Qed.

Lemma Math_round_plus_Z (q : Q) (k : Z) :
  Math_round (q + inject_Z k) = (Math_round q + k)%Z.
Proof.
  unfold Math_round. rewrite <- Qfloor_plus_Z. apply Qfloor_comp. ring.
Qed.

Section Snap.
Variable gridSnap : Z.
Hypothesis gridSnap_nonzero : gridSnap ≠ 0%Z.

Lemma multiple_near_comp (q q' : Q) :
  (q == q')%Q → multiple_near gridSnap q = multiple_near gridSnap q'.
Proof.
  intros H. unfold multiple_near, Math_round. f_equal. apply Qfloor_comp.
  by rewrite H.
Qed.

(** Snapping commutes with a shift by a multiple of the grid unit. *)
Lemma multiple_near_shift (q : Q) (m : Z) :
  (gridSnap | m)%Z →
  multiple_near gridSnap (q + inject_Z m) = (multiple_near gridSnap q + m)%Z.
Proof.
  intros [k ->]. unfold multiple_near.
  assert ((q + inject_Z (k * gridSnap)) / inject_Z gridSnap
          == q / inject_Z gridSnap + inject_Z k)%Q as H.
  { rewrite inject_Z_mult. field.
    change 0%Q with (inject_Z 0). rewrite inject_Z_injective. done. }
  unfold Math_round at 1.
  rewrite (Qfloor_comp _ (q / inject_Z gridSnap + inject_Z k + (1#2))%Q)
    by (by rewrite H).
  change (Qfloor (q / inject_Z gridSnap + inject_Z k + (1 # 2)))
    with (Math_round (q / inject_Z gridSnap + inject_Z k)).
  rewrite Math_round_plus_Z. lia.
Qed.

Lemma multiple_near_fixed (m : Z) :
  (gridSnap | m)%Z → multiple_near gridSnap (inject_Z m) = m.
Proof.
  intros [k ->]. unfold multiple_near, Math_round.
  rewrite (Qfloor_comp _ (inject_Z k + (1#2))%Q).
  - assert (Qfloor (inject_Z k + (1 # 2)) = k) as ->; [| done].
    rewrite Qplus_comm, Qfloor_plus_Z. done.
  - rewrite inject_Z_mult. field.
    change 0%Q with (inject_Z 0). rewrite inject_Z_injective. done.
Qed.

End Snap.

End LayoutMore.

Module LayoutTiers.
Import JS JSFacts Props Layout LayoutFacts LayoutMore.

(** ** Where the tiered layout puts a node *)

(** The row of a tier. *)
Definition row (t : Tier) : Z :=
  match t with TActor => 100 | TProcess => 500 | TStore => 900 end.

Lemma NoDup_refs_where p (store : Store) : NoDup (refs_where p store).
Proof.
  unfold refs_where, refs.
  apply NoDup_ListNoDup, List.NoDup_filter, NoDup_ListNoDup, NoDup_seq.
Qed.

Section Tiers.
Variable gridSnap : Z.
Hypothesis gridSnap_divides : (gridSnap | 100)%Z.

Lemma gridSnap_nonzero : gridSnap ≠ 0%Z.
Proof. intros ->. destruct gridSnap_divides as [k Hk]. lia. Qed.

Lemma position_each_outside tier x y sp (store : Store) i :
  i ∉ tier → position_each gridSnap tier x y sp store !! i = store !! i.
Proof.
  revert x store. induction tier as [|h tier IH]; intros x store Hi; simpl; [done |].
  apply not_elem_of_cons in Hi as [Hne Hi].
  rewrite IH by done. by apply list_lookup_alter_ne.
Qed.

Lemma position_each_at tier x y (m : Z) (store : Store) k i n :
  (gridSnap | m)%Z → NoDup tier → tier !! k = Some i → store !! i = Some n →
  position_each gridSnap tier x y (inject_Z m) store !! i
  = Some (set_position (Some (multiple_near gridSnap x + Z.of_nat k * m)%Z)
                       (Some (multiple_near gridSnap y)) n).
Proof.
  intros Hm. revert k x store.
  induction tier as [|h tier IH]; intros k x store Hnd Hk Hn; [done |].
  apply NoDup_cons in Hnd as [Hh Hnd]. simpl. destruct k as [|k]; simpl in Hk.
  - simplify_eq. rewrite position_each_outside by done.
    rewrite list_lookup_alter_eq, Hn. simpl.
    rewrite !(snapToGrid_Some gridSnap gridSnap_nonzero). do 3 f_equal. lia.
  - assert (i ≠ h) as Hne.
    { intros ->. apply Hh. by eapply list_elem_of_lookup_2. }
    rewrite (IH k) by (try done; by rewrite list_lookup_alter_ne).
    rewrite (multiple_near_shift gridSnap gridSnap_nonzero) by done.
    do 3 f_equal. lia.
Qed.

Lemma positionTier_outside tier x y sp (store : Store) i :
  i ∉ tier → positionTier gridSnap tier x y sp store !! i = store !! i.
Proof.
  intros Hi. unfold positionTier. destruct tier; [done |].
  by apply position_each_outside.
Qed.

Lemma positionTier_at tier x y (m : Z) (store : Store) :
  (gridSnap | m)%Z → NoDup tier →
  ∃ base, ∀ k i n, tier !! k = Some i → store !! i = Some n →
    positionTier gridSnap tier x y (inject_Z m) store !! i
    = Some (set_position (Some (base + Z.of_nat k * m)%Z)
                         (Some (multiple_near gridSnap y)) n).
Proof.
  intros Hm Hnd. unfold positionTier. destruct tier as [|h tier].
  - exists 0%Z. intros k i n Hk. done.
  - eexists. intros k i n Hk Hn. by apply position_each_at.
Qed.

Lemma multiple_near_row (q : Q) (m : Z) :
  (q == inject_Z m)%Q → (gridSnap | m)%Z → multiple_near gridSnap q = m.
Proof.
  intros Hq Hm. rewrite (multiple_near_comp gridSnap q (inject_Z m)) by done.
  by apply multiple_near_fixed, Hm; apply gridSnap_nonzero.
Qed.

Lemma divides_300 : (gridSnap | 300)%Z.
Proof. destruct gridSnap_divides as [k Hk]. exists (3 * k)%Z. lia. Qed.

Lemma divides_row t : (gridSnap | row t)%Z.
Proof.
  destruct gridSnap_divides as [k Hk].
  destruct t; [exists k | exists (5 * k)%Z | exists (9 * k)%Z]; simpl; lia.
Qed.

(** The members of the tier [t], in the order of the array. *)
Definition tier_refs (t : Tier) (nodes : Store) : list nat :=
  refs_where (λ n, is_tier t (tier_of (n_type n))) nodes.

Lemma elem_of_tier_refs t nodes j :
  j ∈ tier_refs t nodes ↔ ∃ n, nodes !! j = Some n ∧ tier_of (n_type n) = t.
Proof.
  unfold tier_refs. rewrite elem_of_refs_where.
  split; intros (n & Hn & Ht); exists n; (split; [done |]).
  - by destruct t, (tier_of (n_type n)).
  - subst t. by destruct (tier_of (n_type n)).
Qed.

(** After the tiered layout, the node at rank [k] of its tier stands in
    the row of the tier, [300 * k] to the right of the tier's first
    node. *)
Lemma calculateTieredLayout_places nodes ns :
  calculateTieredLayout gridSnap nodes = Normal ns →
  ∃ base : Tier → Z, ∀ j n, nodes !! j = Some n →
    ∃ k, tier_refs (tier_of (n_type n)) nodes !! k = Some j
         ∧ ns !! j
           = Some (set_position
                     (Some (base (tier_of (n_type n)) + Z.of_nat k * 300)%Z)
                     (Some (row (tier_of (n_type n)))) n).
Proof.
  intros Heq.
  set (s1 := positionTier gridSnap (tier_refs TActor nodes) 100 100 300 nodes).
  set (s2 := positionTier gridSnap (tier_refs TProcess nodes) 100 (100 + 400) 300 s1).
  assert (ns = positionTier gridSnap (tier_refs TStore nodes) 100
                 (100 + 400 + 400) 300 s2) as ->.
  { unfold calculateTieredLayout in Heq.
    destruct (existsb _ nodes); [done |]. by injection Heq as <-. }
  clear Heq.
  destruct (positionTier_at (tier_refs TActor nodes) 100 100 300 nodes
              divides_300 (NoDup_refs_where _ _)) as [ba Ha].
  destruct (positionTier_at (tier_refs TProcess nodes) 100 (100 + 400) 300 s1
              divides_300 (NoDup_refs_where _ _)) as [bp Hp].
  destruct (positionTier_at (tier_refs TStore nodes) 100 (100 + 400 + 400) 300 s2
              divides_300 (NoDup_refs_where _ _)) as [bs Hs].
  rewrite (multiple_near_row 100 (row TActor)) in Ha by (done || apply divides_row).
  rewrite (multiple_near_row (100 + 400) (row TProcess)) in Hp
    by (done || apply divides_row).
  rewrite (multiple_near_row (100 + 400 + 400) (row TStore)) in Hs
    by (done || apply divides_row).
  exists (λ t, match t with TActor => ba | TProcess => bp | TStore => bs end).
  intros j n Hn.
  assert (j ∈ tier_refs (tier_of (n_type n)) nodes) as Hin.
  { apply elem_of_tier_refs. by exists n. }
  apply list_elem_of_lookup in Hin as [k Hk]. exists k. split; [done |].
  assert (∀ t, t ≠ tier_of (n_type n) → j ∉ tier_refs t nodes) as Hout.
  { intros t Ht (n' & Hn' & <-)%elem_of_tier_refs. congruence. }
  destruct (tier_of (n_type n)) eqn:Et.
  - rewrite positionTier_outside by (by apply Hout). unfold s2.
    rewrite positionTier_outside by (by apply Hout). by apply Ha.
  - rewrite positionTier_outside by (by apply Hout).
    apply Hp; [done |]. unfold s1. rewrite positionTier_outside by (by apply Hout).
    done.
  - apply Hs; [done |]. unfold s2, s1.
    rewrite !positionTier_outside by (by apply Hout). done.
Qed.

Lemma calculateTieredLayout_lookup nodes ns j m :
  calculateTieredLayout gridSnap nodes = Normal ns → ns !! j = Some m →
  ∃ n, nodes !! j = Some n.
Proof.
  intros Heq Hj. apply identity_calculateTieredLayout in Heq.
  apply lookup_lt_is_Some.
  rewrite <- (length_map identity nodes), <- Heq, length_map.
  by eapply lookup_lt_Some.
Qed.

(** Every node stands in the row of its tier. *)
Lemma calculateTieredLayout_rows nodes ns j m :
  calculateTieredLayout gridSnap nodes = Normal ns → ns !! j = Some m →
  n_y m = Some (row (tier_of (n_type m))).
Proof.
  intros Heq Hj.
  destruct (calculateTieredLayout_lookup nodes ns j m Heq Hj) as [n Hn].
  destruct (calculateTieredLayout_places nodes ns Heq) as [base Hbase].
  destruct (Hbase j n Hn) as (k & _ & Hm). by simplify_eq.
Qed.

(** No two nodes stand at the same place. *)
Lemma calculateTieredLayout_apart nodes ns i j a b :
  calculateTieredLayout gridSnap nodes = Normal ns →
  i ≠ j → ns !! i = Some a → ns !! j = Some b →
  (n_x a, n_y a) ≠ (n_x b, n_y b).
Proof.
  intros Heq Hij Ha Hb.
  destruct (calculateTieredLayout_lookup nodes ns i a Heq Ha) as [n Hn].
  destruct (calculateTieredLayout_lookup nodes ns j b Heq Hb) as [n' Hn'].
  destruct (calculateTieredLayout_places nodes ns Heq) as [base Hbase].
  destruct (Hbase i n Hn) as (k & Hk & Hi).
  destruct (Hbase j n' Hn') as (k' & Hk' & Hj).
  simplify_eq. simpl. intros [= Hx Hy].
  assert (tier_of (n_type n) = tier_of (n_type n')) as Ht.
  { destruct (tier_of (n_type n)), (tier_of (n_type n')); try done; simpl in Hy; lia. }
  rewrite Ht in Hx, Hk. assert (k = k') as -> by lia. congruence.
Qed.

End Tiers.

End LayoutTiers.

Module LayoutToolsFacts.
Import JS JSFacts Props Layout LayoutFacts LayoutMore LayoutTools.

(** ** The bounding box *)

Lemma fold_lift2 (f : Z → Z → Z) (l : list Z) (a : Z) :
  fold_left (lift2 f) (map Some l) (Some a) = Some (fold_left f l a).
Proof. revert a. induction l as [|x l IH]; intros a; simpl; [done | apply IH]. Qed.

Lemma fold_min_spec (l : list Z) (a : Z) :
  fold_left Z.min l a ∈ a :: l ∧ ∀ x, x ∈ a :: l → (fold_left Z.min l a <= x)%Z.
Proof.
  revert a. induction l as [|y l IH]; intros a; simpl.
  - split; [by left |]. intros x ->%list_elem_of_singleton. lia.
  - destruct (IH (Z.min a y)) as [Hin Hle]. split.
    + apply elem_of_cons in Hin as [-> | Hin]; [| by do 2 right].
      destruct (Z.min_spec a y) as [[_ ->] | [_ ->]]; [by left | right; by left].
    + intros x Hx.
      assert (fold_left Z.min l (Z.min a y) <= Z.min a y)%Z as H0
        by (apply Hle; by left).
      apply elem_of_cons in Hx as [-> | [-> | Hx]%elem_of_cons]; [lia | lia |].
      apply Hle. by right.
Qed.

Lemma fold_max_spec (l : list Z) (a : Z) :
  fold_left Z.max l a ∈ a :: l ∧ ∀ x, x ∈ a :: l → (x <= fold_left Z.max l a)%Z.
Proof.
  revert a. induction l as [|y l IH]; intros a; simpl.
  - split; [by left |]. intros x ->%list_elem_of_singleton. lia.
  - destruct (IH (Z.max a y)) as [Hin Hle]. split.
    + apply elem_of_cons in Hin as [-> | Hin]; [| by do 2 right].
      destruct (Z.max_spec a y) as [[_ ->] | [_ ->]]; [right; by left | by left].
    + intros x Hx.
      assert (Z.max a y <= fold_left Z.max l (Z.max a y))%Z as H0
        by (apply Hle; by left).
      apply elem_of_cons in Hx as [-> | [-> | Hx]%elem_of_cons]; [lia | lia |].
      apply Hle. by right.
Qed.

Lemma Math_min_of_spec (l : list Z) :
  l ≠ [] →
  ∃ m, Math_min_of (map Some l) = Some m ∧ m ∈ l ∧ ∀ x, x ∈ l → (m <= x)%Z.
Proof.
  destruct l as [|a l]; [done |]. intros _. simpl. rewrite fold_lift2.
  eexists. split; [done |]. apply fold_min_spec.
Qed.

Lemma Math_max_of_spec (l : list Z) :
  l ≠ [] →
  ∃ m, Math_max_of (map Some l) = Some m ∧ m ∈ l ∧ ∀ x, x ∈ l → (x <= m)%Z.
Proof.
  destruct l as [|a l]; [done |]. intros _. simpl. rewrite fold_lift2.
  eexists. split; [done |]. apply fold_max_spec.
Qed.

(** Every node has both coordinates. *)
Definition placed (nodes : list Node) : Prop :=
  Forall (λ n, is_Some (n_x n) ∧ is_Some (n_y n)) nodes.

Lemma placed_coordinates nodes :
  placed nodes →
  ∃ xs ys, map n_x nodes = map Some xs ∧ map n_y nodes = map Some ys.
Proof.
  induction 1 as [|n nodes [[x Hx] [y Hy]] _ (xs & ys & Hxs & Hys)].
  - by exists [], [].
  - exists (x :: xs), (y :: ys). simpl. by rewrite Hx, Hy, Hxs, Hys.
Qed.

Lemma elem_of_coordinates {A} (f : A → option Z) (l : list A) (zs : list Z) z :
  map f l = map Some zs → z ∈ zs ↔ ∃ a, a ∈ l ∧ f a = Some z.
Proof.
  intros H. split.
  - intros Hz. assert (Some z ∈ map f l) as Hin.
    { rewrite H. by apply list_elem_of_fmap_2. }
    apply list_elem_of_fmap in Hin as (a & Ha & Hin). by exists a.
  - intros (a & Ha & Hz). assert (Some z ∈ map Some zs) as Hin.
    { rewrite <- H, <- Hz. by apply list_elem_of_fmap_2. }
    apply list_elem_of_fmap in Hin as (z' & [= <-] & Hin). done.
Qed.

(** The box of an array of placed nodes holds every node and touches a
    node on each side. *)
Lemma calculateBoundingBox_encloses nodes :
  nodes ≠ [] → placed nodes →
  ∃ x0 y0 x1 y1,
    calculateBoundingBox nodes
    = mkBoundingBox (Some x0) (Some y0) (Some x1) (Some y1)
                    (Some (x1 - x0)%Z) (Some (y1 - y0)%Z)
    ∧ (∀ n, n ∈ nodes → ∃ x y, n_x n = Some x ∧ n_y n = Some y
                              ∧ (x0 <= x <= x1)%Z ∧ (y0 <= y <= y1)%Z)
    ∧ (∃ n, n ∈ nodes ∧ n_x n = Some x0) ∧ (∃ n, n ∈ nodes ∧ n_x n = Some x1)
    ∧ (∃ n, n ∈ nodes ∧ n_y n = Some y0) ∧ (∃ n, n ∈ nodes ∧ n_y n = Some y1).
Proof.
  intros Hne Hp. destruct (placed_coordinates nodes Hp) as (xs & ys & Hxs & Hys).
  assert (xs ≠ [] ∧ ys ≠ []) as [Hxne Hyne].
  { destruct nodes; [done |]. by destruct xs, ys. }
  destruct (Math_min_of_spec xs Hxne) as (x0 & Hx0 & Hin0 & Hle0).
  destruct (Math_max_of_spec xs Hxne) as (x1 & Hx1 & Hin1 & Hle1).
  destruct (Math_min_of_spec ys Hyne) as (y0 & Hy0 & Hiny0 & Hley0).
  destruct (Math_max_of_spec ys Hyne) as (y1 & Hy1 & Hiny1 & Hley1).
  exists x0, y0, x1, y1. split; [| split].
  - unfold calculateBoundingBox. destruct nodes as [|n nodes]; [done |].
    by rewrite Hxs, Hys, Hx0, Hx1, Hy0, Hy1.
  - intros n Hn. unfold placed in Hp. rewrite Forall_forall in Hp.
    destruct (Hp n Hn) as [[x Hx] [y Hy]]. exists x, y.
    assert (x ∈ xs) by (apply (elem_of_coordinates n_x nodes); [done | by exists n]).
    assert (y ∈ ys) by (apply (elem_of_coordinates n_y nodes); [done | by exists n]).
    repeat split; auto.
  - repeat split.
    + by apply (elem_of_coordinates n_x nodes xs).
    + by apply (elem_of_coordinates n_x nodes xs).
    + by apply (elem_of_coordinates n_y nodes ys).
    + by apply (elem_of_coordinates n_y nodes ys).
Qed.

(** ** Centring *)

Section Center.
Variable gridSnap : Z.
Hypothesis gridSnap_nonzero : gridSnap ≠ 0%Z.

Lemma center_node_snapped ox oy n :
  snapped gridSnap n →
  center_node gridSnap (Some ox) (Some oy) n
  = set_position ((λ x, x + multiple_near gridSnap ox)%Z <$> n_x n)
                 ((λ y, y + multiple_near gridSnap oy)%Z <$> n_y n) n.
Proof.
  intros (x & y & Hx & Hy & Hrx & Hry). unfold center_node, snap_sum.
  rewrite Hx, Hy. simpl.
  apply Z.rem_divide in Hrx, Hry; try done.
  rewrite !(snapToGrid_Some gridSnap gridSnap_nonzero).
  rewrite (multiple_near_comp gridSnap _ (ox + inject_Z x)) by apply Qplus_comm.
  rewrite (multiple_near_comp gridSnap (_ + oy) (oy + inject_Z y)) by apply Qplus_comm.
  rewrite !(multiple_near_shift gridSnap gridSnap_nonzero) by done.
  f_equal; f_equal; lia.
Qed.

Lemma snapped_placed nodes : Forall (snapped gridSnap) nodes → placed nodes.
Proof.
  intros H. eapply Forall_impl; [exact H |].
  intros n (x & y & Hx & Hy & _). by rewrite Hx, Hy.
Qed.

(** On nodes that stand on the grid, [centerDiagram] is a translation by
    a vector of the grid. *)
Lemma centerDiagram_translates nodes :
  Forall (snapped gridSnap) nodes →
  ∃ dx dy, (gridSnap | dx)%Z ∧ (gridSnap | dy)%Z
    ∧ centerDiagram gridSnap nodes
      = map (λ n, set_position ((λ x, x + dx)%Z <$> n_x n)
                               ((λ y, y + dy)%Z <$> n_y n) n) nodes.
Proof.
  intros Hs. unfold centerDiagram.
  assert (∃ w h x0 y0,
            width (calculateBoundingBox nodes) = Some w
            ∧ height (calculateBoundingBox nodes) = Some h
            ∧ minX (calculateBoundingBox nodes) = Some x0
            ∧ minY (calculateBoundingBox nodes) = Some y0)
    as (w & h & x0 & y0 & -> & -> & -> & ->).
  { destruct (decide (nodes = [])) as [-> | Hne]; [by eexists _, _, _, _ |].
    destruct (calculateBoundingBox_encloses nodes Hne (snapped_placed nodes Hs))
      as (x0 & y0 & x1 & y1 & -> & _).
    by eexists _, _, _, _. }
  simpl. eexists _, _. split; [| split].
  - by eexists.
  - by eexists.
  - apply map_ext_in. intros n Hn. apply center_node_snapped.
    rewrite Forall_forall in Hs. by apply Hs, list_elem_of_In.
Qed.

End Center.

End LayoutToolsFacts.

Module ExtractorMore.
Import JS JSFacts Props Regex Patterns Runtime PatternHelpers Extractor.
Import ExtractorFacts SetFacts.

(** ** Invariants *)

(** [m] keeps the property [I] of the state. *)
Definition inv {A} (I : St → Prop) (m : M A) : Prop := hoare I m (λ _, I).

Lemma inv_ret {A} I (a : A) : inv I (ret a).
Proof. apply hoare_ret. Qed.

Lemma inv_bind {A B} I (m : M A) (k : A → M B) :
  inv I m → (∀ a, inv I (k a)) → inv I (bind m k).
Proof. intros Hm Hk. eapply hoare_bind; [exact Hm | exact Hk]. Qed.

Lemma inv_forEach {A} I (l : list A) (body : A → M unit) :
  (∀ x, inv I (body x)) → inv I (forEach l body).
Proof. intros H. apply hoare_forEach. intros x _. apply H. Qed.

Lemma inv_forEach_seen {A} I (l : list A) seen
    (body : A → list string → M (list string)) :
  (∀ x seen, inv I (body x seen)) → inv I (forEach_seen l seen body).
Proof. intros H. apply hoare_forEach_seen. intros x s _. apply H. Qed.

Lemma inv_if {A} I (b : bool) (m1 m2 : M A) :
  inv I m1 → inv I m2 → inv I (if b then m1 else m2).
Proof. by destruct b. Qed.

(** A computation that leaves the node map alone keeps every property
    of it. *)
Definition reads {A} (m : M A) : Prop := ∀ s, nodes (snd (m s)) = nodes s.

Section NodeInvariant.
Variable P : list (string * ENode) → Prop.

Definition on_nodes (s : St) : Prop := P (nodes s).

Lemma inv_reads {A} (m : M A) : reads m → inv on_nodes m.
Proof. intros H s Hs. unfold on_nodes. by rewrite H. Qed.

Lemma inv_test p s : inv on_nodes (test p s).
Proof.
  apply inv_reads. intros st. unfold test.
  by destruct (RegExp_test p s (lastIndex st)).
Qed.

Lemma inv_uuidv4 : inv on_nodes uuidv4.
Proof. by apply inv_reads. Qed.

Lemma inv_get_nodes : inv on_nodes get_nodes.
Proof. by apply inv_reads. Qed.

Lemma inv_get_connections : inv on_nodes get_connections.
Proof. by apply inv_reads. Qed.

Lemma inv_set_connections cs : inv on_nodes (set_connections cs).
Proof. by apply inv_reads. Qed.

Ltac inv_tac :=
  repeat first
    [ apply inv_ret | apply inv_test | apply inv_uuidv4
    | apply inv_get_nodes | apply inv_get_connections | apply inv_set_connections
    | apply inv_bind; [| intros ?]
    | apply inv_if
    | match goal with
      | |- inv _ (match ?x with _ => _ end) => destruct x
      | |- inv _ (let (_, _) := ?x in _) => destruct x
      end
    | assumption ].

Lemma inv_classifyNodeType name role context :
  inv on_nodes (classifyNodeType name role context).
Proof. unfold classifyNodeType. inv_tac. Qed.

Lemma inv_test_services entries text services :
  inv on_nodes (test_services entries text services).
Proof.
  revert services. induction entries as [|[service pattern] rest IH];
    intros services; simpl; [apply inv_ret |].
  apply inv_bind; [apply inv_test | intros found; apply IH].
Qed.

Lemma inv_extractServices text : inv on_nodes (extractServices text).
Proof.
  unfold extractServices. apply inv_bind; [apply inv_test_services |].
  intros ?. apply inv_ret.
Qed.

Lemma inv_first_protocol entries context :
  inv on_nodes (first_protocol entries context).
Proof.
  induction entries as [|[protocol pattern] rest IH]; simpl; [apply inv_ret |].
  apply inv_bind; [apply inv_test |]. intros []; [apply inv_ret | done].
Qed.

Lemma inv_detectProtocol context : inv on_nodes (detectProtocol context).
Proof. apply inv_first_protocol. Qed.

Lemma inv_getOrCreateNodeId name : inv on_nodes (getOrCreateNodeId name).
Proof. unfold getOrCreateNodeId. inv_tac. Qed.

Lemma inv_connection_match text names index m :
  inv on_nodes (connection_match text names index m).
Proof.
  unfold connection_match.
  repeat first [ progress inv_tac | apply inv_detectProtocol ].
Qed.

Lemma inv_extractConnectionsFromText text :
  inv on_nodes (extractConnectionsFromText text).
Proof.
  unfold extractConnectionsFromText.
  apply inv_bind; [apply inv_get_nodes |]. intros ns.
  apply inv_forEach. intros [index pattern]. apply inv_forEach. intros m.
  apply inv_connection_match.
Qed.

Lemma inv_merge_vision_connection v : inv on_nodes (merge_vision_connection v).
Proof. unfold merge_vision_connection. inv_tac. Qed.

(** What is left to show of a property of the node map: that
    [addOrUpdateNode] and the confirmation by a vision node keep it. *)
Hypothesis P_add : ∀ n, inv on_nodes (addOrUpdateNode n).
Hypothesis P_confirm : ∀ v ns,
  P ns →
  P (update_first (name_or_ip (nd_name v) (nd_ipAddress v)) (confirm_by_vision v) ns).

Ltac inv_code :=
  repeat first
    [ apply P_add | apply inv_classifyNodeType | apply inv_extractServices
    | apply inv_detectProtocol | apply inv_getOrCreateNodeId
    | apply inv_ret | apply inv_get_nodes
    | apply inv_bind; [| intros ?]
    | apply inv_if
    | match goal with
      | |- inv _ (match ?x with _ => _ end) => destruct x
      | |- inv _ (let (_, _) := ?x in _) => destruct x
      end ].

Lemma inv_table_row text m : inv on_nodes (table_row text m).
Proof. unfold table_row. inv_code. Qed.

Lemma inv_inline_node text m : inv on_nodes (inline_node text m).
Proof. unfold inline_node. inv_code. Qed.

Lemma inv_os_match text hint role m seen :
  inv on_nodes (os_match text hint role m seen).
Proof. unfold os_match. inv_code. Qed.

Lemma inv_instrumentation text p seen :
  inv on_nodes (instrumentation text p seen).
Proof. unfold instrumentation. inv_code. Qed.

Lemma inv_system_name text m seen : inv on_nodes (system_name text m seen).
Proof. unfold system_name. inv_code. Qed.

Lemma inv_extractNodesFromText text : inv on_nodes (extractNodesFromText text).
Proof.
  unfold extractNodesFromText, extractFromTableRows, extractFromInlineFormat,
    extractFromSystemNames.
  repeat first
    [ apply inv_bind; [| intros ?]
    | apply inv_ret
    | apply inv_forEach; intros ?
    | apply inv_forEach_seen; intros ? ?
    | apply inv_table_row | apply inv_inline_node | apply inv_os_match
    | apply inv_instrumentation | apply inv_system_name ].
Qed.

Lemma inv_merge_vision_node v : inv on_nodes (merge_vision_node v).
Proof.
  intros s Hs. unfold merge_vision_node, bind, get_nodes.
  destruct (findNodeByNameOrIP _ _ (nodes s)).
  - unfold on_nodes. simpl. by apply P_confirm.
  - by apply P_add.
Qed.

Lemma inv_mergeVisionResults v : inv on_nodes (mergeVisionResults v).
Proof.
  unfold mergeVisionResults. destruct (vr_nodes v); [| apply inv_ret].
  apply inv_bind; [apply inv_forEach, inv_merge_vision_node |]. intros ?.
  destruct (vr_connections v); [| apply inv_ret].
  apply inv_forEach, inv_merge_vision_connection.
Qed.

Hypothesis P_nil : P [].

(** The node map that [collect] builds has the property. *)
Lemma collect_on_nodes text vision s : P (nodes (snd (collect text vision s))).
Proof.
  assert (hoare (λ _, True) (collect text vision) (λ _, on_nodes)) as H;
    [| by apply H].
  unfold collect.
  eapply hoare_bind with (R := λ _, on_nodes); [intros s0 _; exact P_nil |].
  intros ?. apply inv_bind; [apply inv_set_connections |]. intros ?.
  apply inv_bind; [apply inv_extractNodesFromText |]. intros ?.
  apply inv_bind; [apply inv_extractConnectionsFromText |]. intros ?.
  destruct vision; [apply inv_mergeVisionResults | apply inv_ret].
Qed.

End NodeInvariant.

End ExtractorMore.

Module ExtractorNames.
Import JS JSFacts Props Regex Patterns Runtime PatternHelpers Extractor.
Import ExtractorFacts SetFacts ExtractorMore.

(** ** The node map is keyed by the names of its nodes *)

Definition keyed_by_name (ns : list (string * ENode)) : Prop :=
  NoDup (map fst ns) ∧ Forall (λ kv, nd_name (snd kv) = fst kv) ns.

Lemma nodes_get_Some key ns n :
  nodes_get key ns = Some n → (key, n) ∈ ns.
Proof.
  unfold nodes_get. destruct (List.find _ ns) as [[k v]|] eqn:E; [| done].
  simpl. intros [= <-]. apply find_some in E as [Hin Hk]. simpl in Hk.
  apply String.eqb_eq in Hk as ->. by apply list_elem_of_In.
Qed.

Lemma nodes_get_None key ns : nodes_get key ns = None → key ∉ map fst ns.
Proof.
  unfold nodes_get. destruct (List.find _ ns) eqn:E; [done |]. intros _ Hin.
  apply list_elem_of_fmap in Hin as ([k v] & -> & Hin).
  apply list_elem_of_In in Hin. apply (find_none _ _ E) in Hin. simpl in Hin.
  by rewrite String.eqb_refl in Hin.
Qed.

Lemma nodes_set_keys key v ns :
  map fst (nodes_set key v ns)
  = if bool_decide (key ∈ map fst ns) then map fst ns else map fst ns ++ [key].
Proof.
  induction ns as [|[k w] ns IH].
  - by rewrite bool_decide_eq_false_2 by apply not_elem_of_nil.
  - simpl.
    destruct (String.eqb k key) eqn:E; simpl.
    + apply String.eqb_eq in E as ->.
      by rewrite bool_decide_eq_true_2 by by left.
    + apply String.eqb_neq in E. rewrite IH.
      destruct (decide (key ∈ map fst ns)) as [Hin | Hout].
      * rewrite !bool_decide_eq_true_2; [done | by right | done].
      * rewrite !bool_decide_eq_false_2; [done | | done].
        intros [-> | H]%elem_of_cons; done.
Qed.

Lemma nodes_set_Forall (Q : string * ENode → Prop) key v ns :
  Forall Q ns → Q (key, v) → Forall Q (nodes_set key v ns).
Proof.
  intros H Hv. induction H as [|[k w] ns Hk Hns IH]; simpl.
  - by repeat constructor.
  - destruct (String.eqb k key) eqn:E.
    + apply String.eqb_eq in E as ->. by constructor.
    + by constructor.
Qed.

Lemma nodes_set_keyed key v ns :
  nd_name v = key → keyed_by_name ns → keyed_by_name (nodes_set key v ns).
Proof.
  intros Hv [Hnd Hn]. split.
  - rewrite nodes_set_keys. case_bool_decide as Hin; [done |].
    apply NoDup_app. split; [done |]. split; [| apply NoDup_singleton].
    by intros k Hk ->%list_elem_of_singleton.
  - apply nodes_set_Forall; try done.
Qed.

Lemma addOrUpdateNode_keyed n : inv (on_nodes keyed_by_name) (addOrUpdateNode n).
Proof.
  intros s Hs. unfold addOrUpdateNode, bind, get_nodes, on_nodes in *.
  destruct (nodes_get (nd_name n) (nodes s)) as [e|] eqn:E; simpl.
  - apply nodes_set_keyed; [| done]. simpl.
    apply nodes_get_Some in E. destruct Hs as [_ Hn].
    rewrite Forall_forall in Hn. by apply (Hn _ E).
  - by apply nodes_set_keyed.
Qed.

Lemma update_first_keys p f ns : map fst (update_first p f ns) = map fst ns.
Proof.
  induction ns as [|[k v] ns IH]; simpl; [done |].
  destruct (p v); simpl; [done | by rewrite IH].
Qed.

Lemma update_first_keyed p f ns :
  (∀ n, nd_name (f n) = nd_name n) →
  keyed_by_name ns → keyed_by_name (update_first p f ns).
Proof.
  intros Hf [Hnd Hn]. split; [by rewrite update_first_keys |].
  clear Hnd. induction Hn as [|[k v] ns Hk Hns IH]; simpl; [constructor |].
  destruct (p v); constructor; simpl in *; auto. by rewrite Hf.
Qed.

Lemma collect_keyed text vision s :
  keyed_by_name (nodes (snd (collect text vision s))).
Proof.
  apply collect_on_nodes.
  - apply addOrUpdateNode_keyed.
  - intros v ns. by apply update_first_keyed.
  - split; constructor.
Qed.

(** The nodes [extract] returns have names of their own. *)
Lemma extract_names_NoDup text vision s :
  NoDup (map nd_name (ex_nodes (fst (extract text vision s)))).
Proof.
  rewrite extract_result. simpl. rewrite !map_map. simpl.
  destruct (collect_keyed text vision s) as [Hnd Hn].
  rewrite (map_ext_in _ fst); [done |].
  intros kv Hin. rewrite Forall_forall in Hn. by apply Hn, list_elem_of_In.
Qed.

End ExtractorNames.

Module ExtractorText.
Import JS JSFacts Props Regex Patterns Runtime PatternHelpers Extractor.
Import ExtractorFacts SetFacts ExtractorMore.

(** ** The connections found in the text *)

(** What [detectProtocol] can return. *)
Definition protocol_names : list string :=
  ["HTTPS"; "HTTP"; "SSH"; "RDP"; "MYSQL"; "POSTGRESQL"; "SMB"; "LDAP"; "DNS"; "TCP"].

Lemma first_protocol_names entries context s :
  fst (first_protocol entries context s)
  ∈ map (λ e, toUpperCase (fst e)) entries ++ ["TCP"].
Proof.
  revert s. induction entries as [|[protocol pattern] rest IH]; intros s; simpl.
  - by left.
  - unfold bind. destruct (test pattern context s) as [[] s']; simpl.
    + by left.
    + right. apply IH.
Qed.

Lemma detectProtocol_names context s :
  fst (detectProtocol context s) ∈ protocol_names.
Proof. apply (first_protocol_names T2TPatterns.protocolPatterns.entries). Qed.

Lemma isEncryptedProtocol_names p :
  p ∈ protocol_names →
  isEncryptedProtocol p = true ↔ p = "HTTPS" ∨ p = "SSH".
Proof.
  unfold protocol_names. intros H.
  repeat (apply elem_of_cons in H as [-> | H]);
    [.. | by apply elem_of_nil in H];
    (split; [intros Hp; vm_compute in Hp; first [done | by left | by right]
            | intros [Hp | Hp]; first [done | by vm_compute]]).
Qed.

(** [id] is the id of a node of the map. *)
Definition has_id (ns : list (string * ENode)) (id : option string) : Prop :=
  ∃ kv, kv ∈ ns ∧ nd_id (snd kv) = id.

(** A connection as [extractConnectionsFromText] builds it over the node
    map [ns]. *)
Definition text_made (ns : list (string * ENode)) (c : EConn) : Prop :=
  has_id ns (cn_sourceId c) ∧ has_id ns (cn_targetId c)
  ∧ cn_protocol c ∈ protocol_names
  ∧ cn_isEncrypted c = isEncryptedProtocol (cn_protocol c)
  ∧ cn_isPublicNetwork c = false.

Definition text_state (ns : list (string * ENode)) (s : St) : Prop :=
  nodes s = ns ∧ Forall (text_made ns) (connections s).

Lemma nodes_get_has_id key ns n : nodes_get key ns = Some n → has_id ns (nd_id n).
Proof.
  unfold nodes_get. destruct (List.find _ ns) as [kv|] eqn:E; [| done].
  simpl. intros [= <-]. apply find_some in E as [Hin _].
  exists kv. split; [by apply list_elem_of_In | done].
Qed.

Lemma connection_match_text ns text names index m :
  inv (text_state ns) (connection_match text names index m).
Proof.
  intros s [Hns Hcs]. unfold connection_match.
  destruct (if _ : bool then _ else _) as [[sourceName|] [targetName|]];
    try (by split).
  destruct (_ || _); [by split |].
  unfold bind at 1. simpl.
  destruct (nodes_get sourceName (nodes s)) as [sourceNode|] eqn:Es; [| by split].
  destruct (nodes_get targetName (nodes s)) as [targetNode|] eqn:Et; [| by split].
  case_bool_decide as Hloop; [by split |].
  unfold bind at 1.
  set (context := getContextWindow text (sourceName +:+ " " +:+ targetName)).
  pose proof (keeps_detectProtocol context s) as Hk.
  pose proof (inv_detectProtocol (λ l, l = ns) context s Hns) as Hr.
  pose proof (detectProtocol_names context s) as Hp.
  destruct (detectProtocol context s) as [protocol s1]. simpl in Hk, Hr, Hp.
  unfold on_nodes in Hr. unfold bind at 1. simpl.
  destruct (find_connection _ _ (connections s1)); simpl.
  - split; [done | by rewrite Hk].
  - split; [done |]. rewrite Hk. apply Forall_app. split; [done |].
    constructor; [| constructor]. rewrite <- Hns.
    repeat split; simpl; eauto using nodes_get_has_id.
Qed.

Lemma extractConnectionsFromText_text ns text :
  inv (text_state ns) (extractConnectionsFromText text).
Proof.
  unfold extractConnectionsFromText.
  apply inv_bind; [by intros s Hs |]. intros names.
  apply inv_forEach. intros [index pattern]. apply inv_forEach. intros m.
  apply connection_match_text.
Qed.

(** Without vision results, every connection gathered was built over the
    node map gathered. *)
Lemma collect_text text s :
  Forall (text_made (nodes (snd (collect text None s))))
         (connections (snd (collect text None s))).
Proof.
  assert (hoare (λ _, True) (collect text None)
                (λ _ s', text_state (nodes s') s')) as H; [| by apply H].
  unfold collect.
  eapply hoare_bind with (R := λ _ _, True); [done |]. intros ?.
  eapply hoare_bind with (R := λ _ s', connections s' = []); [done |]. intros ?.
  eapply hoare_bind with (R := λ _ s', connections s' = []).
  { apply (keeps_invariant (λ cs, cs = [])), keeps_extractNodesFromText. }
  intros ?.
  eapply hoare_bind with (R := λ _ s', text_state (nodes s') s').
  { intros s0 Hs0.
    pose proof (extractConnectionsFromText_text (nodes s0) text s0) as H.
    destruct H as [H1 H2]; [split; [done | rewrite Hs0; constructor] |].
    split; [done | by rewrite H1]. }
  intros ?. apply hoare_ret.
Qed.

Lemma adjust_node_id n : nd_id (adjust_node n) = nd_id n.
Proof. done. Qed.

Lemma adjust_connection_fields ns c :
  cn_sourceId (adjust_connection ns c) = cn_sourceId c
  ∧ cn_targetId (adjust_connection ns c) = cn_targetId c
  ∧ cn_protocol (adjust_connection ns c) = cn_protocol c
  ∧ cn_isEncrypted (adjust_connection ns c) = cn_isEncrypted c
  ∧ cn_isPublicNetwork (adjust_connection ns c) = cn_isPublicNetwork c.
Proof. unfold adjust_connection. by repeat case_match. Qed.

(** Without vision results, both ends of every connection returned are
    ids of nodes returned, its protocol is one of ten names, and it is
    marked encrypted exactly when the protocol is HTTPS or SSH. *)
Lemma extract_text_connections text s c :
  c ∈ ex_connections (fst (extract text None s)) →
  (∃ n, n ∈ ex_nodes (fst (extract text None s)) ∧ nd_id n = cn_sourceId c)
  ∧ (∃ n, n ∈ ex_nodes (fst (extract text None s)) ∧ nd_id n = cn_targetId c)
  ∧ cn_protocol c ∈ protocol_names
  ∧ (cn_isEncrypted c = true ↔ cn_protocol c = "HTTPS" ∨ cn_protocol c = "SSH")
  ∧ cn_isPublicNetwork c = false.
Proof.
  rewrite extract_result. simpl.
  intros (c0 & -> & Hc0)%list_elem_of_fmap.
  pose proof (collect_text text s) as H. rewrite Forall_forall in H.
  destruct (H c0 Hc0) as ((ks & Hks & Hs) & (kt & Hkt & Ht) & Hp & He & Hn).
  set (ns' := map _ (nodes _)).
  destruct (adjust_connection_fields ns' c0) as (-> & -> & -> & -> & ->).
  assert (∀ kv, kv ∈ nodes (snd (collect text None s)) →
            adjust_node (snd kv) ∈ map snd ns') as Hin.
  { intros kv Hkv. unfold ns'. rewrite map_map. simpl.
    by apply (list_elem_of_fmap_2 (λ x, adjust_node (snd x))). }
  split; [exists (adjust_node (snd ks)); split; [by apply Hin | done] |].
  split; [exists (adjust_node (snd kt)); split; [by apply Hin | done] |].
  split; [done |]. split; [| done].
  rewrite He. by apply isEncryptedProtocol_names.
Qed.

End ExtractorText.

Module StringFacts.
Import JS JSFacts Props.

(** ** Prefixes, suffixes and occurrences *)

Lemma take_drop_str n s : take_str n s +:+ drop_str n s = s.
Proof.
  revert s. induction n as [|n IH]; intros [|c s]; simpl; try done.
  rewrite ?append_cons. by rewrite IH.
Qed.

Lemma length_take_str n s : String.length (take_str n s) = Nat.min n (String.length s).
Proof.
  revert s. induction n as [|n IH]; intros [|c s]; simpl; try done.
  by rewrite IH.
Qed.

Lemma length_drop_str n s : String.length (drop_str n s) = (String.length s - n)%nat.
Proof.
  revert s. induction n as [|n IH]; intros [|c s]; simpl; try done.
Qed.

Lemma length_append (a b : string) :
  String.length (a +:+ b) = (String.length a + String.length b)%nat.
Proof. induction a as [|c a IH]; simpl; [done |]. rewrite ?append_cons. simpl. lia. Qed.

Lemma drop_str_app a b : drop_str (String.length a) (a +:+ b) = b.
Proof. induction a as [|c a IH]; simpl; [by destruct b |]. by rewrite ?append_cons. Qed.

Lemma take_str_app a b : take_str (String.length a) (a +:+ b) = a.
Proof.
  induction a as [|c a IH]; simpl; [by destruct b |].
  rewrite ?append_cons. simpl. by rewrite IH.
Qed.

Lemma drop_str_app_le n a b :
  n ≤ String.length a → drop_str n (a +:+ b) = drop_str n a +:+ b.
Proof.
  revert a. induction n as [|n IH]; intros a Hn; [by destruct a, b |].
  destruct a as [|c a]; simpl in *; [lia |]. rewrite ?append_cons. simpl.
  apply IH. lia.
Qed.

Lemma take_str_app_ge n a b :
  String.length a ≤ n →
  take_str n (a +:+ b) = a +:+ take_str (n - String.length a) b.
Proof.
  revert n. induction a as [|c a IH]; intros n Hn; simpl.
  - by rewrite Nat.sub_0_r.
  - destruct n as [|n]; simpl in *; [lia |]. rewrite ?append_cons. simpl.
    rewrite IH by lia. done.
Qed.

Lemma occurs_in_substring s a b : occurs_in (substring s a b) s.
Proof.
  unfold substring, occurs_in.
  exists (take_str a s), (drop_str (b - a) (drop_str a s)).
  by rewrite take_drop_str, take_drop_str.
Qed.

Lemma length_substring s a b : String.length (substring s a b) ≤ b - a.
Proof. unfold substring. rewrite length_take_str. lia. Qed.

(** A window that starts before an occurrence and ends after it holds
    the occurrence. *)
Lemma substring_holds pre p post a b :
  a ≤ String.length pre → String.length pre + String.length p ≤ b →
  occurs_in p (substring (pre +:+ p +:+ post) a b).
Proof.
  intros Ha Hb. unfold substring, occurs_in.
  rewrite drop_str_app_le by done.
  exists (drop_str a pre), (take_str (b - a - String.length (drop_str a pre) - String.length p) post).
  rewrite take_str_app_ge by (rewrite length_drop_str; lia).
  rewrite take_str_app_ge by (rewrite length_drop_str; lia).
  done.
Qed.

Lemma startsWith_spec p s : startsWith p s = true ↔ ∃ rest, s = p +:+ rest.
Proof.
  revert s. induction p as [|a p IH]; intros s; simpl.
  - split; [intros _; by exists s | done].
  - destruct s as [|b s].
    + split; [done | intros [rest H]; by rewrite ?append_cons in H].
    + rewrite andb_true_iff, Ascii.eqb_eq, IH. split.
      * intros [-> [rest ->]]. exists rest. by rewrite ?append_cons.
      * intros [rest H]. rewrite ?append_cons in H. injection H as -> ->.
        split; [done | by exists rest].
Qed.

Lemma indexOf_from_Some p s i j :
  indexOf_from p s i = Some j →
  ∃ pre post, s = pre +:+ p +:+ post ∧ j = (i + String.length pre)%nat.
Proof.
  revert i. induction s as [|c s IH]; intros i; simpl.
  - destruct (startsWith p "") eqn:E; [| done]. intros [= <-].
    apply startsWith_spec in E as [rest E]. exists "", rest. simpl. split; [done | lia].
  - destruct (startsWith p (String c s)) eqn:E.
    + intros [= <-]. apply startsWith_spec in E as [rest E].
      exists "", rest. simpl. split; [done | lia].
    + intros (pre & post & -> & ->)%IH. exists (String c pre), post.
      rewrite ?append_cons. simpl. split; [done | lia].
Qed.

Lemma indexOf_from_occurs p s i :
  occurs_in p s → is_Some (indexOf_from p s i).
Proof.
  intros (pre & post & ->). revert i. induction pre as [|c pre IH]; intros i.
  - simpl. destruct (p +:+ post) eqn:E; simpl.
    + assert (startsWith p "" = true) as ->; [| done].
      apply startsWith_spec. exists post. by rewrite E.
    + assert (startsWith p (String a s) = true) as ->; [| done].
      apply startsWith_spec. exists post. by rewrite E.
  - rewrite ?append_cons. simpl.
    destruct (startsWith p (String c (pre +:+ p +:+ post))); [done | apply IH].
Qed.

Lemma toLowerCase_app a b : toLowerCase (a +:+ b) = toLowerCase a +:+ toLowerCase b.
Proof. induction a as [|c a IH]; simpl; [done |]. by rewrite ?append_cons, IH. Qed.

Lemma length_toLowerCase s : String.length (toLowerCase s) = String.length s.
Proof. induction s as [|c s IH]; simpl; [done | by rewrite IH]. Qed.

Lemma toLowerCase_take n s : toLowerCase (take_str n s) = take_str n (toLowerCase s).
Proof.
  revert s. induction n as [|n IH]; intros [|c s]; simpl; try done. by rewrite IH.
Qed.

Lemma toLowerCase_drop n s : toLowerCase (drop_str n s) = drop_str n (toLowerCase s).
Proof.
  revert s. induction n as [|n IH]; intros [|c s]; simpl; try done.
Qed.

Lemma toLowerCase_substring s a b :
  toLowerCase (substring s a b) = substring (toLowerCase s) a b.
Proof. unfold substring. by rewrite toLowerCase_take, toLowerCase_drop. Qed.

Lemma includes_occurs s p : includes s p = true ↔ occurs_in p s.
Proof.
  unfold includes, indexOf. split.
  - destruct (indexOf_from p s 0) eqn:E; [| done]. intros _.
    apply indexOf_from_Some in E as (pre & post & -> & _). by exists pre, post.
  - intros H. by destruct (indexOf_from_occurs p s 0 H) as [j ->].
Qed.

End StringFacts.

Module ContextFacts.
Import JS JSFacts Props PatternHelpers StringFacts.

(** ** The context window *)

(** The window is a piece of the text of at most 200 characters on each
    side of the keyword. *)
Lemma getContextWindow_piece text keyword :
  occurs_in (getContextWindow text keyword) text
  ∧ String.length (getContextWindow text keyword) ≤ String.length keyword + 400.
Proof.
  unfold getContextWindow. destruct (indexOf _ _) as [index|].
  - split; [apply occurs_in_substring |].
    etrans; [apply length_substring |]. lia.
  - split; [exists "", text; done | simpl; lia].
Qed.

(** When the keyword occurs in the text, whatever the case of the
    letters, it occurs in the window as well. *)
Lemma getContextWindow_holds text keyword :
  includes (toLowerCase text) (toLowerCase keyword) = true →
  includes (toLowerCase (getContextWindow text keyword)) (toLowerCase keyword) = true.
Proof.
  unfold getContextWindow, includes at 1.
  destruct (indexOf (toLowerCase text) (toLowerCase keyword)) as [index|] eqn:E;
    [| done].
  intros _. apply includes_occurs. rewrite toLowerCase_substring.
  apply indexOf_from_Some in E as (pre & post & Ht & ->). simpl.
  rewrite Ht. apply substring_holds; [lia |].
  rewrite <- (length_toLowerCase text), Ht, !length_append, length_toLowerCase.
  lia.
Qed.

Lemma getContextWindow_absent text keyword :
  includes (toLowerCase text) (toLowerCase keyword) = false →
  getContextWindow text keyword = "".
Proof.
  unfold getContextWindow, includes. by destruct (indexOf _ _).
Qed.

End ContextFacts.

Module ServiceFacts.
Import JS JSFacts Props Regex Patterns Runtime PatternHelpers Extractor SetFacts.

(** ** The services of a node *)

Lemma test_services_NoDup entries text services s :
  NoDup services → NoDup (fst (test_services entries text services s)).
Proof.
  revert services s. induction entries as [|[service pattern] rest IH];
    intros services s H; simpl; [done |].
  unfold bind. destruct (test pattern text s) as [found s']. apply IH.
  destruct found; [by apply set_add_NoDup | done].
Qed.

Lemma fold_set_add_map_NoDup {A} (g : A → string) (l : list A) acc :
  NoDup acc → NoDup (fold_left (λ services m, set_add (g m) services) l acc).
Proof.
  revert acc. induction l as [|x l IH]; intros acc H; simpl; [done |].
  by apply IH, set_add_NoDup.
Qed.

(** [extractServices] lists no service twice. *)
Lemma extractServices_NoDup text s : NoDup (fst (extractServices text s)).
Proof.
  unfold extractServices, bind.
  pose proof (test_services_NoDup T2TPatterns.servicePatterns.entries text [] s
                (NoDup_nil_2)) as H.
  destruct (test_services _ text [] s) as [services s']. simpl in *.
  by apply fold_set_add_map_NoDup.
Qed.

(** Every service named is the key of a service pattern or a port. *)
Lemma test_services_keys entries text services s x :
  x ∈ fst (test_services entries text services s) →
  x ∈ services ∨ x ∈ map fst entries.
Proof.
  revert services s. induction entries as [|[service pattern] rest IH];
    intros services s; simpl; [by left |].
  unfold bind. destruct (test pattern text s) as [found s'].
  intros [H | H]%IH; [| right; by right].
  destruct found; [| by left].
  apply elem_of_set_add in H as [-> | H]; [right; by left | by left].
Qed.

Lemma union_services_NoDup a b : NoDup (union_services a b).
Proof. unfold union_services. apply fold_set_add_NoDup. constructor. Qed.

Lemma elem_of_union_services a b x : x ∈ union_services a b ↔ x ∈ a ∨ x ∈ b.
Proof.
  unfold union_services. rewrite elem_of_fold_set_add, elem_of_app, elem_of_nil.
  tauto.
Qed.

End ServiceFacts.

Module ResultFacts.
Import JS JSFacts Props ValidationResult DfdirFacts CellFacts.

(** ** Results built from messages, and merged results *)

Lemma fold_addError_rest (g : string → Issue) (l : list string) (r : Result) :
  warnings (fold_left (λ result msg, addError result (g msg)) l r) = warnings r
  ∧ valid (fold_left (λ result msg, addError result (g msg)) l r)
    = match l with [] => valid r | _ => false end.
Proof.
  revert r. induction l as [|x l IH]; intros r; simpl; [done |].
  destruct (IH (addError r (g x))) as [-> ->]. split; [done |]. by destruct l.
Qed.

Lemma fromStringErrors_warnings l src : warnings (fromStringErrors l src) = [].
Proof.
  unfold fromStringErrors.
  by destruct (fold_addError_rest
                 (λ msg, createError (Some ErrorCodes.UNKNOWN_ERROR) (Some msg) None
                                     (Some Severity.ERROR) None)
                 l (createResult (Some (default "unknown" src))
                                 (Some (length l =? 0)%nat))) as [-> _].
Qed.

(** On results whose flag agrees with their errors, [merge] is the
    conjunction of the flags. *)
Lemma merge_valid r other :
  consistent r → consistent other →
  valid (merge r other) = valid r && valid other.
Proof.
  unfold consistent, merge. simpl. intros Hr Ho.
  destruct (errors other) as [|e l]; simpl.
  - rewrite (proj2 Ho eq_refl). by rewrite andb_true_r.
  - destruct (valid other); [discriminate (proj1 Ho eq_refl) |].
    by rewrite andb_false_r.
Qed.

End ResultFacts.

Module SnapFacts.
Import JS JSFacts Props Layout LayoutFacts LayoutMore.

(** ** The nearest point of the grid *)

Lemma Math_round_near (v : Q) :
  (v - (1 # 2) < inject_Z (Math_round v))%Q ∧ (inject_Z (Math_round v) <= v + (1 # 2))%Q.
Proof.
  unfold Math_round. pose proof (Qfloor_le (v + (1 # 2))) as Hle.
  pose proof (Qlt_floor (v + (1 # 2))) as Hlt.
  rewrite inject_Z_plus in Hlt. change (inject_Z 1) with 1%Q in Hlt.
  split; lra.
Qed.

Lemma multiple_near_near (gridSnap : Z) (q : Q) :
  (0 < gridSnap)%Z →
  (q - inject_Z gridSnap / 2 < inject_Z (multiple_near gridSnap q))%Q
  ∧ (inject_Z (multiple_near gridSnap q) <= q + inject_Z gridSnap / 2)%Q.
Proof.
  intros Hg. unfold multiple_near. rewrite inject_Z_mult.
  set (G := inject_Z gridSnap).
  assert (0 < G)%Q as HG.
  { unfold G. change 0%Q with (inject_Z 0). by rewrite <- Zlt_Qlt. }
  destruct (Math_round_near (q / G)) as [Hlo Hhi].
  set (R := inject_Z (Math_round (q / G))) in *.
  assert (q == q / G * G)%Q as Hq by (field; lra).
  split.
  - apply (Qmult_lt_r _ _ G HG) in Hlo.
    assert ((q / G - (1 # 2)) * G == q - G / 2)%Q as H1 by (field; lra).
    rewrite H1 in Hlo. done.
  - apply (Qmult_le_r _ _ G HG) in Hhi.
    assert ((q / G + (1 # 2)) * G == q + G / 2)%Q as H1 by (field; lra).
    rewrite H1 in Hhi. done.
Qed.

(** On an integer: the multiple is at most half a unit away, and a tie
    goes to the larger multiple. *)
Lemma multiple_near_Z (gridSnap v : Z) :
  (0 < gridSnap)%Z →
  (- gridSnap < 2 * (multiple_near gridSnap (inject_Z v) - v) <= gridSnap)%Z.
Proof.
  intros Hg. destruct (multiple_near_near gridSnap (inject_Z v) Hg) as [Hlo Hhi].
  set (z := multiple_near gridSnap (inject_Z v)) in *.
  assert (inject_Z gridSnap / 2 == inject_Z gridSnap * (1 # 2))%Q as Hhalf by field.
  rewrite Hhalf in Hlo, Hhi.
  replace (z - v)%Z with (z + - v)%Z by lia.
  split.
  - rewrite Zlt_Qlt, inject_Z_opp, inject_Z_mult, inject_Z_plus, inject_Z_opp.
    change (inject_Z 2) with 2%Q. lra.
  - rewrite Zle_Qle, inject_Z_mult, inject_Z_plus, inject_Z_opp.
    change (inject_Z 2) with 2%Q. lra.
Qed.

Lemma multiple_near_idempotent (gridSnap : Z) (q : Q) :
  gridSnap ≠ 0%Z →
  multiple_near gridSnap (inject_Z (multiple_near gridSnap q))
  = multiple_near gridSnap q.
Proof.
  intros Hg. apply multiple_near_fixed; [done |].
  exists (Math_round (q / inject_Z gridSnap)). done.
Qed.

End SnapFacts.

Module FromJSONFacts.
Import JS JSFacts Props Dfdir DfdirFacts DfdirMore.

(** ** When [fromJSON] returns *)

Lemma forEachC_addElement name flows md (l : list ElementArgs) (acc : list DFDElement) d' :
  NoDup (map el_id acc) →
  forEachC (λ d elData, addElement d (DFDElement_new elData)) l
           (mkDFDIR name acc flows md) = Normal d'
  ↔ NoDup (map el_id acc ++ map ea_id l)
    ∧ d' = mkDFDIR name (acc ++ map DFDElement_new l) flows md.
Proof.
  revert acc. induction l as [|a l IH]; intros acc Hacc; simpl.
  - rewrite !app_nil_r. split; [by intros [= <-] | by intros [_ ->]].
  - unfold addElement at 1. simpl.
    destruct (getElementById _ _) as [e|] eqn:E; simpl.
    + split; [done |]. intros [Hnd _]. exfalso.
      assert (is_Some (getElementById (mkDFDIR name acc flows md) (ea_id a))) as Hs
        by by rewrite E.
      apply getElementById_Some in Hs as (e' & Hin & Hid). simpl in *.
      apply NoDup_app in Hnd as (_ & Hdis & _).
      apply (Hdis (ea_id a)); [| by left].
      rewrite <- Hid. by apply list_elem_of_fmap_2.
    + apply getElementById_None in E.
      assert (ea_id a ∉ map el_id acc) as Hout.
      { intros (e' & Hid & Hin)%list_elem_of_fmap. apply E. by exists e'. }
      rewrite IH.
      * rewrite map_app. simpl. rewrite <- !app_assoc. simpl. done.
      * rewrite map_app. simpl. apply NoDup_app.
        split; [done |]. split; [| apply NoDup_singleton].
        by intros x Hx ->%list_elem_of_singleton.
Qed.

Lemma forEachC_addFlow name els md (l : list FlowArgs) (acc : list DFDFlow) d' :
  NoDup (map fl_id acc) →
  forEachC (λ d flowData, addFlow d (DFDFlow_new flowData)) l
           (mkDFDIR name els acc md) = Normal d'
  ↔ NoDup (map fl_id acc ++ map fa_id l)
    ∧ d' = mkDFDIR name els (acc ++ map DFDFlow_new l) md.
Proof.
  revert acc. induction l as [|a l IH]; intros acc Hacc; simpl.
  - rewrite !app_nil_r. split; [by intros [= <-] | by intros [_ ->]].
  - unfold addFlow at 1. simpl.
    destruct (getFlowById _ _) as [e|] eqn:E; simpl.
    + split; [done |]. intros [Hnd _]. exfalso.
      unfold getFlowById in E. simpl in E. apply find_some in E as [Hin Hid].
      unfold str_opt_eqb in Hid. apply bool_decide_eq_true in Hid.
      apply NoDup_app in Hnd as (_ & Hdis & _).
      apply (Hdis (fa_id a)); [| by left].
      rewrite <- Hid. by apply list_elem_of_fmap_2, list_elem_of_In.
    + unfold getFlowById in E. simpl in E. apply find_id_None in E.
      rewrite IH.
      * rewrite map_app. simpl. rewrite <- !app_assoc. simpl. done.
      * rewrite map_app. simpl. apply NoDup_app.
        split; [done |]. split; [| apply NoDup_singleton].
        by intros x Hx ->%list_elem_of_singleton.
Qed.

(** [fromJSON] returns exactly when the ids of the elements are pairwise
    different and so are the ids of the flows; the DFDIR returned holds
    the elements and flows constructed from the entries, in order. *)
Lemma fromJSON_Normal now json d :
  fromJSON now json = Normal d
  ↔ NoDup (map ea_id (j_elements json)) ∧ NoDup (map fa_id (j_flows json))
    ∧ d = mkDFDIR (default "Untitled" (j_name json))
                  (map DFDElement_new (j_elements json))
                  (map DFDFlow_new (j_flows json))
                  (default (d_metadata (DFDIR_new now (j_name json))) (j_metadata json)).
Proof.
  unfold fromJSON. simpl.
  destruct (forEachC _ (j_elements json) _) as [d1|msg] eqn:E1; simpl.
  - apply forEachC_addElement in E1 as [Hnd ->]; [| constructor]. simpl in *.
    rewrite forEachC_addFlow by constructor. simpl. tauto.
  - split; [done |]. intros (Hnd & _ & _). exfalso.
    assert (forEachC (λ d elData, addElement d (DFDElement_new elData))
              (j_elements json)
              (mkDFDIR (default "Untitled" (j_name json)) [] []
                 (default (d_metadata (DFDIR_new now (j_name json))) (j_metadata json)))
            = Normal (mkDFDIR (default "Untitled" (j_name json))
                        ([] ++ map DFDElement_new (j_elements json)) []
                        (default (d_metadata (DFDIR_new now (j_name json)))
                                 (j_metadata json)))) as H.
    { apply forEachC_addElement; [constructor | done]. }
    simpl in H. unfold DFDIR_new in E1. simpl in E1. congruence.
Qed.

End FromJSONFacts.

Module ClassifyFacts.
Import JS JSFacts Props Regex Patterns Runtime PatternHelpers Extractor.

(** ** Where a test on a global expression starts *)

(** [test] reads the [lastIndex] of its own expression only. *)
Lemma RegExp_test_reads p s (li li' : LastIndex) :
  default 0%nat (li !! re_key p) = default 0%nat (li' !! re_key p) →
  fst (RegExp_test p s li) = fst (RegExp_test p s li').
Proof.
  intros H. unfold RegExp_test, RegExp_exec. rewrite H.
  destruct (re_global p); repeat case_match; simplify_eq; done.
Qed.

(** [test] writes the [lastIndex] of its own expression only. *)
Lemma RegExp_test_writes p s (li : LastIndex) k :
  k ≠ re_key p → snd (RegExp_test p s li) !! k = li !! k.
Proof.
  intros Hk. unfold RegExp_test, RegExp_exec.
  destruct (re_global p); repeat case_match; simplify_eq; simpl;
    rewrite ?lookup_insert_ne; done.
Qed.

Lemma test_reads p str s s' :
  default 0%nat (lastIndex s !! re_key p) = default 0%nat (lastIndex s' !! re_key p) →
  fst (test p str s) = fst (test p str s').
Proof.
  intros H. unfold test.
  pose proof (RegExp_test_reads p str (lastIndex s) (lastIndex s') H) as Hr.
  destruct (RegExp_test p str (lastIndex s)), (RegExp_test p str (lastIndex s')).
  done.
Qed.

Lemma test_writes p str s k :
  k ≠ re_key p → lastIndex (snd (test p str s)) !! k = lastIndex s !! k.
Proof.
  intros H. unfold test.
  pose proof (RegExp_test_writes p str (lastIndex s) k H) as Hw.
  by destruct (RegExp_test p str (lastIndex s)).
Qed.

(** With the [lastIndex] of the two role patterns at 0,
    [classifyNodeType] answers as it does right after the module is
    loaded. *)
Lemma classifyNodeType_at_rest name role context s :
  default 0%nat (lastIndex s !! "rolePatterns.attacker") = 0%nat →
  default 0%nat (lastIndex s !! "rolePatterns.database") = 0%nat →
  fst (classifyNodeType name role context s)
  = fst (classifyNodeType name role context fresh).
Proof.
  intros Ha Hd. unfold classifyNodeType, bind.
  set (combined := toLowerCase _).
  pose proof (test_reads T2TPatterns.rolePatterns.attacker combined s fresh) as H1.
  pose proof (test_writes T2TPatterns.rolePatterns.attacker combined s
                "rolePatterns.database") as W1.
  pose proof (test_writes T2TPatterns.rolePatterns.attacker combined fresh
                "rolePatterns.database") as W2.
  destruct (test T2TPatterns.rolePatterns.attacker combined s) as [b1 s1].
  destruct (test T2TPatterns.rolePatterns.attacker combined fresh) as [b2 s2].
  simpl in H1, W1, W2. rewrite <- H1 by (by rewrite Ha). destruct b1; [done |].
  pose proof (test_reads T2TPatterns.rolePatterns.database combined s1 s2) as H2.
  destruct (test T2TPatterns.rolePatterns.database combined s1) as [b3 s3].
  destruct (test T2TPatterns.rolePatterns.database combined s2) as [b4 s4].
  simpl in H2. rewrite <- H2;
    [destruct b3; [done | by destruct (test_stateless storage combined)] |].
  simpl. rewrite W1, W2 by done. by rewrite Hd.
Qed.

End ClassifyFacts.

Module ExtractorNodes.
Import JS JSFacts Props Regex Patterns Runtime PatternHelpers Extractor.
Import ExtractorFacts SetFacts ExtractorMore ExtractorNames ServiceFacts.

(** ** The nodes found in the text *)

(** What [classifyNodeType] can return. *)
Definition node_types : list string := ["actor"; "process"; "store"].

(** A node as the extraction from the text makes it. *)
Definition text_node (n : ENode) : Prop :=
  is_Some (nd_id n) ∧ nd_type n ∈ node_types ∧ nd_source n = "text"
  ∧ NoDup (nd_services n).

Definition text_nodes : St → Prop :=
  on_nodes (Forall (λ kv, text_node (snd kv))).

Lemma classifyNodeType_types name role context s :
  fst (classifyNodeType name role context s) ∈ node_types.
Proof.
  unfold classifyNodeType, bind, node_types.
  destruct (test _ _ s) as [[] s1]; simpl; [set_solver |].
  destruct (test _ _ s1) as [[] s2]; simpl; [set_solver |].
  destruct (test_stateless _ _); simpl; set_solver.
Qed.

Lemma getOrCreateNodeId_Some name s :
  text_nodes s → is_Some (fst (getOrCreateNodeId name s)).
Proof.
  intros Hs. unfold getOrCreateNodeId, bind, get_nodes. simpl.
  destruct (nodes_get name (nodes s)) as [e|] eqn:E; simpl; [| by eexists].
  apply nodes_get_Some in E. unfold text_nodes, on_nodes in Hs.
  rewrite Forall_forall in Hs. by destruct (Hs _ E) as [? _].
Qed.

Lemma merge_node_text existing n :
  text_node existing → text_node (merge_node existing n).
Proof.
  intros (Hid & Ht & Hs & _). repeat split; try done. apply union_services_NoDup.
Qed.

Lemma addOrUpdateNode_text n : text_node n → inv text_nodes (addOrUpdateNode n).
Proof.
  intros Hn s Hs. unfold addOrUpdateNode, bind, get_nodes, text_nodes, on_nodes in *.
  destruct (nodes_get (nd_name n) (nodes s)) as [e|] eqn:E; simpl.
  - apply nodes_set_Forall; [done |]. simpl. apply merge_node_text.
    apply nodes_get_Some in E. rewrite Forall_forall in Hs. by apply (Hs _ E).
  - by apply nodes_set_Forall.
Qed.

(** A computation that keeps [I] and returns a value with [F]. *)
Lemma hoare_fact {A} (I : St → Prop) (F : A → Prop) (m : M A) :
  inv I m → (∀ s, I s → F (fst (m s))) → hoare I m (λ a s, F a ∧ I s).
Proof. intros Hi Hf s Hs. split; [by apply Hf | by apply Hi]. Qed.

Lemma hoare_given {A} (F : Prop) (I : St → Prop) (m : M A) R :
  (F → hoare I m R) → hoare (λ s, F ∧ I s) m R.
Proof. intros H s [HF Hs]. by apply H. Qed.

Ltac text_code :=
  repeat first
    [ apply inv_ret
    | apply inv_get_nodes
    | eapply hoare_bind;
      [ apply (hoare_fact _ (λ id, is_Some id));
        [ apply inv_getOrCreateNodeId | intros ?; apply getOrCreateNodeId_Some ]
      | intros ?; apply hoare_given; intros ? ]
    | eapply hoare_bind;
      [ apply (hoare_fact _ (λ services, NoDup services));
        [ apply inv_extractServices | intros ? _; apply extractServices_NoDup ]
      | intros ?; apply hoare_given; intros ? ]
    | eapply hoare_bind;
      [ apply (hoare_fact _ (λ type, type ∈ node_types));
        [ apply inv_classifyNodeType | intros ? _; apply classifyNodeType_types ]
      | intros ?; apply hoare_given; intros ? ]
    | apply addOrUpdateNode_text; repeat split; simpl;
      first [ assumption | done | apply NoDup_nil_2 ]
    | apply inv_bind; [| intros ?]
    | apply inv_if
    | match goal with
      | |- inv _ (match ?x with _ => _ end) => destruct x
      | |- hoare _ (match ?x with _ => _ end) _ => destruct x
      end ].

Lemma table_row_text text m : inv text_nodes (table_row text m).
Proof. unfold table_row. text_code. Qed.

Lemma inline_node_text text m : inv text_nodes (inline_node text m).
Proof. unfold inline_node. text_code. Qed.

Lemma os_match_text text hint role m seen :
  inv text_nodes (os_match text hint role m seen).
Proof. unfold os_match. text_code. Qed.

Lemma instrumentation_text text p seen :
  inv text_nodes (instrumentation text p seen).
Proof. unfold instrumentation. text_code. Qed.

Lemma system_name_text text m seen : inv text_nodes (system_name text m seen).
Proof. unfold system_name. text_code. Qed.

Lemma extractNodesFromText_text text : inv text_nodes (extractNodesFromText text).
Proof.
  unfold extractNodesFromText, extractFromTableRows, extractFromInlineFormat,
    extractFromSystemNames.
  repeat first
    [ apply inv_bind; [| intros ?]
    | apply inv_ret
    | apply inv_forEach; intros ?
    | apply inv_forEach_seen; intros ? ?
    | apply table_row_text | apply inline_node_text | apply os_match_text
    | apply instrumentation_text | apply system_name_text ].
Qed.

(** Without vision results, every node gathered was made from the text. *)
Lemma collect_text_nodes text s : text_nodes (snd (collect text None s)).
Proof.
  assert (hoare (λ _, True) (collect text None) (λ _, text_nodes)) as H;
    [| by apply H].
  unfold collect.
  eapply hoare_bind with (R := λ _, text_nodes); [intros s0 _; constructor |].
  intros ?. apply inv_bind; [apply inv_set_connections |]. intros ?.
  apply inv_bind; [apply extractNodesFromText_text |]. intros ?.
  apply inv_bind; [apply inv_extractConnectionsFromText |]. intros ?.
  apply inv_ret.
Qed.

Lemma adjust_node_text n : text_node n → text_node (adjust_node n).
Proof. done. Qed.

Lemma extract_text_nodes text s n :
  n ∈ ex_nodes (fst (extract text None s)) → text_node n.
Proof.
  rewrite extract_result. simpl. rewrite map_map. simpl.
  intros (kv & -> & Hkv)%list_elem_of_fmap.
  pose proof (collect_text_nodes text s) as H. unfold text_nodes, on_nodes in H.
  rewrite Forall_forall in H. by apply adjust_node_text, H.
Qed.

End ExtractorNodes.
Module OrphanFacts.
Import JS JSFacts Props ValidationResult CellValidator DfdirFacts CellFacts CellMore.
Import CellWarnings.

(** ** Where an orphan warning comes from *)

(** A warning that a terminal adds is the orphan warning for its [cell]
    property. *)
Lemma validateTerminal_warning which errcode t index m r w :
  w ∈ warnings (validateTerminal which errcode t index m r) →
  w ∈ warnings r
  ∨ ∃ u ref, t = Some u ∧ t_cell u = Some ref ∧ ref ≠ ""
             ∧ m ≠ ∅ ∧ m !! ref = None
             ∧ w = orphan_warning index which ref.
Proof.
  unfold validateTerminal. destruct t as [u|]; [| by left].
  destruct (t_cell u) as [ref|] eqn:Eref; [| by left].
  destruct (_ && _) eqn:E; [| by left].
  apply andb_true_iff in E as [[Hne Hsize]%andb_true_iff Hnone].
  apply negb_true_iff, String.eqb_neq in Hne.
  apply Nat.ltb_lt in Hsize.
  apply negb_true_iff, bool_decide_eq_false in Hnone.
  simpl. intros [Hw | ->%list_elem_of_singleton]%elem_of_app; [by left |].
  right. exists u, ref. repeat split; try done.
  - intros ->. rewrite map_size_empty in Hsize. lia.
  - by apply eq_None_not_Some.
Qed.

Lemma validateCell_orphans cell index m w :
  w ∈ warnings (validateCell cell index m) →
  code w = ErrorCodes.ORPHAN_FLOW →
  ∃ which u ref,
    ((which = "source" ∧ c_source cell = Some u)
     ∨ (which = "target" ∧ c_target cell = Some u))
    ∧ t_cell u = Some ref ∧ ref ≠ "" ∧ m ≠ ∅ ∧ m !! ref = None
    ∧ w = orphan_warning index which ref.
Proof.
  unfold validateCell. cbv zeta.
  set (r3 := if truthy_str (c_shape cell) && negb (isEdgeCell cell)
             then validateNodeCell cell index _ else _).
  assert (∀ w, w ∈ warnings r3 → code w = ErrorCodes.MISSING_REQUIRED) as Hown.
  { intros w'. unfold r3. clear r3.
    set (r2 := if match c_zIndex cell with
                  | None | Some JSNull => true | _ => false end
               then addWarning _ _ else _).
    assert (∀ w, w ∈ warnings r2 → code w = ErrorCodes.MISSING_REQUIRED) as H2.
    { intros w''. unfold r2. rewrite warnings_if_addWarning.
      assert (∀ (b b' : bool) r e e',
                warnings (if b then addError r e
                          else if b' then addError r e' else r) = warnings r) as Hsh.
      { by intros [] []. }
      rewrite Hsh. rewrite warnings_if_addError. simpl.
      destruct (match c_zIndex cell with
                | None | Some JSNull => true | _ => false end);
        [| by intros ?%elem_of_nil].
      by intros ->%list_elem_of_singleton. }
    destruct (_ && _); [| apply H2].
    unfold validateNodeCell. rewrite warnings_if_addWarning, !warnings_if_addError.
    intros [Hw | Hw]%elem_of_app; [by apply H2 |].
    destruct (negb (bool_decide (is_Some (c_data cell))));
      [| by apply elem_of_nil in Hw].
    by apply list_elem_of_singleton in Hw as ->. }
  intros Hw Hcode.
  assert (w ∉ warnings r3) as Hout.
  { intros Hin. apply Hown in Hin. rewrite Hin in Hcode. discriminate. }
  destruct (isEdgeCell cell); [| done].
  unfold validateEdgeCell in Hw.
  apply validateTerminal_warning in Hw as [Hw | (u & ref & Hu & Hrest)].
  - apply validateTerminal_warning in Hw as [Hw | (u & ref & Hu & Hrest)]; [done |].
    exists "source", u, ref. split; [by left | done].
  - exists "target", u, ref. split; [by right | done].
Qed.

Lemma fold_cellMap_lookup_None_inv cells ref m0 :
  ref ≠ "" → fold_left cellMap_step cells m0 !! ref = None →
  m0 !! ref = None ∧ ∀ cell, cell ∈ cells → c_id cell ≠ Some ref.
Proof.
  intros Href. revert m0. induction cells as [|c cells IH]; intros m0 H; simpl in H.
  - split; [done |]. by intros cell ?%elem_of_nil.
  - apply IH in H as [Hstep Hrest].
    assert (m0 !! ref = None ∧ c_id c ≠ Some ref) as [H0 Hc].
    { unfold cellMap_step in Hstep. destruct (c_id c) as [id|]; [| done].
      destruct (String.eqb id "") eqn:E.
      - apply String.eqb_eq in E as ->. split; [done | congruence].
      - apply lookup_insert_None in Hstep as [? ?]. split; [done | congruence]. }
    split; [done |]. by intros cell [-> | Hin]%elem_of_cons; [| apply Hrest].
Qed.

Lemma fold_cellMap_nonempty_inv cells m0 :
  fold_left cellMap_step cells m0 ≠ ∅ →
  m0 ≠ ∅ ∨ ∃ cell, cell ∈ cells ∧ truthy_str (c_id cell) = true.
Proof.
  revert m0. induction cells as [|c cells IH]; intros m0 H; simpl in H; [by left |].
  destruct (truthy_str (c_id c)) eqn:E.
  - right. exists c. split; [by left | done].
  - assert (cellMap_step m0 c = m0) as Hstep.
    { unfold cellMap_step. destruct (c_id c) as [id|]; [| done]. simpl in E.
      by destruct (String.eqb id ""). }
    rewrite Hstep in H. apply IH in H as [H | (c' & Hc' & Ht)]; [by left |].
    right. exists c'. split; [by right | done].
Qed.

(** An orphan warning of [validateCells] is about the [cell] property of
    an end of an edge, which names a cell that the array does not hold;
    and some cell of the array has an id. *)
Lemma validateCells_orphans cells w :
  w ∈ warnings (validateCells cells) →
  code w = ErrorCodes.ORPHAN_FLOW →
  ∃ index cell which u ref,
    cells !! index = Some cell
    ∧ ((which = "source" ∧ c_source cell = Some u)
       ∨ (which = "target" ∧ c_target cell = Some u))
    ∧ t_cell u = Some ref ∧ ref ≠ ""
    ∧ (∀ other, other ∈ cells → c_id other ≠ Some ref)
    ∧ (∃ other, other ∈ cells ∧ truthy_str (c_id other) = true)
    ∧ w = orphan_warning index which ref.
Proof.
  intros Hw Hcode. destruct (decide (cells = [])) as [-> | Hne].
  { simpl in Hw. apply list_elem_of_singleton in Hw as ->. discriminate. }
  rewrite validateCells_nonempty in Hw by done.
  rewrite validate_each_warnings in Hw. simpl in Hw.
  apply list_elem_of_In, in_concat in Hw as (l & Hl & Hw).
  apply list_elem_of_In, elem_of_lookup_imap in Hl as (j & c & -> & Hj).
  apply list_elem_of_In in Hw.
  apply validateCell_orphans in Hw as (which & u & ref & Hends & Hu & Href & Hm & Hnone & ->);
    [| done].
  exists j, c, which, u, ref. repeat split; try done.
  - by apply (fold_cellMap_lookup_None_inv cells ref ∅).
  - apply fold_cellMap_nonempty_inv in Hm as [Hm | Hm]; done.
Qed.

End OrphanFacts.

(* ===================================================================== *)
(** * The claims *)
(* ===================================================================== *)

Module Claims.
Import JS JSFacts Props Dfdir DfdirFacts ValidationResult CellValidator CellFacts.
Import ValidationService Converter Layout LayoutFacts.
Import Runtime Extractor ExtractorFacts OrphanFacts Examples.

(** ** DFDIR *)



(** C2: when [validate] reports a DFDIR invalid, [convert] throws an error
    whose message is "DFDIR validation failed: " followed by all the
    validation messages joined by ", "; and a flow at index [i] whose
    sourceId is the id of no element makes [convert] throw a message in
    which "Flow i: Source element <sourceId> not found" occurs. *)
Theorem C2_convert_throws_on_invalid (d : DFDIR) (options : Options) :
  (v_valid (validate d) = false →
   convert d options
   = Throw ("DFDIR validation failed: " +:+ join ", " (v_errors (validate d))))
  ∧ (∀ i f, d_flows d !! i = Some f → ¬ resolves d (fl_sourceId f) →
     ∃ msg, convert d options = Throw msg
            ∧ occurs_in ("Flow " +:+ pretty i +:+ ": Source element "
                         +:+ show_str (fl_sourceId f) +:+ " not found") msg).
Proof.
  split; [apply convert_invalid |].
  intros i f Hi Hno.
  pose proof (dangling_source_reported d i f Hi Hno) as Hin.
  assert (v_valid (validate d) = false) as Hv.
  { destruct (v_valid (validate d)) eqn:E; [| done].
    apply validate_valid_iff in E. unfold validate in Hin. simpl in Hin.
    rewrite E in Hin. by apply elem_of_nil in Hin. }
  eexists. split; [by apply convert_invalid |].
  apply occurs_in_app_r. by apply occurs_in_join.
Qed.

(** The DFDIR with the element e1 and a flow from "ghost" to e1: the
    message of the error thrown names flow 0 and the id "ghost". *)
Lemma C2_witness :
  convert dangling_dfdir no_options
  = Throw ("DFDIR validation failed: "
           +:+ join ", " (v_errors (validate dangling_dfdir)))
  ∧ ∃ msg, convert dangling_dfdir no_options = Throw msg
           ∧ occurs_in "Flow 0: Source element ghost not found" msg.
Proof.
  split.
  - apply (proj1 (C2_convert_throws_on_invalid dangling_dfdir no_options)).
    vm_compute. reflexivity.
  - apply (proj2 (C2_convert_throws_on_invalid dangling_dfdir no_options)
             0%nat dangling_flow).
    + vm_compute. reflexivity.
    + apply getElementById_None. vm_compute. reflexivity.
Defined.




(** C10: a DFDFlow constructed without protocol, isEncrypted and
    isPublicNetwork has protocol 'HTTPS', isEncrypted true and
    isPublicNetwork false. *)
Theorem C10_flow_defaults (id sourceId targetId : option string)
    (metadata : option Metadata) (confidence : option JSValue)
    (source : option string) :
  fl_protocol (DFDFlow_new (mkFlowArgs id sourceId targetId None None None
                                       metadata confidence source)) = "HTTPS"
  ∧ fl_isEncrypted (DFDFlow_new (mkFlowArgs id sourceId targetId None None None
                                            metadata confidence source)) = true
  ∧ fl_isPublicNetwork (DFDFlow_new (mkFlowArgs id sourceId targetId None None None
                                                metadata confidence source)) = false.
Proof. repeat split. Qed.

(** ** Cell validation *)

(** C8, as stated, fails in two ways. An edge cell without an id, alone
    in its array, refers to the cell "ghost" that the array does not
    hold, and the result carries no orphan warning: the reference check
    is skipped when no cell of the array has an id. And an edge cell
    whose ends are written [{ id }], as the converter writes them, among
    cells with ids: its target names the cell "ghost" that the array
    does not hold, and the result carries no warning at all, since the
    check reads the [cell] property only. *)
Lemma C8_unchecked_references_counterexample :
  ([anonymous_edge] !! 0%nat = Some anonymous_edge
   ∧ c_source anonymous_edge = Some (mkTerminal (Some "ghost") None)
   ∧ forallb (λ cell, negb (bool_decide (c_id cell = Some "ghost"))) [anonymous_edge]
     = true
   ∧ existsb (λ w, String.eqb (code w) ErrorCodes.ORPHAN_FLOW)
             (warnings (validateCells [anonymous_edge])) = false
   ∧ map code (warnings (validateCells [anonymous_edge])) = [])
  ∧ ([node_a; edge_by_id] !! 1%nat = Some edge_by_id
     ∧ c_target edge_by_id = Some (mkTerminal None (Some "ghost"))
     ∧ forallb (λ cell, negb (bool_decide (c_id cell = Some "ghost")))
               [node_a; edge_by_id] = true
     ∧ warnings (validateCells [node_a; edge_by_id]) = []
     ∧ valid (validateCells [node_a; edge_by_id]) = true).
Proof. repeat split; vm_compute; reflexivity. Qed.

(** C8, amended: for every cells array in which at least one cell has an
    id, and every edge cell of it whose source or target names, by its
    [cell] property, an id that no cell of the array has, the result of
    [validateCells] holds the orphan warning for that reference; no error
    of the result is an orphan error; [valid] is true exactly when no
    cell has an error of its own, that is, an error [validateCell]
    reports without looking anything up; and every orphan warning of the
    result is about such a [cell] property: an end that names a cell by
    another property, as the [{ id }] of the converter, is not
    looked up. *)
Theorem C8_dangling_reference_is_a_warning (cells : list Cell) (index : nat)
    (cell : Cell) (which : string) (t : Terminal) (ref : string) :
  cells !! index = Some cell →
  (which = "source" ∧ c_source cell = Some t)
  ∨ (which = "target" ∧ c_target cell = Some t) →
  t_cell t = Some ref → ref ≠ "" →
  (∀ other, other ∈ cells → c_id other ≠ Some ref) →
  (∃ other, other ∈ cells ∧ truthy_str (c_id other) = true) →
  orphan_warning index which ref ∈ warnings (validateCells cells)
  ∧ Forall (λ e, code e ≠ ErrorCodes.ORPHAN_FLOW) (errors (validateCells cells))
  ∧ (valid (validateCells cells) = true
     ↔ ∀ j other, cells !! j = Some other → errors (validateCell other j ∅) = [])
  ∧ (∀ w, w ∈ warnings (validateCells cells) → code w = ErrorCodes.ORPHAN_FLOW →
       ∃ j other end_ u r,
         cells !! j = Some other
         ∧ ((end_ = "source" ∧ c_source other = Some u)
            ∨ (end_ = "target" ∧ c_target other = Some u))
         ∧ t_cell u = Some r ∧ r ≠ ""
         ∧ (∀ c, c ∈ cells → c_id c ≠ Some r)
         ∧ w = orphan_warning j end_ r).
Proof.
  intros Hi Hwhich Ht Hne Hdangling Hid.
  assert (cells ≠ []) as Hcells by (intros ->; done).
  split; [| split; [| split]].
  - rewrite validateCells_nonempty by done.
    rewrite validate_each_warnings. apply elem_of_app. right.
    apply list_elem_of_In, in_concat.
    exists (warnings (validateCell cell index (build_cellMap cells))). split.
    + apply list_elem_of_In.
      apply (elem_of_lookup_imap_2
               (λ j cell, warnings (validateCell cell (0 + j) (build_cellMap cells)))
               cells cell index Hi).
    + apply list_elem_of_In.
      destruct Hwhich as [[-> Hs] | [-> Hs]].
      * eapply validateCell_orphan_source; eauto using build_cellMap_lookup_None,
          build_cellMap_nonempty.
      * eapply validateCell_orphan_target; eauto using build_cellMap_lookup_None,
          build_cellMap_nonempty.
  - rewrite validateCells_nonempty by done.
    rewrite validate_each_errors.
    change (errors (createResult (Some "cellValidator") None)) with (@nil Issue).
    rewrite app_nil_l.
    apply Forall_forall. intros e He.
    apply list_elem_of_In, in_concat in He as (l & Hl & He).
    apply list_elem_of_In, elem_of_lookup_imap in Hl as (j & c & -> & Hj).
    pose proof (validateCell_no_orphan_error c (0 + j) (build_cellMap cells)) as H.
    unfold no_orphan_error in H. rewrite Forall_forall in H.
    by apply H, list_elem_of_In.
  - rewrite validateCells_nonempty by done.
    pose proof (validate_each_consistent cells 0 (build_cellMap cells)
                  (createResult (Some "cellValidator") None)
                  (consistent_createResult _)) as Hc.
    unfold consistent in Hc. rewrite Hc. clear Hc.
    rewrite validate_each_errors.
    change (errors (createResult (Some "cellValidator") None)) with (@nil Issue).
    rewrite app_nil_l, concat_imap_nil.
    split; intros H j c Hj.
    + rewrite (validateCell_errors_indep _ _ _ (build_cellMap cells)). by apply H.
    + rewrite (validateCell_errors_indep _ _ _ ∅). by apply H.
  - intros w Hw Hcode.
    destruct (validateCells_orphans cells w Hw Hcode)
      as (j & other & end_ & u & r & Hj & Hends & Hu & Hr & Hnone & _ & ->).
    by exists j, other, end_, u, r.
Qed.

(** The array of the node a and an edge from a to "ghost". *)
Lemma C8_witness :
  orphan_warning 1 "target" "ghost"
    ∈ warnings (validateCells [node_a; edge_to_ghost])
  ∧ Forall (λ e, code e ≠ ErrorCodes.ORPHAN_FLOW)
           (errors (validateCells [node_a; edge_to_ghost]))
  ∧ (valid (validateCells [node_a; edge_to_ghost]) = true
     ↔ ∀ j other, [node_a; edge_to_ghost] !! j = Some other →
                  errors (validateCell other j ∅) = [])
  ∧ (∀ w, w ∈ warnings (validateCells [node_a; edge_to_ghost]) →
       code w = ErrorCodes.ORPHAN_FLOW →
       ∃ j other end_ u r,
         [node_a; edge_to_ghost] !! j = Some other
         ∧ ((end_ = "source" ∧ c_source other = Some u)
            ∨ (end_ = "target" ∧ c_target other = Some u))
         ∧ t_cell u = Some r ∧ r ≠ ""
         ∧ (∀ c, c ∈ [node_a; edge_to_ghost] → c_id c ≠ Some r)
         ∧ w = orphan_warning j end_ r).
Proof.
  apply (C8_dangling_reference_is_a_warning [node_a; edge_to_ghost] 1
           edge_to_ghost "target" (mkTerminal (Some "ghost") None) "ghost").
  - reflexivity.
  - right. split; reflexivity.
  - reflexivity.
  - discriminate.
  - intros other Hin.
    repeat (apply elem_of_cons in Hin as [-> | Hin]); try discriminate.
    by apply elem_of_nil in Hin.
  - exists node_a. split; [by left | reflexivity].
Defined.

(** ** Layout *)

(** C6, as stated, fails in three ways. Of two node objects with the
    same id the hierarchical layout positions one only, and the other is
    returned where it was, here at x = 7 with the grid unit 100. With
    the grid unit 0 every coordinate written is NaN, which is a multiple
    of nothing, whatever the algorithm: here the tiered one. And with a
    grid unit that is a fraction the product in [snapToGrid] is rounded:
    the tiered layout of the three nodes passes 1000 for every x (the
    grid unit 1 shows the values passed), and on doubles, with the unit
    0.1 (the double 0x1.999999999999ap-4), snapToGrid(1000) is 1000,
    while 1000 % 0.1 is not 0 (it is 0.0999999999999445). *)
Lemma C6_twin_id_and_grid_unit_counterexample :
  (∃ ns, calculateLayout 100 flat flat three twin_nodes a_to_b "hierarchical"
         = Some (Normal ns)
         ∧ n_x <$> ns !! 1%nat = Some (Some 7%Z)
         ∧ Z.rem 7 100 = 7%Z)
  ∧ (∃ ns, calculateLayout 0 flat flat three three_nodes a_to_b "tiered"
           = Some (Normal ns)
           ∧ map n_x ns = [None; None; None]
           ∧ map n_y ns = [None; None; None])
  ∧ (∃ ns r, calculateLayout 1 flat flat three three_nodes a_to_b "tiered"
             = Some (Normal ns)
             ∧ map n_x ns = [Some 1000%Z; Some 1000%Z; Some 1000%Z]
             ∧ Doubles.snapToGrid 0x1.999999999999ap-4 1000 = 1000%float
             ∧ Number_rem (Doubles.to_Number 1000)
                          (Doubles.to_Number 0x1.999999999999ap-4) = Finite r
             ∧ (0 < r)%Q).
Proof.
  split; [| split].
  - eexists. repeat split; vm_compute; reflexivity.
  - eexists. repeat split; vm_compute; reflexivity.
  - eexists _, _. repeat split; vm_compute; reflexivity.
Qed.

(** C6, amended: for a grid unit that is an integer other than 0, every
    node array, connection array and algorithm among tiered, radial and
    hierarchical (for hierarchical: every node array whose ids are
    pairwise different), [calculateLayout] returns; it returns normally
    unless a node's type names a property inherited from
    Object.prototype; and every node it returns has x and y set to
    multiples of the grid unit. *)
Theorem C6_layout_snaps_to_grid (gridSnap : Z) (Math_cos Math_sin : Q → Q)
    (Math_PI : Q) (nodes : list Node) (connections : list Connection)
    (layoutType : string) :
  gridSnap ≠ 0%Z →
  layoutType ∈ ["tiered"; "radial"; "hierarchical"] →
  (layoutType = "hierarchical" → NoDup (map n_id nodes)) →
  ∃ r, calculateLayout gridSnap Math_cos Math_sin Math_PI
                       nodes connections layoutType = Some r
       ∧ (Forall (λ n, inherited_type (n_type n) = false) nodes →
          ∃ ns, r = Normal ns)
       ∧ ∀ ns, r = Normal ns →
               length ns = length nodes ∧ Forall (snapped gridSnap) ns.
Proof.
  intros Hg Hin Hids.
  destruct (calculateLayout_snaps gridSnap Math_cos Math_sin Math_PI Hg
              nodes connections layoutType Hin) as (r & Hr & Hret & Hsnap).
  exists r. split; [done |]. split; [done |]. by apply Hsnap.
Qed.

(** Three nodes with ids of their own, laid out hierarchically on the
    grid of 100. *)
Lemma C6_witness :
  ∃ r, calculateLayout 100 flat flat three three_nodes a_to_b "hierarchical"
       = Some r
       ∧ (Forall (λ n, inherited_type (n_type n) = false) three_nodes →
          ∃ ns, r = Normal ns)
       ∧ ∀ ns, r = Normal ns →
               length ns = length three_nodes ∧ Forall (snapped 100) ns.
Proof.
  apply (C6_layout_snaps_to_grid 100 flat flat three three_nodes a_to_b
           "hierarchical").
  - discriminate.
  - set_solver.
  - intros _. vm_compute. repeat constructor; set_solver.
Defined.

(** C9: the accepted shapes hold the misspelled 'trust-broundary-curve':
    [isValidShape] accepts it and rejects 'trust-boundary-curve'. *)
Theorem C9_misspelled_curve_shape :
  ValidShapes.TRUST_BOUNDARY_CURVE = "trust-broundary-curve"
  ∧ "trust-broundary-curve" ∈ ValidShapes_values
  ∧ isValidShape (Some "trust-broundary-curve") = true
  ∧ isValidShape (Some "trust-boundary-curve") = false.
Proof.
  split; [reflexivity |]. split; [| split; reflexivity].
  unfold ValidShapes_values. set_solver.
Qed.

(** ** Entity extraction *)

(** C3, at the text "Kali-01 (192.168.100.10)": the first run of
    [extract] after the module is loaded returns the node Kali-01 with the
    type actor; the second run on the same text returns it with the type
    process, on the extractor used before and on a new one alike. The
    regular expression rolePatterns.attacker carries the flag g, its
    [test] in [classifyNodeType] starts at the [lastIndex] the run before
    left (13), beyond the only place where "kali" stands in the node's
    context. *)
Lemma C3_second_run_retypes_node :
  map (λ n, (nd_name n, nd_type n)) (ex_nodes (fst first_run))
  = [("Kali-01", "actor"); ("Kali", "actor")]
  ∧ lastIndex (snd first_run) !! "rolePatterns.attacker" = Some 13%nat
  ∧ map (λ n, (nd_name n, nd_type n)) (ex_nodes (fst second_run))
    = [("Kali-01", "process"); ("Kali", "actor")]
  ∧ fst (extract kali_text None
           (mkSt (lastIndex (snd first_run)) (uuid_count (snd first_run)) [] []))
    = fst second_run.
Proof.
  split; [vm_compute; reflexivity |].
  split; [vm_compute; reflexivity |].
  split; [vm_compute; reflexivity |].
  unfold second_run. generalize (snd first_run). intros [li uc ns cs].
  cbn [lastIndex uuid_count].
  by rewrite (extract_resets kali_text None li uc ns cs).
Qed.

(** C4, at the vision results with one node and one connection that
    both report the confidence 200: [extract] returns the node with the
    confidence 100 and the connection with the confidence 160. The pass
    over the nodes in [calculateConfidence] ends in
    [Math.min(100, Math.max(0, ...))]; the pass over the connections has
    no such step, and [mergeVisionResults] stores a connection with 0.8
    times the confidence reported. *)
Lemma C4_vision_connection_not_clamped :
  ∃ n c q, ex_nodes (fst (extract "" (Some loud_vision) fresh)) = [n]
         ∧ ex_connections (fst (extract "" (Some loud_vision) fresh)) = [c]
         ∧ nd_confidence n = Finite 100
         ∧ cn_confidence c = Finite q ∧ (q == 160)%Q ∧ (100 < q)%Q.
Proof. eexists _, _, _. repeat split; vm_compute; reflexivity. Qed.

(** C5, at the vision results whose only connection goes from the node x
    to the node x: [extract] returns that connection, a self-loop. (The
    loop over the connections found in the text skips a connection whose
    ends are one node; the loop over the connections of the vision
    results checks for duplicates only.) *)
Lemma C5_vision_self_loop_kept :
  map endpoints (ex_connections (fst (extract "" (Some loop_vision) fresh)))
  = [(Some "x", Some "x")].
Proof. vm_compute. reflexivity. Qed.

(** No two connections [extract] returns have the same pair of sourceId
    and targetId, whatever the text, the vision results and the state of
    the module. *)
Theorem extract_no_duplicate_endpoints (text : string)
    (visionResults : option VisionResults) (s : St) :
  NoDup (map endpoints (ex_connections (fst (extract text visionResults s)))).
Proof. apply extract_endpoints_NoDup. Qed.

(** Without vision results, no connection [extract] returns has its
    sourceId equal to its targetId. *)
Theorem extract_text_only_no_self_loop (text : string) (s : St) :
  Forall (λ c, cn_sourceId c ≠ cn_targetId c)
         (ex_connections (fst (extract text None s))).
Proof. apply extract_text_no_self_loop. Qed.

End Claims.
(* ===================================================================== *)
(** * Further properties of the pipeline *)
(* ===================================================================== *)

Module Coverage.
Import JS JSFacts Props Dfdir DfdirFacts DfdirMore DfdirStatistics StatisticsFacts.
Import SetFacts ValidationResult ValidationService CellValidator CellFacts CellMore.
Import CellWarnings DiagramValidator Converter ConverterFacts ResultFacts.
Import FromJSONFacts Samples.

(** ** DFDIR *)

(** After [addElement(e)] has returned, [getElementById] finds [e] under
    its id and answers as before for every other id; the element is the
    last of the array and the flows are untouched. *)
Theorem addElement_then_getElementById (d d' : DFDIR) (e : DFDElement)
    (id : option string) :
  addElement d e = Normal d' →
  getElementById d' id
  = (if bool_decide (id = el_id e) then Some e else getElementById d id)
  ∧ getElementById d (el_id e) = None
  ∧ d_elements d' = d_elements d ++ [e]
  ∧ d_flows d' = d_flows d.
Proof.
  intros H. split; [by apply getElementById_addElement |].
  by apply addElement_Normal in H as [Hnone ->].
Qed.

Lemma addElement_then_getElementById_witness :
  getElementById kali_and_web (Some "e2")
  = (if bool_decide (Some "e2" = el_id web) then Some web
     else getElementById kali_only (Some "e2"))
  ∧ getElementById kali_only (el_id web) = None
  ∧ d_elements kali_and_web = d_elements kali_only ++ [web]
  ∧ d_flows kali_and_web = d_flows kali_only.
Proof.
  apply (addElement_then_getElementById kali_only kali_and_web web (Some "e2")).
  reflexivity.
Defined.

(** [removeElement(id)] returns false and changes nothing when no
    element has the id. Otherwise it returns true, takes one element
    away, and with it exactly the flows that start or end at the id;
    elements with another id are found as before. *)
Theorem removeElement_cascade (d d' : DFDIR) (id : option string) (b : bool) :
  removeElement d id = (b, d') →
  (b = false ∧ d' = d ∧ ¬ resolves d id)
  ∨ (b = true ∧ resolves d id
     ∧ length (d_elements d) = S (length (d_elements d'))
     ∧ Forall (λ f, fl_sourceId f ≠ id ∧ fl_targetId f ≠ id) (d_flows d')
     ∧ (∀ f, f ∈ d_flows d' ↔ f ∈ d_flows d ∧ fl_sourceId f ≠ id ∧ fl_targetId f ≠ id)
     ∧ ∀ other, other ≠ id → getElementById d' other = getElementById d other).
Proof.
  destruct b; intros H.
  - right. split; [done |].
    pose proof (getElementById_removeElement_ne d id d' ) as Hother.
    specialize (λ other, Hother other H).
    apply removeElement_true in H as (i & e & Hi & He & Hget & ->). simpl.
    split; [exists e; split; [by eapply list_elem_of_lookup_2 | done] |].
    split; [| split; [| split]].
    + rewrite length_delete by done.
      apply lookup_lt_Some in Hi. lia.
    + apply Forall_forall. intros f Hf.
      apply list_elem_of_In, filter_In in Hf as [_ Hf]. by apply untouched_spec.
    + intros f. rewrite list_elem_of_In, filter_In, <- list_elem_of_In.
      by rewrite untouched_spec.
    + exact Hother.
  - left. apply removeElement_false in H as [-> Hno]. done.
Qed.

(** Removing the attacker machine of the sample takes its flow away. *)
Lemma removeElement_cascade_witness :
  (true = false ∧ snd (removeElement sample_dfdir (Some "e1")) = sample_dfdir
   ∧ ¬ resolves sample_dfdir (Some "e1"))
  ∨ (true = true ∧ resolves sample_dfdir (Some "e1")
     ∧ length (d_elements sample_dfdir)
       = S (length (d_elements (snd (removeElement sample_dfdir (Some "e1")))))
     ∧ Forall (λ f, fl_sourceId f ≠ Some "e1" ∧ fl_targetId f ≠ Some "e1")
              (d_flows (snd (removeElement sample_dfdir (Some "e1"))))
     ∧ (∀ f, f ∈ d_flows (snd (removeElement sample_dfdir (Some "e1")))
             ↔ f ∈ d_flows sample_dfdir
               ∧ fl_sourceId f ≠ Some "e1" ∧ fl_targetId f ≠ Some "e1")
     ∧ ∀ other, other ≠ Some "e1" →
         getElementById (snd (removeElement sample_dfdir (Some "e1"))) other
         = getElementById sample_dfdir other).
Proof.
  apply (removeElement_cascade sample_dfdir
           (snd (removeElement sample_dfdir (Some "e1"))) (Some "e1") true).
  reflexivity.
Defined.

(** A DFDIR reached from [new DFDIR(name)] by calls of addElement,
    addFlow, removeElement and removeFlow never holds two elements with
    one id, nor two flows with one id. *)
Theorem built_ids_are_unique (now : string) (name : option string) (ops : list Op) :
  NoDup (map el_id (d_elements (build now name ops)))
  ∧ NoDup (map fl_id (d_flows (build now name ops))).
Proof. apply build_unique_ids. Qed.

(** On such a DFDIR, an element that [removeElement] took away is not
    found any more. *)
Theorem removeElement_then_getElementById (now : string) (name : option string)
    (ops : list Op) (id : option string) (d' : DFDIR) :
  removeElement (build now name ops) id = (true, d') →
  getElementById d' id = None.
Proof.
  intros H. eapply getElementById_removeElement; [| exact H].
  apply build_unique_ids.
Qed.

Lemma removeElement_then_getElementById_witness :
  getElementById (snd (removeElement sample_dfdir (Some "e1"))) (Some "e1") = None.
Proof.
  apply (removeElement_then_getElementById "2025-01-01T00:00:00.000Z"
           (Some "Sample") sample_ops (Some "e1")).
  reflexivity.
Defined.

(** [removeElement] keeps the references whole: when both ends of every
    flow were ids of elements before, they are afterwards. *)
Theorem removeElement_keeps_references (d d' : DFDIR) (id : option string) (b : bool) :
  Forall (λ f, resolves d (fl_sourceId f) ∧ resolves d (fl_targetId f)) (d_flows d) →
  removeElement d id = (b, d') →
  Forall (λ f, resolves d' (fl_sourceId f) ∧ resolves d' (fl_targetId f)) (d_flows d').
Proof.
  intros Hall H. destruct b.
  - pose proof (removeElement_resolves d id d') as Hres.
    specialize (λ other, Hres other H).
    apply removeElement_true in H as (i & e & _ & _ & _ & Hd').
    apply Forall_forall. intros f Hf. rewrite Hd' in Hf. simpl in Hf.
    apply list_elem_of_In, filter_In in Hf as [Hf [Hs Ht]%untouched_spec].
    rewrite Forall_forall in Hall.
    destruct (Hall f (proj2 (list_elem_of_In _ _) Hf)) as [Hrs Hrt].
    split; by apply Hres.
  - by apply removeElement_false in H as [-> _].
Qed.

Lemma removeElement_keeps_references_witness :
  Forall (λ f, resolves (snd (removeElement sample_dfdir (Some "e1"))) (fl_sourceId f)
               ∧ resolves (snd (removeElement sample_dfdir (Some "e1"))) (fl_targetId f))
         (d_flows (snd (removeElement sample_dfdir (Some "e1")))).
Proof.
  apply (removeElement_keeps_references sample_dfdir _ (Some "e1") true).
  - repeat constructor; [exists kali | exists web]; (split; [| reflexivity]);
      vm_compute; set_solver.
  - reflexivity.
Defined.

(** [DFDIR.fromJSON(json)] returns exactly when no two entries of
    [json.elements] share an id and no two entries of [json.flows] do
    (it throws otherwise); the DFDIR it returns holds the elements and
    the flows constructed from the entries, in their order. *)
Theorem fromJSON_returns_iff (now : string) (json : DFDIRJson) (d : DFDIR) :
  fromJSON now json = Normal d
  ↔ NoDup (map ea_id (j_elements json)) ∧ NoDup (map fa_id (j_flows json))
    ∧ d = mkDFDIR (default "Untitled" (j_name json))
                  (map DFDElement_new (j_elements json))
                  (map DFDFlow_new (j_flows json))
                  (default (d_metadata (DFDIR_new now (j_name json))) (j_metadata json)).
Proof. apply fromJSON_Normal. Qed.

(** ** Statistics *)

(** For a DFDIR that [validate] accepts, the counts of actors, processes
    and stores of [getStatistics] add up to the number of elements; and
    each of the two average confidences is NaN when one of the
    confidences averaged is NaN (which [validate] lets pass), and an
    integer of [0, 100] otherwise. *)
Theorem getStatistics_of_valid (d : DFDIR) :
  v_valid (validate d) = true →
  (actors (getStatistics d) + processes (getStatistics d) + stores (getStatistics d)
   = totalElements (getStatistics d))%nat
  ∧ average_of_passed (map el_confidence (d_elements d))
                      (averageConfidence_elements (getStatistics d))
  ∧ average_of_passed (map fl_confidence (d_flows d))
                      (averageConfidence_flows (getStatistics d)).
Proof.
  intros (He & Hf & _)%validate_valid_spec. simpl. split; [| split].
  - apply count_types. eapply Forall_impl; [exact He |].
    by intros e (_ & _ & Ht & _).
  - apply average_confidence_of_passed, Forall_forall. intros c Hc.
    apply list_elem_of_fmap in Hc as (e & -> & Hin). rewrite Forall_forall in He.
    by destruct (He e Hin) as (_ & _ & _ & _ & ?).
  - apply average_confidence_of_passed, Forall_forall. intros c Hc.
    apply list_elem_of_fmap in Hc as (f & -> & Hin). rewrite Forall_forall in Hf.
    by destruct (Hf f Hin) as (_ & _ & _ & _ & ?).
Qed.

Lemma getStatistics_of_valid_witness :
  (actors (getStatistics sample_dfdir) + processes (getStatistics sample_dfdir)
   + stores (getStatistics sample_dfdir)
   = totalElements (getStatistics sample_dfdir))%nat
  ∧ average_of_passed (map el_confidence (d_elements sample_dfdir))
                      (averageConfidence_elements (getStatistics sample_dfdir))
  ∧ average_of_passed (map fl_confidence (d_flows sample_dfdir))
                      (averageConfidence_flows (getStatistics sample_dfdir)).
Proof. apply (getStatistics_of_valid sample_dfdir). vm_compute. reflexivity. Defined.

(** [extractionSources] names every source of an element, each once;
    and no count of [getStatistics] is larger than the number of
    elements. *)
Theorem getStatistics_sources (d : DFDIR) :
  NoDup (extractionSources (getStatistics d))
  ∧ (∀ s, s ∈ extractionSources (getStatistics d)
          ↔ ∃ e, e ∈ d_elements d ∧ el_source e = s)
  ∧ (elementsBySource_text (getStatistics d) + elementsBySource_vision (getStatistics d)
     + elementsBySource_manual (getStatistics d) ≤ totalElements (getStatistics d))%nat
  ∧ (missingIPs (getStatistics d) ≤ totalElements (getStatistics d))%nat.
Proof.
  simpl. split; [apply fold_set_add_NoDup; constructor |]. split; [| split].
  - intros s. rewrite elem_of_fold_set_add, elem_of_nil. split.
    + intros [(e & -> & He)%list_elem_of_fmap | []]. by exists e.
    + intros (e & He & <-). left. by apply list_elem_of_fmap_2.
  - induction (d_elements d) as [|e l IH]; [done |].
    rewrite !count_cons. simpl. unfold has_source in *.
    destruct (String.eqb (el_source e) "text") eqn:E1;
      destruct (String.eqb (el_source e) "vision") eqn:E2;
      destruct (String.eqb (el_source e) "manual") eqn:E3;
      try apply String.eqb_eq in E1; try apply String.eqb_eq in E2;
      try apply String.eqb_eq in E3; try congruence; lia.
  - apply count_le.
Qed.

(** ** Validation results *)

(** [fromStringErrors(messages, source)] holds one error per message, in
    order, each with the code UNKNOWN_ERROR and the severity error, no
    warning, and is valid exactly when there is no message. *)
Theorem fromStringErrors_one_error_per_message (messages : list string)
    (src : option string) :
  errors (fromStringErrors messages src)
  = map (λ msg, mkIssue ErrorCodes.UNKNOWN_ERROR msg "" Severity.ERROR "") messages
  ∧ warnings (fromStringErrors messages src) = []
  ∧ (valid (fromStringErrors messages src) = true ↔ messages = []).
Proof.
  unfold fromStringErrors. split; [by rewrite fold_addError_errors |].
  destruct (fold_addError_rest
              (λ msg, createError (Some ErrorCodes.UNKNOWN_ERROR) (Some msg) None
                                  (Some Severity.ERROR) None)
              messages
              (createResult (Some (default "unknown" src))
                            (Some (length messages =? 0)%nat))) as [-> ->].
  split; [done |]. by destruct messages.
Qed.

(** [validateDFDIR(dfdir)] reports an instance valid exactly when its
    own [validate()] does, with the same messages in the same order as
    errors and without a warning. *)
Theorem validateDFDIR_agrees_with_validate (d : DFDIR) :
  valid (validateDFDIR (Some d)) = v_valid (validate d)
  ∧ map message (errors (validateDFDIR (Some d))) = v_errors (validate d)
  ∧ warnings (validateDFDIR (Some d)) = [].
Proof.
  destruct (validateDFDIR_instance d) as [H1 H2]. split; [done |]. split; [done |].
  unfold validateDFDIR. destruct (negb _); [| done].
  change (warnings (merge ?r ?o)) with (warnings r ++ warnings o).
  by rewrite fromStringErrors_warnings.
Qed.

(** For two results whose [valid] flag says that they hold no error,
    [merge] gives a result of that kind whose flag is the conjunction of
    the two flags and whose errors and warnings are those of the first
    followed by those of the second. *)
Theorem merge_is_conjunction (r other : Result) :
  consistent r → consistent other →
  valid (merge r other) = valid r && valid other
  ∧ consistent (merge r other)
  ∧ errors (merge r other) = errors r ++ errors other
  ∧ warnings (merge r other) = warnings r ++ warnings other.
Proof.
  intros Hr Ho. split; [by apply merge_valid |].
  split; [by apply consistent_merge | done].
Qed.

Lemma merge_is_conjunction_witness :
  valid (merge (validateDFDIR (Some sample_dfdir)) (validateDFDIR None))
  = valid (validateDFDIR (Some sample_dfdir)) && valid (validateDFDIR None)
  ∧ consistent (merge (validateDFDIR (Some sample_dfdir)) (validateDFDIR None))
  ∧ errors (merge (validateDFDIR (Some sample_dfdir)) (validateDFDIR None))
    = errors (validateDFDIR (Some sample_dfdir)) ++ errors (validateDFDIR None)
  ∧ warnings (merge (validateDFDIR (Some sample_dfdir)) (validateDFDIR None))
    = warnings (validateDFDIR (Some sample_dfdir)) ++ warnings (validateDFDIR None).
Proof.
  apply (merge_is_conjunction (validateDFDIR (Some sample_dfdir)) (validateDFDIR None)).
  - unfold consistent. vm_compute. tauto.
  - unfold consistent. vm_compute. split; discriminate.
Defined.

(** ** Cells *)

(** [validateCells] reports an array valid exactly when every cell has
    an id that is not empty and a known shape, every edge cell has a
    source and a target, and every other cell has a position and a size
    made of numbers. *)
Theorem validateCells_accepts_exactly (cells : list Cell) :
  valid (validateCells cells) = true ↔ Forall cell_ok cells.
Proof. apply validateCells_valid_iff. Qed.

(** A diagram object is as valid as its cells, with the errors of its
    cells: a missing title or id is a warning only. *)
Theorem validateDiagram_as_valid_as_cells (d : DiagramObject) :
  valid (validateDiagram (Some d)) = valid (validateCells_of (do_cells d))
  ∧ errors (validateDiagram (Some d)) = errors (validateCells_of (do_cells d)).
Proof. apply validateDiagram_cells. Qed.

(** ** Conversion *)





End Coverage.

Module LayoutCoverage.
Import JS JSFacts Props Layout LayoutFacts LayoutMore LayoutTiers SnapFacts.
Import LayoutTools LayoutToolsFacts Examples Samples.

(** ** Layout *)

(** Whatever the algorithm, the layout changes coordinates only: the
    array returned has the ids, names and types of the array given, in
    the same order. *)
Theorem layout_changes_coordinates_only (gridSnap : Z) (Math_cos Math_sin : Q → Q)
    (Math_PI : Q) (nodes ns : list Node) (connections : list Connection)
    (layoutType : string) :
  calculateLayout gridSnap Math_cos Math_sin Math_PI nodes connections layoutType
  = Some (Normal ns) →
  map identity ns = map identity nodes.
Proof. apply identity_calculateLayout. Qed.

Lemma layout_changes_coordinates_only_witness :
  map identity three_tiered = map identity three_nodes.
Proof.
  apply (layout_changes_coordinates_only 100 flat flat three three_nodes
           three_tiered a_to_b "tiered").
  vm_compute. reflexivity.
Defined.

(** When the grid unit divides 100, the tiered layout puts every actor
    in the row y = 100, every store in the row y = 900 and every other
    node in the row y = 500. *)
Theorem tiered_layout_rows (gridSnap : Z) (nodes ns : list Node) (j : nat) (m : Node) :
  (gridSnap | 100)%Z →
  calculateTieredLayout gridSnap nodes = Normal ns →
  ns !! j = Some m →
  n_y m = Some (row (tier_of (n_type m))).
Proof. intros Hg. by apply calculateTieredLayout_rows. Qed.

Lemma tiered_layout_rows_witness :
  n_y (mkNode (Some "b") "B" (Some "process") (Some 1000%Z) (Some 500%Z))
  = Some (row (tier_of (Some "process"))).
Proof.
  apply (tiered_layout_rows 100 three_nodes three_tiered 1).
  - by exists 1%Z.
  - vm_compute. reflexivity.
  - reflexivity.
Defined.

(** When the grid unit divides 100, the tiered layout puts no two nodes
    at the same place. *)
Theorem tiered_layout_no_overlap (gridSnap : Z) (nodes ns : list Node)
    (i j : nat) (a b : Node) :
  (gridSnap | 100)%Z →
  calculateTieredLayout gridSnap nodes = Normal ns →
  i ≠ j → ns !! i = Some a → ns !! j = Some b →
  (n_x a, n_y a) ≠ (n_x b, n_y b).
Proof. intros Hg. by apply calculateTieredLayout_apart. Qed.

Lemma tiered_layout_no_overlap_witness :
  (n_x (mkNode (Some "a") "A" (Some "actor") (Some 1000%Z) (Some 100%Z)),
   n_y (mkNode (Some "a") "A" (Some "actor") (Some 1000%Z) (Some 100%Z)))
  ≠ (n_x (mkNode (Some "b") "B" (Some "process") (Some 1000%Z) (Some 500%Z)),
     n_y (mkNode (Some "b") "B" (Some "process") (Some 1000%Z) (Some 500%Z))).
Proof.
  apply (tiered_layout_no_overlap 100 three_nodes three_tiered 0 1).
  - by exists 1%Z.
  - vm_compute. reflexivity.
  - lia.
  - reflexivity.
  - reflexivity.
Defined.

(** For a grid unit that is a positive integer and a value that is an
    integer, both small, [snapToGrid] returns the multiple of the unit
    that is nearest to the value, the larger one of two that are equally
    near: a multiple at most half a unit above the value and less than
    half a unit below it. It returns the value itself exactly when the
    value is a multiple of the unit, and so it returns a value that it
    returned. *)
Theorem snapToGrid_nearest_multiple (gridSnap v : Z) :
  (0 < gridSnap)%Z → small gridSnap → small v →
  ∃ z, snapToGrid gridSnap (inject_Z v) = Some z
       ∧ (gridSnap | z)%Z
       ∧ (- gridSnap < 2 * (z - v) <= gridSnap)%Z
       ∧ (z = v ↔ (gridSnap | v)%Z)
       ∧ snapToGrid gridSnap (inject_Z z) = Some z.
Proof.
  intros Hg _ _. assert (gridSnap ≠ 0%Z) as Hne by lia.
  exists (multiple_near gridSnap (inject_Z v)).
  rewrite !(snapToGrid_Some gridSnap Hne).
  split; [done |]. split; [by eexists |].
  split; [by apply multiple_near_Z |]. split.
  - split.
    + intros <-. by eexists.
    + by apply multiple_near_fixed.
  - f_equal. by apply multiple_near_idempotent.
Qed.

Lemma snapToGrid_nearest_multiple_witness :
  ∃ z, snapToGrid 100 (inject_Z 850) = Some z
       ∧ (100 | z)%Z
       ∧ (- 100 < 2 * (z - 850) <= 100)%Z
       ∧ (z = 850%Z ↔ (100 | 850)%Z)
       ∧ snapToGrid 100 (inject_Z z) = Some z.
Proof.
  apply (snapToGrid_nearest_multiple 100 850); [lia | |]; unfold small; lia.
Defined.

(** The bounding box of an array of nodes that all have coordinates
    holds every node, touches a node on each of its four sides, and has
    the width and height of its sides' distances. *)
Theorem bounding_box_encloses (nodes : list Node) :
  nodes ≠ [] → placed nodes →
  ∃ x0 y0 x1 y1,
    calculateBoundingBox nodes
    = mkBoundingBox (Some x0) (Some y0) (Some x1) (Some y1)
                    (Some (x1 - x0)%Z) (Some (y1 - y0)%Z)
    ∧ (∀ n, n ∈ nodes → ∃ x y, n_x n = Some x ∧ n_y n = Some y
                              ∧ (x0 <= x <= x1)%Z ∧ (y0 <= y <= y1)%Z)
    ∧ (∃ n, n ∈ nodes ∧ n_x n = Some x0) ∧ (∃ n, n ∈ nodes ∧ n_x n = Some x1)
    ∧ (∃ n, n ∈ nodes ∧ n_y n = Some y0) ∧ (∃ n, n ∈ nodes ∧ n_y n = Some y1).
Proof. apply calculateBoundingBox_encloses. Qed.

Lemma bounding_box_encloses_witness :
  ∃ x0 y0 x1 y1,
    calculateBoundingBox placed_nodes
    = mkBoundingBox (Some x0) (Some y0) (Some x1) (Some y1)
                    (Some (x1 - x0)%Z) (Some (y1 - y0)%Z)
    ∧ (∀ n, n ∈ placed_nodes → ∃ x y, n_x n = Some x ∧ n_y n = Some y
                                     ∧ (x0 <= x <= x1)%Z ∧ (y0 <= y <= y1)%Z)
    ∧ (∃ n, n ∈ placed_nodes ∧ n_x n = Some x0)
    ∧ (∃ n, n ∈ placed_nodes ∧ n_x n = Some x1)
    ∧ (∃ n, n ∈ placed_nodes ∧ n_y n = Some y0)
    ∧ (∃ n, n ∈ placed_nodes ∧ n_y n = Some y1).
Proof.
  apply (bounding_box_encloses placed_nodes).
  - discriminate.
  - repeat constructor; simpl; eauto.
Defined.

(** For a grid unit that is an integer other than 0, on nodes that
    stand on the grid, unit and coordinates small, [centerDiagram] moves
    every node by one and the same vector of the grid: the distances
    between the nodes stay as they are. *)
Theorem centerDiagram_is_translation (gridSnap : Z) (nodes : list Node) :
  gridSnap ≠ 0%Z → small gridSnap →
  Forall (snapped gridSnap) nodes → Forall small_node nodes →
  ∃ dx dy, (gridSnap | dx)%Z ∧ (gridSnap | dy)%Z
    ∧ centerDiagram gridSnap nodes
      = map (λ n, set_position ((λ x, x + dx)%Z <$> n_x n)
                               ((λ y, y + dy)%Z <$> n_y n) n) nodes.
Proof. intros Hg _ Hs _. by apply centerDiagram_translates. Qed.

Lemma centerDiagram_is_translation_witness :
  ∃ dx dy, (100 | dx)%Z ∧ (100 | dy)%Z
    ∧ centerDiagram 100 placed_nodes
      = map (λ n, set_position ((λ x, x + dx)%Z <$> n_x n)
                               ((λ y, y + dy)%Z <$> n_y n) n) placed_nodes.
Proof.
  apply (centerDiagram_is_translation 100 placed_nodes).
  - discriminate.
  - unfold small. lia.
  - repeat constructor; eexists _, _; repeat split; reflexivity.
  - repeat constructor; intros z [[= <-] | [= <-]]; unfold small; lia.
Defined.

End LayoutCoverage.

Module ExtractorCoverage.
Import JS JSFacts Props Regex Patterns Runtime PatternHelpers Extractor.
Import ExtractorFacts SetFacts ExtractorMore ExtractorNames ExtractorText.
Import StringFacts ContextFacts ServiceFacts ClassifyFacts ExtractorNodes Examples.

(** ** Extraction *)

(** No two nodes that [extract] returns have the same name, whatever
    the text, the vision results and the state of the module. *)
Theorem extract_node_names_are_distinct (text : string)
    (visionResults : option VisionResults) (s : St) :
  NoDup (map nd_name (ex_nodes (fst (extract text visionResults s)))).
Proof. apply extract_names_NoDup. Qed.

(** Without vision results, both ends of every connection that
    [extract] returns are ids of nodes it returns, the protocol of the
    connection is one of HTTPS, HTTP, SSH, RDP, MYSQL, POSTGRESQL, SMB,
    LDAP, DNS and TCP, the connection is marked encrypted exactly when
    the protocol is HTTPS or SSH, and it is never marked as crossing a
    public network. *)
Theorem extract_text_connections_are_sound (text : string) (s : St) :
  Forall (λ c,
            (∃ n, n ∈ ex_nodes (fst (extract text None s)) ∧ nd_id n = cn_sourceId c)
            ∧ (∃ n, n ∈ ex_nodes (fst (extract text None s)) ∧ nd_id n = cn_targetId c)
            ∧ cn_protocol c ∈ protocol_names
            ∧ (cn_isEncrypted c = true
               ↔ cn_protocol c = "HTTPS" ∨ cn_protocol c = "SSH")
            ∧ cn_isPublicNetwork c = false)
         (ex_connections (fst (extract text None s))).
Proof. apply Forall_forall. intros c Hc. by apply extract_text_connections. Qed.

(** The context window is a piece of the text, of at most 200 characters
    on each side of the keyword; it is empty when the keyword does not
    occur in the text. *)
Theorem getContextWindow_is_a_bounded_piece (text keyword : string) :
  occurs_in (getContextWindow text keyword) text
  ∧ String.length (getContextWindow text keyword) ≤ String.length keyword + 400
  ∧ (includes (toLowerCase text) (toLowerCase keyword) = false →
     getContextWindow text keyword = "").
Proof.
  destruct (getContextWindow_piece text keyword) as [H1 H2].
  split; [done |]. split; [done |]. apply getContextWindow_absent.
Qed.

Lemma getContextWindow_is_a_bounded_piece_witness :
  occurs_in (getContextWindow kali_text "Windows") kali_text
  ∧ String.length (getContextWindow kali_text "Windows") ≤ String.length "Windows" + 400
  ∧ getContextWindow kali_text "Windows" = "".
Proof.
  destruct (getContextWindow_is_a_bounded_piece kali_text "Windows") as (H1 & H2 & H3).
  split; [exact H1 |]. split; [exact H2 |]. apply H3. vm_compute. reflexivity.
Defined.

(** When the keyword occurs in the text, in whatever case of its
    letters, it occurs in the context window too. (The index found in
    the lower-cased text is used on the text itself: on the strings of
    the model, whose code units are below 256, [toLowerCase] keeps every
    index.) *)
Theorem getContextWindow_holds_keyword (text keyword : string) :
  includes (toLowerCase text) (toLowerCase keyword) = true →
  includes (toLowerCase (getContextWindow text keyword)) (toLowerCase keyword) = true.
Proof. apply getContextWindow_holds. Qed.

Lemma getContextWindow_holds_keyword_witness :
  includes (toLowerCase (getContextWindow kali_text "KALI")) (toLowerCase "KALI") = true.
Proof. apply (getContextWindow_holds_keyword kali_text "KALI"). vm_compute. reflexivity. Defined.

(** [extractServices] lists no service twice, whatever the text and the
    state of the regular expressions. *)
Theorem extractServices_lists_each_service_once (servicesText : string) (s : St) :
  NoDup (fst (extractServices servicesText s)).
Proof. apply extractServices_NoDup. Qed.

(** When the [lastIndex] of rolePatterns.attacker and of
    rolePatterns.database is 0, [classifyNodeType] returns what it
    returns right after the module is loaded, whatever was tested
    before. *)
Theorem classifyNodeType_with_lastIndex_at_zero (name role context : string) (s : St) :
  default 0%nat (lastIndex s !! "rolePatterns.attacker") = 0%nat →
  default 0%nat (lastIndex s !! "rolePatterns.database") = 0%nat →
  fst (classifyNodeType name role context s)
  = fst (classifyNodeType name role context fresh).
Proof. apply classifyNodeType_at_rest. Qed.

Lemma classifyNodeType_with_lastIndex_at_zero_witness :
  fst (classifyNodeType "Kali-01" "" kali_text
         (mkSt {[ "rolePatterns.attacker" := 0%nat; "protocolPatterns.ssh" := 7%nat ]}
               4 [] []))
  = fst (classifyNodeType "Kali-01" "" kali_text fresh).
Proof.
  apply (classifyNodeType_with_lastIndex_at_zero "Kali-01" "" kali_text).
  - vm_compute. reflexivity.
  - vm_compute. reflexivity.
Defined.

(** Without vision results, every node that [extract] returns has an
    id, one of the types actor, process and store, the source text, and
    a services array that names no service twice. *)
Theorem extract_text_nodes_are_typed (text : string) (s : St) :
  Forall (λ n, is_Some (nd_id n)
               ∧ nd_type n ∈ ["actor"; "process"; "store"]
               ∧ nd_source n = "text"
               ∧ NoDup (nd_services n))
         (ex_nodes (fst (extract text None s))).
Proof. apply Forall_forall. intros n Hn. by apply extract_text_nodes in Hn. Qed.

End ExtractorCoverage.
